(** * Ocean data tools: masks, training pairs, splits and quality control

    A shallow embedding of the in-memory logic of the ocean preprocessing
    tools (mask generation and application, training-pair construction,
    dataset splitting, pair validation, spike detection) together with the
    properties their specification states about them.

    Conventions.
    - A JavaScript object used as a row is a finite map from field names to
      values ([gmap string value]); reading an absent field yields
      [VUndefined], as in JavaScript.  [Object.keys] is the list of keys of
      the map: the functions below only count keys, test membership or build
      another object key by key, so the enumeration order is immaterial.
    - Numbers stored in rows are binary64 floats ([PrimFloat.float]), which is
      what a JavaScript number is.
    - The missing ratio of a cloud mask is the binary64 quotient of two array
      lengths, and the range test and [toFixed] work on that float.
    - A function that can raise a [TypeError] returns an [outcome]. *)

From Stdlib Require Import ZArith NArith QArith Qround Lia Lqa Ascii String.
From Stdlib Require Import Floats.PrimFloat Floats.FloatOps Floats.SpecFloat.
From Stdlib Require Import Floats.FloatAxioms.
From stdpp Require Import base option list sorting gmap strings.

Local Open Scope string_scope.
Local Open Scope list_scope.
#[local] Set Warnings "-inexact-float".

(** ** JavaScript numbers *)

Module Number.

(** The integer nearest to an exact rational, ties away from zero: the
    digits [toFixed] prints for it. *)
Definition round_half_away (x : Q) : Z :=
  if Qle_bool 0 x then Qfloor (x + (1 # 2)) else (- Qfloor (- x + (1 # 2)))%Z.

(** The float nearest to an integer (what an array length is as a number). *)
Definition ofZ (z : Z) : float :=
  SF2Prim (binary_normalize prec emax z 0 false).

Definition ofNat (n : nat) : float := ofZ (Z.of_nat n).

(** [x || d] for an optional number: [undefined], [0], [-0] and [NaN] are
    falsy. *)
Definition orDefault (x : option float) (d : float) : float :=
  match x with
  | Some v => if PrimFloat.eqb v 0 || is_nan v then d else v
  | None => d
  end.

(** What [ToIntegerOrInfinity] yields; [NaN] is mapped to [0]. *)
Inductive integerOrInfinity :=
  | NegInf
  | Fin (z : Z)
  | PosInf.

(** [Math.floor(x)] as array methods see it, that is after
    [ToIntegerOrInfinity]: the exact floor of a finite float, read off its
    sign, mantissa and exponent. *)
Definition floor (x : float) : integerOrInfinity :=
  match Prim2SF x with
  | S754_zero _ => Fin 0
  | S754_nan => Fin 0
  | S754_infinity s => if s then NegInf else PosInf
  | S754_finite s m e => Fin (Z.shiftl (if s then Z.neg m else Z.pos m) e)
  end.

(** [a + b] on results of [Math.floor].  The two operands are integer-valued
    floats: below [2^53] their float sum is the exact sum, and beyond it both
    the float sum and the exact sum exceed any array length, which is all
    [slice] looks at.  Opposite infinities add to [NaN], read as [0]. *)
Definition plus (a b : integerOrInfinity) : integerOrInfinity :=
  match a, b with
  | Fin x, Fin y => Fin (x + y)
  | PosInf, NegInf | NegInf, PosInf => Fin 0
  | PosInf, _ | _, PosInf => PosInf
  | NegInf, _ | _, NegInf => NegInf
  end.

(** The relative index computation of [Array.prototype.slice]: a negative
    index counts from the end, and the result is clamped to [0 .. len]. *)
Definition relativeIndex (len : nat) (i : integerOrInfinity) : nat :=
  match i with
  | NegInf => 0
  | PosInf => len
  | Fin z =>
      if (z <? 0)%Z then Z.to_nat (Z.max (Z.of_nat len + z) 0)
      else Z.to_nat (Z.min z (Z.of_nat len))
  end.

(** [arr.slice(start, end)] *)
Definition slice {A} (arr : list A) (start fin : integerOrInfinity) : list A :=
  let k := relativeIndex (length arr) start in
  let final := relativeIndex (length arr) fin in
  take (final - k) (drop k arr).

(** [arr.slice(start)] *)
Definition sliceFrom {A} (arr : list A) (start : integerOrInfinity) : list A :=
  drop (relativeIndex (length arr) start) arr.

(** The exact value of a finite float as a fraction [num / 2^k] or
    [num * 2^k]. *)
Definition exactTimes (x : float) (scale : Z) : option Q :=
  match Prim2SF x with
  | S754_zero _ => Some 0%Q
  | S754_finite s m e =>
      let n := ((if s then Z.neg m else Z.pos m) * scale)%Z in
      Some (if (0 <=? e)%Z then inject_Z (n * 2 ^ e)
            else Qmake n (Z.to_pos (2 ^ (- e))))
  | _ => None
  end.

(** The float nearest to the rational [n / d], ties to even: a quotient with
    66 significant bits and a sticky bit is rounded by [binary_normalize]. *)
Definition nearest (n : Z) (d : positive) : float :=
  let a := Z.abs n in
  let k := Z.max 0 (66 + Z.log2 (Z.pos d) - Z.log2 a) in
  let q := (a * 2 ^ k / Z.pos d)%Z in
  let sticky := if (a * 2 ^ k mod Z.pos d =? 0)%Z then 0%Z else 1%Z in
  let m := (2 * q + sticky)%Z in
  SF2Prim (binary_normalize prec emax (if (n <? 0)%Z then - m else m)%Z
             (- k - 1) (n <? 0)%Z).

(** [Number(x.toFixed(digits))]: [NaN] and the infinities print as
    themselves; a float of magnitude [1e21] or more prints in full and reads
    back as itself; any other float is rounded to [digits] decimals (ties
    up in magnitude) and the decimal is read back as the nearest float. *)
Definition toFixedNumber (digits : nat) (x : float) : float :=
  match exactTimes x (10 ^ Z.of_nat digits) with
  | None => x
  | Some scaled =>
      if PrimFloat.leb 1e21 (abs x) then x
      else
        let n := round_half_away scaled in
        if (n =? 0)%Z then (if PrimFloat.ltb x 0 then (-0)%float else 0%float)
        else nearest n (Z.to_pos (10 ^ Z.of_nat digits))
  end.

End Number.

(** ** Values, rows and tables (utils/oceanData) *)

Module OceanData.

Inductive value :=
  | VNull
  | VUndefined
  | VNumber (x : float)
  | VString (s : string).

Abbreviation row := (gmap string value).
Abbreviation OceanData := (list (gmap string value)).

(** [row[key]] *)
Definition get (r : row) (key : string) : value :=
  default VUndefined (r !! key).

(** [Object.keys(row)] *)
Definition keys {A} (r : gmap string A) : list string := (map_to_list r).*1.

(** Modelled from the spec: [isMissing] is imported from utils/oceanData,
    which is not part of the sources at hand.  "A value is missing if it is
    null, undefined, empty string, or a NaN-valued number"; the preprocess
    tool inlines the same test,
    [val === null || val === undefined || val === '' ||
     (typeof val === 'number' && isNaN(val))]. *)
Definition isMissing (v : value) : bool :=
  match v with
  | VNull => true
  | VUndefined => true
  | VString s => bool_decide (s = "")
  | VNumber x => is_nan x
  end.

(** What [parseDataFile] can hand to a tool: an array of rows, or, when the
    JSON document is not an array, some other JSON value. *)
Inductive parsed :=
  | PArray (rows : OceanData)
  | PNull
  | PObject (o : row)
  | PNumber (x : float)
  | PString (s : string).

(** Result of a call that may raise. *)
Inductive outcome (A : Type) :=
  | Return (a : A)
  | Throw (error : string).
Arguments Return {A} a.
Arguments Throw {A} error.

(** [keys.forEach(key => { obj[key] = f(key) })] on a fresh object. *)
Definition forEach_assign {A} (ks : list string) (f : string → A)
  : gmap string A :=
  foldl (λ obj key, <[key := f key]> obj) ∅ ks.

(** Reading a boolean flag of a mask object: an absent entry is falsy. *)
Definition flag (m : gmap string bool) (key : string) : bool :=
  default false (m !! key).

(** One cloud mask: the source row index, the missing ratio over the
    non-land fields, and the per-field missing map. *)
Record CloudMask := mkCloudMask {
  index : nat;
  missingRatio : float;
  mask : gmap string bool;
}.

(** The mask file: [{ landMask, cloudMasks }], either of which may be
    absent. *)
Record MaskSet := mkMaskSet {
  landMask : option (gmap string bool);
  cloudMasks : option (list CloudMask);
}.

(** [mask_params] of the tools. *)
Record MaskParams := mkMaskParams {
  missing_ratio_range : option (float * float);
  mask_count : option Z;
}.

(** [params?.missing_ratio_range || [0.1, 0.6]] *)
Definition missingRatioRange_of (params : option MaskParams)
  : float * float :=
  match params ≫= missing_ratio_range with
  | Some range => range
  | None => (0.1, 0.6)%float
  end.

(** [params?.mask_count || 360]: zero is falsy and gives the default. *)
Definition maskCount_of (params : option MaskParams) : Z :=
  match params ≫= mask_count with
  | Some n => if Z.eqb n 0 then 360%Z else n
  | None => 360%Z
  end.

(** *** The two passes shared by both copies of [generateMasks] *)

(** Land-mask pass:
    [keys.forEach(key => { landMask[key] = data.every(row => isMissing(row[key])) })] *)
Definition landMaskPass (data : OceanData) (ks : list string)
  : gmap string bool :=
  forEach_assign ks (λ key, forallb (λ r, isMissing (get r key)) data).

(** [keys.filter(key => !landMask[key])] *)
Definition seaKeysOf (landMask : gmap string bool) (ks : list string)
  : list string :=
  filter (λ key, flag landMask key = false) ks.

(** [seaKeys.filter(key => isMissing(row[key])).length] *)
Definition missingCount (seaKeys : list string) (r : row) : nat :=
  length (filter (λ key, isMissing (get r key) = true) seaKeys).

(** [missingCount / seaKeys.length] *)
Definition ratioOf (seaKeys : list string) (r : row) : float :=
  (Number.ofNat (missingCount seaKeys r) / Number.ofNat (length seaKeys))%float.

(** [missingRatio >= lo && missingRatio <= hi] *)
Definition inRange (range : float * float) (x : float) : bool :=
  PrimFloat.leb (fst range) x && PrimFloat.leb x (snd range).

Definition cloudMaskOf (ks seaKeys : list string) (i : nat) (r : row)
  : CloudMask :=
  {| index := i;
     missingRatio := Number.toFixedNumber 4 (ratioOf seaKeys r);
     mask := forEach_assign ks (λ key, isMissing (get r key)) |}.

(** Cloud-mask pass: the loop
    [for (let i = 0; i < data.length && cloudMasks.length < maskCount; i++)]
    started at row [i] with the masks emitted so far. *)
Fixpoint cloudMaskPass (ks seaKeys : list string) (range : float * float)
    (maskCount : Z) (i : nat) (rows : OceanData) (emitted : list CloudMask)
  : list CloudMask :=
  match rows with
  | [] => emitted
  | r :: rest =>
      if (Z.of_nat (length emitted) <? maskCount)%Z then
        if inRange range (ratioOf seaKeys r) then
          cloudMaskPass ks seaKeys range maskCount (S i) rest
            (emitted ++ [cloudMaskOf ks seaKeys i r])
        else cloudMaskPass ks seaKeys range maskCount (S i) rest emitted
      else emitted
  end.

(** Messages pushed on a [warnings] list.  The templates that interpolate
    numbers keep the numbers instead of their decimal rendering. *)
Inductive warning :=
  | Msg (text : string)
  (** [`Generated land mask: ${landPixelCount} land pixels identified`] *)
  | MsgLandMask (landPixelCount : nat)
  (** [`Generated ${n} cloud masks with missing ratio in [${lo}, ${hi}]`] *)
  | MsgCloudMasks (n : nat) (range : float * float)
  (** [`Applied ${n} cloud masks to data`] *)
  | MsgApplied (n : nat).

(** [Object.values(landMask).filter(v => v).length] *)
Definition landPixelCountOf (landMask : gmap string bool) : nat :=
  length (filter (λ v, v = true) (map_to_list landMask).*2).

End OceanData.

(** ** The mask tool (OceanMaskProcessTool) *)

Module MaskProcess.
Import OceanData.

Record Report := mkReport {
  landMaskGenerated : option bool;
  landPixelCount : option nat;
  cloudMasksGenerated : option nat;
  missingRatioRange : option (float * float);
}.

Record MaskGenResult := mkMaskGenResult {
  masks : MaskSet;
  report : Report;
  warnings : list warning;
}.

(** The early return [{ masks: {}, report: {}, warnings }]. *)
Definition notSuitable : MaskGenResult :=
  {| masks := {| landMask := None; cloudMasks := None |};
     report := mkReport None None None None;
     warnings := [Msg "Data format not suitable for mask generation"] |}.

(** The body of [generateMasks] after the guard, with [keys] the keys of
    [data[0]]. *)
Definition generateFrom (data : OceanData) (ks : list string)
    (params : option MaskParams) : MaskGenResult :=
  let missingRatioRange := missingRatioRange_of params in
  let maskCount := maskCount_of params in
  let landMask := landMaskPass data ks in
  let landPixelCount := landPixelCountOf landMask in
  let warnings := [MsgLandMask landPixelCount] in
  let seaKeys := seaKeysOf landMask ks in
  if Nat.eqb (length seaKeys) 0 then
    {| masks := {| landMask := Some landMask; cloudMasks := Some [] |};
       report := mkReport (Some true) (Some landPixelCount) (Some 0) None;
       warnings :=
         warnings ++
         [Msg "No valid sea pixels found for cloud mask generation"] |}
  else
    let cloudMasks :=
      cloudMaskPass ks seaKeys missingRatioRange maskCount 0 data [] in
    {| masks := {| landMask := Some landMask; cloudMasks := Some cloudMasks |};
       report := mkReport (Some true) (Some landPixelCount)
                   (Some (length cloudMasks)) (Some missingRatioRange);
       warnings :=
         warnings ++ [MsgCloudMasks (length cloudMasks) missingRatioRange] |}.

(** [x === 0] for a value read from an object. *)
Definition isZero (v : value) : bool :=
  match v with
  | VNumber x => PrimFloat.eqb x 0
  | _ => false
  end.

(** [generateMasks(data, params)].  The only guard is [data.length === 0];
    on a value that is not an array the property reads and calls that follow
    behave as JavaScript makes them: [null.length] raises,
    [Object.keys(undefined)] raises, [Object.keys] of a number is empty and
    of a string is its indices, and [data.every] is not a function. *)
Definition generateMasks (data : parsed) (params : option MaskParams)
  : outcome MaskGenResult :=
  match data with
  | PArray [] => Return notSuitable
  | PArray ((firstRow :: _) as rows) =>
      Return (generateFrom rows (keys firstRow) params)
  | PNull =>
      Throw "TypeError: Cannot read properties of null (reading 'length')"
  | PNumber _ =>
      Throw "TypeError: Cannot convert undefined or null to object"
  | PString s =>
      if bool_decide (s = "") then Return notSuitable
      else Throw "TypeError: data.every is not a function"
  | PObject o =>
      if isZero (get o "length") then Return notSuitable
      else
        match get o "0" with
        | VNull | VUndefined =>
            Throw "TypeError: Cannot convert undefined or null to object"
        | VNumber _ => Return (generateFrom [] [] params)
        | VString s =>
            if bool_decide (s = "") then Return (generateFrom [] [] params)
            else Throw "TypeError: data.every is not a function"
        end
  end.

End MaskProcess.

(** ** The preprocess tool (OceanDataPreprocessTool) *)

Module DataPreprocess.
Import OceanData.

(** [{ landMask?, cloudMasks?, warnings }] *)
Record MaskGenResult := mkMaskGenResult {
  landMask : option (gmap string bool);
  cloudMasks : option (list CloudMask);
  warnings : list warning;
}.

(** [generateMasks(data, params)] of the preprocess tool: the guard is
    [!Array.isArray(data) || data.length === 0]. *)
Definition generateMasks (data : parsed) (params : option MaskParams)
  : outcome MaskGenResult :=
  match data with
  | PArray ((firstRow :: _) as rows) =>
      let missingRatioRange := missingRatioRange_of params in
      let maskCount := maskCount_of params in
      let ks := keys firstRow in
      let landMask := landMaskPass rows ks in
      let landPixelCount := landPixelCountOf landMask in
      let warnings := [MsgLandMask landPixelCount] in
      let seaKeys := seaKeysOf landMask ks in
      if Nat.eqb (length seaKeys) 0 then
        Return
          {| landMask := Some landMask; cloudMasks := None;
             warnings :=
               warnings ++
               [Msg "No valid sea pixels found for cloud mask generation"] |}
      else
        let cloudMasks :=
          cloudMaskPass ks seaKeys missingRatioRange maskCount 0 rows [] in
        Return
          {| landMask := Some landMask; cloudMasks := Some cloudMasks;
             warnings :=
               warnings ++
               [MsgCloudMasks (length cloudMasks) missingRatioRange] |}
  | _ =>
      Return
        {| landMask := None; cloudMasks := None;
           warnings :=
             [Msg "Data format not suitable for mask generation. Expected array of observations."] |}
  end.

End DataPreprocess.

(** ** Applying masks (OceanMaskProcessTool, continued) *)

Module MaskApply.
Import OceanData.

(** [const newRow = { ...row };
     Object.keys(mask).forEach(key => { if (mask[key]) newRow[key] = null })] *)
Definition maskRow (r : row) (mask : gmap string bool) : row :=
  foldl (λ newRow key, if flag mask key then <[key := VNull]> newRow else newRow)
        r (keys mask).

Record ApplyResult := mkApplyResult {
  data : OceanData;
  masksApplied : nat;
  warnings : list warning;
}.

(** The callback of [data.map((row, idx) => ...)], on rows [idx], [idx+1],
    ... *)
Fixpoint mapRows (cloudMasks : list CloudMask) (idx : nat) (rows : OceanData)
  : OceanData :=
  match rows with
  | [] => []
  | r :: rest =>
      (match cloudMasks !! idx with
       | Some cm => maskRow r (mask cm)
       | None => r
       end) :: mapRows cloudMasks (S idx) rest
  end.

(** [applyMasksToData(data, masks)]: only [masks.cloudMasks] is read. *)
Definition applyMasksToData (data : OceanData) (masks : MaskSet)
  : ApplyResult :=
  match cloudMasks masks with
  | None | Some [] =>
      {| data := data; masksApplied := 0;
         warnings := [Msg "No cloud masks found to apply"] |}
  | Some cms =>
      {| data := mapRows cms 0 data;
         masksApplied := Nat.min (length cms) (length data);
         warnings := [MsgApplied (Nat.min (length cms) (length data))] |}
  end.

End MaskApply.

(** ** The training-data tool (OceanTrainingDataTool) *)

Module TrainingData.
Import OceanData Number.

Record TrainingPair := mkTrainingPair {
  input : row;
  groundTruth : row;
  maskIndex : nat;
  missingRatio : float;
}.

Inductive warning :=
  | Msg (text : string)
  (** [`Built ${n} training pairs (input/ground_truth)`] *)
  | MsgBuilt (n : nat)
  (** [`Warning: Split ratios sum to ${sum}, adjusting to 1.0`] *)
  | MsgRatioSum (sum : float)
  (** [`Split dataset: ${train} train, ${val} val, ${test} test`] *)
  | MsgSplit (train val test : nat)
  (** [`Pair ${idx}: Key count mismatch`] *)
  | MsgKeyCount (idx : nat)
  (** [`Pair ${idx}: No masked values found`] *)
  | MsgNoMasked (idx : nat)
  (** [`Validated ${n} pairs: ${valid} valid, ${invalid} invalid`] *)
  | MsgValidated (n valid invalid : nat).

(** [if (cloudMask[key] || (landMask && landMask[key])) null else gtRow[key]]
    for every key of [gtRow], on a fresh object. *)
Definition inputRowOf (gtRow : row) (cloudMask : gmap string bool)
    (landMask : option (gmap string bool)) : row :=
  forEach_assign (keys gtRow)
    (λ key,
       if flag cloudMask key
          || match landMask with Some lm => flag lm key | None => false end
       then VNull else get gtRow key).

(** The loop [for (let i = 0; i < Math.min(cloudMasks.length,
    groundTruth.length); i++)] from index [i] on. *)
Fixpoint pairsFrom (landMask : option (gmap string bool)) (i : nat)
    (groundTruth : OceanData) (cloudMasks : list CloudMask)
  : list TrainingPair :=
  match groundTruth, cloudMasks with
  | gtRow :: gts, cm :: cms =>
      {| input := inputRowOf gtRow (mask cm) landMask;
         groundTruth := gtRow;
         maskIndex := i;
         missingRatio := OceanData.missingRatio cm |}
      :: pairsFrom landMask (S i) gts cms
  | _, _ => []
  end.

(** [buildTrainingPairs(groundTruth, masks)] *)
Definition buildTrainingPairs (groundTruth : OceanData) (masks : MaskSet)
  : list TrainingPair * list warning :=
  match cloudMasks masks with
  | None | Some [] => ([], [Msg "No cloud masks available for pair generation"])
  | Some cms =>
      let pairs := pairsFrom (landMask masks) 0 groundTruth cms in
      (pairs, [MsgBuilt (length pairs)])
  end.

(** [split_params] *)
Record SplitParams := mkSplitParams {
  train_ratio : option float;
  val_ratio : option float;
  test_ratio : option float;
  shuffle : option bool;
}.

(** [[data[i], data[j]] = [data[j], data[i]]].  [Math.random()] lies in
    [0, 1), so [j] is one of [0 .. i] and both reads hit an element. *)
Definition swap {A} (data : list A) (i j : nat) : list A :=
  match data !! i, data !! j with
  | Some x, Some y => <[j := x]> (<[i := y]> data)
  | _, _ => data
  end.

(** The Fisher-Yates loop [for (let i = data.length - 1; i > 0; i--)], with
    [random] the successive results of [Math.random()]; [n] is [i + 1]. *)
Fixpoint shuffleLoop {A} (n : nat) (random : list float) (data : list A)
  : list A :=
  match n with
  | 0 | 1 => data
  | S (S i' as i) =>
      let rnd := hd 0%float random in
      let j := match floor (rnd * ofNat (i + 1)) with
               | Fin z => Z.to_nat z
               | _ => 0
               end in
      shuffleLoop i (tl random) (swap data i j)
  end.

Record SplitResult (A : Type) := mkSplitResult {
  train : list A;
  val : list A;
  test : list A;
  trainSamples : nat;
  valSamples : nat;
  testSamples : nat;
  splitWarnings : list warning;
}.
Arguments train {A} _.
Arguments val {A} _.
Arguments test {A} _.
Arguments trainSamples {A} _.
Arguments valSamples {A} _.
Arguments testSamples {A} _.
Arguments splitWarnings {A} _.

Definition trainRatio_of (params : option SplitParams) : float :=
  orDefault (params ≫= train_ratio) 0.7.
Definition valRatio_of (params : option SplitParams) : float :=
  orDefault (params ≫= val_ratio) 0.15.
Definition testRatio_of (params : option SplitParams) : float :=
  orDefault (params ≫= test_ratio) 0.15.

(** [params?.shuffle !== false] *)
Definition shuffle_of (params : option SplitParams) : bool :=
  match params ≫= shuffle with
  | Some false => false
  | _ => true
  end.

(** [Math.floor(totalSamples * ratio)] *)
Definition sizeOf (totalSamples : nat) (ratio : float) : integerOrInfinity :=
  floor (ofNat totalSamples * ratio).

(** [splitDataset(pairs, params)], with [random] the results of the calls to
    [Math.random()]. *)
Definition splitDataset {A} (random : list float) (pairs : list A)
    (params : option SplitParams) : SplitResult A :=
  let trainRatio := trainRatio_of params in
  let valRatio := valRatio_of params in
  let testRatio := testRatio_of params in
  let shuffle := shuffle_of params in
  let warnings :=
    if PrimFloat.ltb 0.001 (abs (trainRatio + valRatio + testRatio - 1.0))
    then [MsgRatioSum (trainRatio + valRatio + testRatio)] else [] in
  let data := if shuffle then shuffleLoop (length pairs) random pairs
              else pairs in
  let warnings :=
    if shuffle then warnings ++ [Msg "Shuffled dataset before splitting"]
    else warnings in
  let totalSamples := length data in
  let trainSize := sizeOf totalSamples trainRatio in
  let valSize := sizeOf totalSamples valRatio in
  let train := slice data (Fin 0) trainSize in
  let val := slice data trainSize (plus trainSize valSize) in
  let test := sliceFrom data (plus trainSize valSize) in
  {| train := train; val := val; test := test;
     trainSamples := length train;
     valSamples := length val;
     testSamples := length test;
     splitWarnings :=
       warnings ++ [MsgSplit (length train) (length val) (length test)] |}.

Record ValidationReport := mkValidationReport {
  totalPairs : nat;
  validPairs : nat;
  invalidPairs : nat;
  validPercentage : float;
}.

(** [v === null] *)
Definition isNull (v : value) : bool :=
  match v with VNull => true | _ => false end.

(** The flag set by
    [inputKeys.forEach(key => { if (input[key] === null &&
      groundTruth[key] !== null) hasMaskedValues = true })] *)
Definition hasMaskedValues (input groundTruth : row) : bool :=
  foldl (λ found key,
           if isNull (get input key) && negb (isNull (get groundTruth key))
           then true else found)
        false (keys input).

(** The state threaded through [pairs.forEach((pair, idx) => ...)]. *)
Record Tally := mkTally {
  valid : nat;
  invalid : nat;
  messages : list warning;
}.

Definition validateOne (t : Tally) (idx : nat) (p : TrainingPair) : Tally :=
  if negb (Nat.eqb (length (keys (input p)))
                   (length (keys (groundTruth p)))) then
    {| valid := valid t; invalid := S (invalid t);
       messages := messages t ++ [MsgKeyCount idx] |}
  else if hasMaskedValues (input p) (groundTruth p) then
    {| valid := S (valid t); invalid := invalid t; messages := messages t |}
  else
    {| valid := valid t; invalid := S (invalid t);
       messages := messages t ++ [MsgNoMasked idx] |}.

Fixpoint validateFrom (t : Tally) (idx : nat) (pairs : list TrainingPair)
  : Tally :=
  match pairs with
  | [] => t
  | p :: rest => validateFrom (validateOne t idx p) (S idx) rest
  end.

(** [validatePairs(pairs)] *)
Definition validatePairs (pairs : list TrainingPair)
  : ValidationReport * list warning :=
  let t := validateFrom (mkTally 0 0 []) 0 pairs in
  ({| totalPairs := length pairs;
      validPairs := valid t;
      invalidPairs := invalid t;
      validPercentage :=
        toFixedNumber 2 (ofNat (valid t) / ofNat (length pairs) * 100) |},
   messages t ++ [MsgValidated (length pairs) (valid t) (invalid t)]).

End TrainingData.

(** ** The quality-control tool (OceanQualityControlTool) *)

Module QualityControl.
Import OceanData Number.

Record QCParams := mkQCParams {
  temp_range : option (float * float);
  salinity_range : option (float * float);
  pressure_range : option (float * float);
  oxygen_range : option (float * float);
  check_spikes : option bool;
  spike_threshold : option float;
}.

Inductive warning :=
  | Msg (text : string)
  (** [`Found ${n} ${what} outliers outside range ${range}`] *)
  | MsgOutliers (what : string) (n : nat) (range : float * float)
  (** [`Detected ${n} spike anomalies`] *)
  | MsgSpikes (n : nat)
  (** [`Removed ${n} outlier rows`] *)
  | MsgRemoved (n : nat).

Record Report := mkReport {
  temperatureOutliers : nat;
  salinityOutliers : nat;
  pressureOutliers : nat;
  oxygenOutliers : option nat;
  spikesDetected : option nat;
  outlierPercentage : float;
}.

Record QCResult := mkQCResult {
  data : OceanData;
  report : Report;
  warnings : list warning;
}.

(** Truthiness of a value, for [a || b]. *)
Definition truthy (v : value) : bool :=
  match v with
  | VNull | VUndefined => false
  | VNumber x => negb (PrimFloat.eqb x 0 || is_nan x)
  | VString s => negb (bool_decide (s = ""))
  end.

(** [a || b] *)
Definition orElse (a b : value) : value := if truthy a then a else b.

(** [v !== undefined && typeof v === 'number' && (v < range[0] || v > range[1])] *)
Definition outOfRange (v : value) (range : float * float) : bool :=
  match v with
  | VNumber x => PrimFloat.ltb x (fst range) || PrimFloat.ltb (snd range) x
  | _ => false
  end.

(** A row of [markedData]: the row and its [_qc_outlier] flag. *)
Record Marked := mkMarked {
  fields : row;
  _qc_outlier : bool;
}.

(** Counters updated by the marking pass. *)
Record Counts := mkCounts {
  tempOutliers : nat;
  salOutliers : nat;
  presOutliers : nat;
  oxyOutliers : nat;
}.

Definition bump (b : bool) (n : nat) : nat := if b then S n else n.

(** The callback of [data.map((row, idx) => ...)] that marks range
    outliers. *)
Definition markRow (tempRange salinityRange pressureRange : float * float)
    (oxygenRange : option (float * float)) (c : Counts) (r : row)
  : Counts * Marked :=
  let temp := orElse (orElse (get r "temperature") (get r "Temperature"))
                     (get r "temp") in
  let t := outOfRange temp tempRange in
  let salinity := orElse (get r "salinity") (get r "Salinity") in
  let s := outOfRange salinity salinityRange in
  let pressure := orElse (get r "pressure") (get r "Pressure") in
  let p := outOfRange pressure pressureRange in
  let o := match oxygenRange with
           | Some range =>
               outOfRange (orElse (get r "oxygen") (get r "Oxygen")) range
           | None => false
           end in
  ({| tempOutliers := bump t (tempOutliers c);
      salOutliers := bump s (salOutliers c);
      presOutliers := bump p (presOutliers c);
      oxyOutliers := bump o (oxyOutliers c) |},
   {| fields := r; _qc_outlier := t || s || p || o |}).

Fixpoint markAll (tempRange salinityRange pressureRange : float * float)
    (oxygenRange : option (float * float)) (c : Counts) (rows : OceanData)
  : Counts * list Marked :=
  match rows with
  | [] => (c, [])
  | r :: rest =>
      let '(c1, m) :=
        markRow tempRange salinityRange pressureRange oxygenRange c r in
      let '(c2, ms) :=
        markAll tempRange salinityRange pressureRange oxygenRange c1 rest in
      (c2, m :: ms)
  end.

(** [const tempKey = 'temperature' || 'Temperature' || 'temp']: the first
    operand is a non-empty string, so the key is always ['temperature']. *)
Definition tempKey : string := "temperature".

(** The test made on three consecutive readings. *)
Definition isSpike (spikeThreshold : float) (prev curr next : value) : bool :=
  match prev, curr, next with
  | VNumber prev, VNumber curr, VNumber next =>
      let avgNeighbor := ((prev + next) / 2)%float in
      let diff := abs (curr - avgNeighbor) in
      let stdWindow :=
        sqrt (((prev - avgNeighbor) * (prev - avgNeighbor)
               + (next - avgNeighbor) * (next - avgNeighbor)) / 2)%float in
      PrimFloat.ltb 0 stdWindow
      && PrimFloat.ltb (spikeThreshold * stdWindow) diff
  | _, _, _ => false
  end.

Definition setOutlier (m : Marked) : Marked :=
  {| fields := fields m; _qc_outlier := true |}.

(** One iteration of [for (let i = 1; i < markedData.length - 1; i++)]. *)
Definition spikeStep (spikeThreshold : float)
    (st : list Marked * nat) (i : nat) : list Marked * nat :=
  let '(markedData, spikesDetected) := st in
  match markedData !! (i - 1), markedData !! i, markedData !! (i + 1) with
  | Some p, Some c, Some n =>
      if isSpike spikeThreshold (get (fields p) tempKey)
           (get (fields c) tempKey) (get (fields n) tempKey)
      then (<[i := setOutlier c]> markedData, S spikesDetected)
      else st
  | _, _, _ => st
  end.

Definition spikeLoop (spikeThreshold : float) (markedData : list Marked)
  : list Marked * nat :=
  foldl (spikeStep spikeThreshold) (markedData, 0)
        (seq 1 (length markedData - 2)).

(** [const { _qc_outlier, ...cleanRow } = row] *)
Definition cleanRow (m : Marked) : row := delete "_qc_outlier" (fields m).

(** [performQualityControl(data, params, removeOutliers)] *)
Definition performQualityControl (data : OceanData) (params : QCParams)
    (removeOutliers : bool) : QCResult :=
  let tempRange := default ((-2)%float, 40%float) (temp_range params) in
  let salinityRange := default (0%float, 42%float) (salinity_range params) in
  let pressureRange :=
    default (0%float, 12000%float) (pressure_range params) in
  let oxygenRange := oxygen_range params in
  let checkSpikes :=
    match check_spikes params with Some false => false | _ => true end in
  let spikeThreshold := orDefault (spike_threshold params) 3 in
  let '(c, markedData) :=
    markAll tempRange salinityRange pressureRange oxygenRange
      (mkCounts 0 0 0 0) data in
  let '(markedData, spikesDetected) :=
    if checkSpikes then spikeLoop spikeThreshold markedData
    else (markedData, 0) in
  let processedData :=
    if removeOutliers
    then cleanRow <$> filter (λ m, _qc_outlier m = false) markedData
    else cleanRow <$> markedData in
  let totalOutliers :=
    tempOutliers c + salOutliers c + presOutliers c + oxyOutliers c in
  let range_warning what n range :=
    if Nat.ltb 0 n then [MsgOutliers what n range] else [] in
  {| data := processedData;
     report :=
       {| temperatureOutliers := tempOutliers c;
          salinityOutliers := salOutliers c;
          pressureOutliers := presOutliers c;
          oxygenOutliers :=
            if Nat.ltb 0 (oxyOutliers c) then Some (oxyOutliers c) else None;
          spikesDetected :=
            if checkSpikes then Some spikesDetected else None;
          outlierPercentage :=
            (ofNat totalOutliers / ofNat (length data) * 100)%float |};
     warnings :=
       range_warning "temperature" (tempOutliers c) tempRange
       ++ range_warning "salinity" (salOutliers c) salinityRange
       ++ range_warning "pressure" (presOutliers c) pressureRange
       ++ match oxygenRange with
          | Some range => range_warning "oxygen" (oxyOutliers c) range
          | None => []
          end
       ++ (if Nat.ltb 0 spikesDetected then [MsgSpikes spikesDetected] else [])
       ++ (if removeOutliers
           then [MsgRemoved (length data - length processedData)]
           else [Msg "Outliers detected but not removed. Set remove_outliers=true to remove them."]) |}.

End QualityControl.

(** ** Rows as heap objects

    The functions that build masked rows take rows by reference.  Here a
    table is a list of locations into a store of row objects; object creation
    allocates a fresh location and a field assignment updates the object in
    place.  The mask file is plain data that is only read. *)

Module Store.
Import OceanData.

Abbreviation loc := positive.
Abbreviation store := (gmap positive (gmap string value)).

(** The object at a location. *)
Definition deref (σ : store) (l : loc) : row := default ∅ (σ !! l).

(** [σ'] extends [σ]: every object of [σ] is in [σ'] with the same fields. *)
Definition extends (σ σ' : store) : Prop :=
  ∀ l, l ∈ dom σ → σ' !! l = σ !! l.

(** Creating an object with the given fields. *)
Definition alloc (σ : store) (r : row) : loc * store :=
  let l := fresh (dom σ) in (l, <[l := r]> σ).

(** [obj[key] = v] *)
Definition setField (σ : store) (l : loc) (key : string) (v : value) : store :=
  <[l := <[key := v]> (deref σ l)]> σ.

(** [Object.keys(mask).forEach(key => { if (mask[key]) newRow[key] = null })] *)
Definition maskInto (σ : store) (newRow : loc) (mask : gmap string bool)
  : store :=
  foldl (λ σ key, if flag mask key then setField σ newRow key VNull else σ)
        σ (keys mask).

(** The callback of [data.map((row, idx) => ...)] in [applyMasksToData]:
    below the mask count the row is copied with [{ ...row }] and the copy is
    masked; otherwise the row itself is returned. *)
Fixpoint mapRows (cloudMasks : list CloudMask) (idx : nat) (rows : list loc)
    (σ : store) : list loc * store :=
  match rows with
  | [] => ([], σ)
  | l :: rest =>
      match cloudMasks !! idx with
      | Some cm =>
          let '(newRow, σ1) := alloc σ (deref σ l) in
          let σ2 := maskInto σ1 newRow (mask cm) in
          let '(out, σ3) := mapRows cloudMasks (S idx) rest σ2 in
          (newRow :: out, σ3)
      | None =>
          let '(out, σ3) := mapRows cloudMasks (S idx) rest σ in
          (l :: out, σ3)
      end
  end.

Record ApplyResult := mkApplyResult {
  data : list loc;
  masksApplied : nat;
  warnings : list warning;
}.

(** [applyMasksToData(data, masks)] *)
Definition applyMasksToData (σ : store) (data : list loc) (masks : MaskSet)
  : ApplyResult * store :=
  match cloudMasks masks with
  | None | Some [] =>
      ({| data := data; masksApplied := 0;
          warnings := [Msg "No cloud masks found to apply"] |}, σ)
  | Some cms =>
      let '(maskedData, σ') := mapRows cms 0 data σ in
      ({| data := maskedData;
          masksApplied := Nat.min (length cms) (length data);
          warnings := [MsgApplied (Nat.min (length cms) (length data))] |},
       σ')
  end.

Record TrainingPair := mkTrainingPair {
  input : loc;
  groundTruth : loc;
  maskIndex : nat;
  missingRatio : float;
}.

(** [const inputRow = {}; Object.keys(gtRow).forEach(key => { ... })] *)
Definition fillInput (σ : store) (inputRow : loc) (gtRow : row)
    (cloudMask : gmap string bool) (landMask : option (gmap string bool))
  : store :=
  foldl (λ σ key,
           if flag cloudMask key
              || match landMask with Some lm => flag lm key | None => false end
           then setField σ inputRow key VNull
           else setField σ inputRow key (get gtRow key))
        σ (keys gtRow).

Fixpoint pairsFrom (landMask : option (gmap string bool)) (i : nat)
    (groundTruth : list loc) (cloudMasks : list CloudMask) (σ : store)
  : list TrainingPair * store :=
  match groundTruth, cloudMasks with
  | gtRow :: gts, cm :: cms =>
      let '(inputRow, σ1) := alloc σ ∅ in
      let σ2 := fillInput σ1 inputRow (deref σ1 gtRow) (mask cm) landMask in
      let '(out, σ3) := pairsFrom landMask (S i) gts cms σ2 in
      ({| input := inputRow; groundTruth := gtRow; maskIndex := i;
          missingRatio := OceanData.missingRatio cm |} :: out, σ3)
  | _, _ => ([], σ)
  end.

(** [buildTrainingPairs(groundTruth, masks)] *)
Definition buildTrainingPairs (σ : store) (groundTruth : list loc)
    (masks : MaskSet) : list TrainingPair * list TrainingData.warning * store :=
  match cloudMasks masks with
  | None | Some [] =>
      ([], [TrainingData.Msg "No cloud masks available for pair generation"], σ)
  | Some cms =>
      let '(pairs, σ') := pairsFrom (landMask masks) 0 groundTruth cms σ in
      (pairs, [TrainingData.MsgBuilt (length pairs)], σ')
  end.

End Store.

(** ** Vocabulary of the specification *)

Module Spec.
Import OceanData.

(** "Field [f] is missing in every row of the table." *)
Definition missingInEveryRow (data : OceanData) (f : string) : Prop :=
  Forall (λ r, isMissing (get r f) = true) data.

(** The land mask and the cloud masks a call returned, if it returned. *)
Definition landMaskOf (data : OceanData) (params : option MaskParams)
  : option (gmap string bool) :=
  match MaskProcess.generateMasks (PArray data) params with
  | Return r => landMask (MaskProcess.masks r)
  | Throw _ => None
  end.

Definition cloudMasksOf (data : OceanData) (params : option MaskParams)
  : option (list CloudMask) :=
  match MaskProcess.generateMasks (PArray data) params with
  | Return r => cloudMasks (MaskProcess.masks r)
  | Throw _ => None
  end.

Definition landMaskOf' (data : OceanData) (params : option MaskParams)
  : option (gmap string bool) :=
  match DataPreprocess.generateMasks (PArray data) params with
  | Return r => DataPreprocess.landMask r
  | Throw _ => None
  end.

Definition cloudMasksOf' (data : OceanData) (params : option MaskParams)
  : option (list CloudMask) :=
  match DataPreprocess.generateMasks (PArray data) params with
  | Return r => DataPreprocess.cloudMasks r
  | Throw _ => None
  end.

(** The rows whose missing ratio lies in the range, in row order from index
    [i], each with the cloud mask it gives rise to. *)
Fixpoint candidates (ks seaKeys : list string) (range : float * float)
    (i : nat)
    (rows : OceanData) : list CloudMask :=
  match rows with
  | [] => []
  | r :: rest =>
      if inRange range (ratioOf seaKeys r)
      then cloudMaskOf ks seaKeys i r :: candidates ks seaKeys range (S i) rest
      else candidates ks seaKeys range (S i) rest
  end.

(** Two rows with the same missingness on the fields [ks]. *)
Definition sameMissing (ks : list string) (r r' : gmap string value) : Prop :=
  ∀ k, k ∈ ks → isMissing (get r k) = isMissing (get r' k).

(** [r'] is [r] with, at most, another value in field [f]. *)
Definition agreeExcept (f : string) (r r' : gmap string value) : Prop :=
  dom r' = dom r ∧ ∀ k, k ≠ f → r' !! k = r !! k.

(** A value that is not an array, or an empty array. *)
Definition malformedOrEmpty (data : parsed) : Prop :=
  match data with
  | PArray rows => rows = []
  | _ => True
  end.

(** A pair passes [validatePairs]. *)
Definition passes (p : TrainingData.TrainingPair) : bool :=
  Nat.eqb (size (TrainingData.input p)) (size (TrainingData.groundTruth p))
  && TrainingData.hasMaskedValues (TrainingData.input p)
       (TrainingData.groundTruth p).

(** "Some field of [input] is null where the field of [groundTruth] is
    not." *)
Definition encodesMissing (input groundTruth : gmap string value) : Prop :=
  ∃ key, input !! key = Some VNull ∧ get groundTruth key ≠ VNull.

(** The spike test at row [i] of a table, on the readings of rows [i - 1],
    [i] and [i + 1]. *)
Definition spikeAt (spikeThreshold : float) (data : OceanData) (i : nat)
  : bool :=
  QualityControl.isSpike spikeThreshold
    (get (data !!! (i - 1)) QualityControl.tempKey)
    (get (data !!! i) QualityControl.tempKey)
    (get (data !!! (i + 1)) QualityControl.tempKey).

(** The interior rows that pass the spike test, in increasing order. *)
Definition spikeIndices (spikeThreshold : float) (data : OceanData)
  : list nat :=
  filter (λ i, spikeAt spikeThreshold data i = true)
         (seq 1 (length data - 2)).

(** A table with one field, ['temperature'], holding the given readings. *)
Definition temperatures (readings : list float) : OceanData :=
  (λ x, {[ "temperature" := VNumber x ]}) <$> readings.

(** "The float lies between 0 and 1", read off its sign, mantissa and
    exponent: a zero, or [m * 2^e] with [m <= 2^-e]. *)
Definition inUnit (x : spec_float) : Prop :=
  match x with
  | S754_zero _ => True
  | S754_finite false m e => (e <= 0 ∧ Z.pos m <= 2 ^ (- e))%Z
  | _ => False
  end.

End Spec.

(** ** Strings: the built-ins the CSV reader and writer call

    A string is the UTF-8 encoding of the text it holds, one [ascii] per
    byte.  A comma, a line feed, a digit or any other ASCII character is one
    byte, which occurs in the encoding of no other character, so [split],
    [join] and the reading of digits go byte by byte.  The white space that
    [trim] and [parseFloat] skip is JavaScript's WhiteSpace and
    LineTerminator: tab, line feed, vertical tab, form feed, carriage return
    and space, of one byte each; the no-break space U+00A0, of two bytes;
    and U+1680, U+2000 to U+200A, U+2028, U+2029, U+202F, U+205F, U+3000 and
    the byte-order mark U+FEFF, of three bytes each.  A byte outside any
    encoding, such as a lone [A0], is no character of the text (a decoder
    replaces it by U+FFFD) and is not white space. *)

Module Text.
Import Number.

(** The number a decimal literal denotes: [mantissa * 10^scale], negated
    if [negative]; a zero mantissa gives a signed zero. *)
Definition toNumber (negative : bool) (mantissa : N) (scale : Z) : float :=
  if (mantissa =? 0)%N then (if negative then (-0)%float else 0%float)
  else
    let z := if negative then (- Z.of_N mantissa)%Z else Z.of_N mantissa in
    if (0 <=? scale)%Z then nearest (z * 10 ^ scale) 1
    else nearest z (Z.to_pos (10 ^ (- scale))).

(** The integer nearest to [m * 2^e * 10^digits], ties upwards: the digits
    [toFixed] prints for the magnitude [m * 2^e]. *)
Definition roundScaled (m : positive) (e : Z) (digits : nat) : N :=
  let scaled := (Z.pos m * 10 ^ Z.of_nat digits)%Z in
  Z.to_N (if (0 <=? e)%Z then scaled * 2 ^ e
          else (2 * scaled + 2 ^ (- e)) / 2 ^ (- e + 1))%Z.


Definition LF : ascii := ascii_of_nat 10.

(** The white space of one byte. *)
Definition isWhiteSpace (c : ascii) : bool :=
  let n := nat_of_ascii c in
  Nat.eqb n 32 || (Nat.leb 9 n && Nat.leb n 13).

(** The white space of two bytes: U+00A0, encoded [C2 A0]. *)
Definition isWhiteSpace2 (c1 c2 : ascii) : bool :=
  (N_of_ascii c1 =? 194)%N && (N_of_ascii c2 =? 160)%N.

(** The white space of three bytes: U+1680 [E1 9A 80]; U+2000 to U+200A
    [E2 80 80] to [E2 80 8A]; U+2028, U+2029 and U+202F [E2 80 A8],
    [E2 80 A9] and [E2 80 AF]; U+205F [E2 81 9F]; U+3000 [E3 80 80];
    U+FEFF [EF BB BF]. *)
Definition isWhiteSpace3 (c1 c2 c3 : ascii) : bool :=
  let b1 := N_of_ascii c1 in
  let b2 := N_of_ascii c2 in
  let b3 := N_of_ascii c3 in
  ((b1 =? 225) && (b2 =? 154) && (b3 =? 128)
   || (b1 =? 226) && (b2 =? 128)
      && ((128 <=? b3) && (b3 <=? 138)
          || (b3 =? 168) || (b3 =? 169) || (b3 =? 175))
   || (b1 =? 226) && (b2 =? 129) && (b3 =? 159)
   || (b1 =? 227) && (b2 =? 128) && (b3 =? 128)
   || (b1 =? 239) && (b2 =? 187) && (b3 =? 191))%N.

(** [s.trimStart()] *)
Fixpoint trimStart (s : string) : string :=
  match s with
  | String c1 rest1 =>
      if isWhiteSpace c1 then trimStart rest1
      else
        match rest1 with
        | String c2 rest2 =>
            if isWhiteSpace2 c1 c2 then trimStart rest2
            else
              match rest2 with
              | String c3 rest3 =>
                  if isWhiteSpace3 c1 c2 c3 then trimStart rest3 else s
              | EmptyString => s
              end
        | EmptyString => s
        end
  | EmptyString => EmptyString
  end.

(** [s.trimEnd()]: the string is cut where what follows is white space
    only. *)
Fixpoint trimEnd (s : string) : string :=
  match s with
  | String c rest =>
      match trimStart s with
      | EmptyString => EmptyString
      | _ => String c (trimEnd rest)
      end
  | EmptyString => EmptyString
  end.

(** [s.trim()] *)
Definition trim (s : string) : string := trimEnd (trimStart s).

(** [s.split(sep)] for a one-character separator. *)
Fixpoint split (sep : ascii) (s : string) : list string :=
  match s with
  | String c rest =>
      if Ascii.eqb c sep then EmptyString :: split sep rest
      else match split sep rest with
           | first :: others => String c first :: others
           | [] => [String c EmptyString]
           end
  | EmptyString => [EmptyString]
  end.

(** [parts.join(sep)] for an array of strings. *)
Definition join (sep : ascii) (parts : list string) : string :=
  String.concat (String sep EmptyString) parts.

(** The decimal digit [d]. *)
Definition digitChar (d : N) : ascii := ascii_of_N (48 + d).

Definition digitOf (c : ascii) : option N :=
  let n := N_of_ascii c in
  if (48 <=? n)%N && (n <=? 57)%N then Some (n - 48)%N else None.

(** The last [width] decimal digits of [n]. *)
Fixpoint fixedDigits (width : nat) (n : N) : string :=
  match width with
  | 0 => EmptyString
  | S w => fixedDigits w (n / 10) +:+ String (digitChar (n mod 10)) EmptyString
  end.

(** The number of decimal digits of [n], at least one. *)
Fixpoint countDigits (fuel : nat) (n : N) : nat :=
  match fuel with
  | 0 => 1
  | S f => if (n <? 10)%N then 1 else S (countDigits f (n / 10))
  end.

(** Decimal digits of [n] without leading zeros. *)
Definition showN (n : N) : string :=
  fixedDigits (countDigits (N.to_nat (N.log2 n)) n) n.

(** Fixed-point notation of [mantissa / 10^digits] with its sign. *)
Definition fixedPoint (negative : bool) (mantissa : N) (digits : nat)
  : string :=
  (if negative then "-" else "")
  +:+ showN (mantissa / 10 ^ N.of_nat digits)
  +:+ (if Nat.eqb digits 0 then ""
       else String "." (fixedDigits digits (mantissa mod 10 ^ N.of_nat digits))).

(** [x.toFixed(digits)].  [toStringLarge] is [Number::toString] on floats of
    magnitude [1e21] and more, which print in exponent notation. *)
Definition toFixed (toStringLarge : float → string) (digits : nat) (x : float)
  : string :=
  match Prim2SF x with
  | S754_nan => "NaN"
  | S754_infinity s => if s then "-Infinity" else "Infinity"
  | S754_zero _ => fixedPoint false 0 digits
  | S754_finite s m e =>
      if PrimFloat.leb 1e21 (abs x) then toStringLarge x
      else fixedPoint s (roundScaled m e digits) digits
  end.

(** A run of decimal digits, accumulated onto [acc], with their number. *)
Fixpoint digits (acc : N) (count : nat) (s : string) : N * nat * string :=
  match s with
  | String c rest =>
      match digitOf c with
      | Some d => digits (10 * acc + d) (S count) rest
      | None => (acc, count, s)
      end
  | EmptyString => (acc, count, s)
  end.

Definition signOf (s : string) : bool * string :=
  match s with
  | String "-" rest => (true, rest)
  | String "+" rest => (false, rest)
  | _ => (false, s)
  end.

(** An exponent part [e±digits], if there is a complete one. *)
Definition exponentOf (s : string) : Z :=
  match s with
  | String c rest =>
      if Ascii.eqb c "e" || Ascii.eqb c "E" then
        let '(negative, rest) := signOf rest in
        let '(magnitude, count, _) := digits 0 0 rest in
        if Nat.eqb count 0 then 0%Z
        else if negative then (- Z.of_N magnitude)%Z else Z.of_N magnitude
      else 0%Z
  | EmptyString => 0%Z
  end.

(** [parseFloat(s)]: the longest prefix of the trimmed string that is a
    decimal literal; [None] stands for [NaN], the result when there is no
    such prefix. *)
Definition parseFloat (s : string) : option float :=
  let '(negative, s) := signOf (trimStart s) in
  if String.prefix "Infinity" s
  then Some (if negative then neg_infinity else infinity)
  else
    let '(whole, k1, s) := digits 0 0 s in
    let '(mantissa, k2, s) :=
      match s with
      | String "." rest => digits whole 0 rest
      | _ => (whole, 0, s)
      end in
    if Nat.eqb (k1 + k2) 0 then None
    else Some (toNumber negative mantissa (exponentOf s - Z.of_nat k2)).

End Text.

(** ** Reading and writing data files (OceanDataPreprocessTool) *)

Module DataFiles.
Import OceanData Number Text.

(** What [JSON.stringify] is applied to: the table, or the note wrapped
    around it for a binary format. *)
Inductive document :=
  | DocData (data : parsed)
  | DocBinaryNote (format : string) (data : parsed).

(** The built-ins of the runtime that are left abstract. *)
Record Runtime := mkRuntime {
  JSON_stringify : document → string;
  JSON_parse : string → outcome parsed;
  toStringLarge : float → string;
}.

Definition MAX_DATA_ROWS : nat := N.to_nat 100000.

(** [const numValue = parseFloat(value);
     row[header] = isNaN(numValue) ? value : numValue], where [value] is
    [undefined] past the end of a short line. *)
Definition parseCell (text : option string) : value :=
  match text with
  | None => VUndefined
  | Some text =>
      match parseFloat text with
      | Some numValue => VNumber numValue
      | None => VString text
      end
  end.

(** [headers.forEach((header, idx) => { ... })] from index [idx] on. *)
Fixpoint fillRow (idx : nat) (headers values : list string) (r : row) : row :=
  match headers with
  | [] => r
  | header :: rest =>
      fillRow (S idx) rest values (<[header := parseCell (values !! idx)]> r)
  end.

(** [parseCSV(content)] *)
Definition parseCSV (content : string) : OceanData :=
  let lines := split LF (trim content) in
  let headers := trim <$> split "," (hd EmptyString lines) in
  (λ line, fillRow 0 headers (trim <$> split "," line) ∅)
    <$> take MAX_DATA_ROWS (drop 1 lines).

(** What [parseDataFile] returns: the parsed document or, for a NetCDF or
    HDF5 path, the placeholder object
    [{ _format: ext, _variableName: variableName, _note, _pythonExample,
       _instructions }], which is not an array. *)
Inductive fileData :=
  | Document (data : parsed)
  | Placeholder (_format : string) (_variableName : option string).

(** [parseDataFile(content, ext, variableName)] *)
Definition parseDataFile (rt : Runtime) (content : string) (ext : string)
    (variableName : option string) : outcome fileData :=
  if bool_decide (ext = ".csv") || bool_decide (ext = ".txt")
  then Return (Document (PArray (parseCSV content)))
  else if bool_decide (ext = ".json")
  then match JSON_parse rt content with
       | Return data => Return (Document data)
       | Throw error => Throw error
       end
  else if bool_decide (ext = ".nc") || bool_decide (ext = ".h5")
          || bool_decide (ext = ".hdf5")
  then Return (Placeholder ext variableName)
  else Throw ("Parsing for " +:+ ext +:+ " not yet implemented. Use CSV, JSON format, or process NetCDF/HDF5 with Python first.").

(** The text of one cell of a CSV line. *)
Definition cellText (rt : Runtime) (val : value) : string :=
  match val with
  | VNull | VUndefined => ""
  | VNumber x => if is_nan x then "" else toFixed (toStringLarge rt) 4 x
  | VString s => s
  end.

(** [serializeData(data, format)] *)
Definition serializeData (rt : Runtime) (data : parsed) (format : string)
  : string :=
  if bool_decide (format = "json") then JSON_stringify rt (DocData data)
  else if bool_decide (format = "hdf5") || bool_decide (format = "netcdf")
  then JSON_stringify rt (DocBinaryNote format data)
  else
    match data with
    | PArray ((firstRow :: _) as rows) =>
        let headers := keys firstRow in
        join LF
          (join "," headers
           :: ((λ r, join "," ((λ h, cellText rt (get r h)) <$> headers))
                 <$> rows))
    | _ => ""
    end.

(** [inferOutputFormat(ext)] *)
Definition inferOutputFormat (ext : string) : string :=
  if bool_decide (ext = ".json") then "json"
  else if bool_decide (ext = ".nc") then "netcdf"
  else if bool_decide (ext = ".h5") || bool_decide (ext = ".hdf5") then "hdf5"
  else "csv".

End DataFiles.

(** ** Tables that a CSV file holds as they are *)

Module SimpleTables.
Import OceanData.

(** The character [c] occurs in [s]. *)
Fixpoint contains (c : ascii) (s : string) : bool :=
  match s with
  | String c' rest => Ascii.eqb c' c || contains c rest
  | EmptyString => false
  end.

(** An ASCII character that is not white space. *)
Definition plain (c : ascii) : bool :=
  (N_of_ascii c <? 128)%N && negb (Text.isWhiteSpace c).

(** The last character of a string. *)
Fixpoint lastChar (s : string) : option ascii :=
  match s with
  | String c EmptyString => Some c
  | String _ rest => lastChar rest
  | EmptyString => None
  end.

(** The string starts and ends with a plain character. *)
Definition plainEnds (s : string) : bool :=
  match s, lastChar s with
  | String c1 _, Some c2 => plain c1 && plain c2
  | _, _ => false
  end.

(** A field name or string value that a CSV cell holds as it is: it starts
    and ends with an ASCII character that is not white space, and it holds
    no comma and no line feed. *)
Definition simpleText (s : string) : Prop :=
  plainEnds s = true
  ∧ contains "," s = false ∧ contains Text.LF s = false.

(** A number [toFixed] prints in fixed-point notation or as an infinity:
    not [NaN], and of magnitude below [1e21] when finite. *)
Definition printable (x : float) : Prop :=
  match Prim2SF x with
  | S754_nan => False
  | S754_finite _ _ _ => PrimFloat.leb 1e21 (abs x) = false
  | _ => True
  end.

(** The values of the round-trip claim: printable numbers, and simple strings
    that [parseFloat] does not read as a number. *)
Definition simpleValue (v : value) : Prop :=
  match v with
  | VNumber x => printable x
  | VString s => simpleText s ∧ Text.parseFloat s = None
  | _ => False
  end.

(** A table of such values with one non-empty set of simple field names and
    no more rows than the reader accepts. *)
Definition simpleTable (data : OceanData) : Prop :=
(length data ≤ DataFiles.MAX_DATA_ROWS)%nat
  ∧ match data with
    | [] => True
    | firstRow :: _ =>
        dom firstRow ≠ ∅
        ∧ (∀ key, key ∈ dom firstRow → simpleText key)
        ∧ ∀ r, r ∈ data →
               dom r = dom firstRow
               ∧ ∀ key v, r !! key = Some v → simpleValue v
    end.

(** A value after a trip through a CSV file: numbers keep four decimals. *)
Definition roundValue (v : value) : value :=
  match v with
  | VNumber x => VNumber (Number.toFixedNumber 4 x)
  | _ => v
  end.

(** A cell the CSV writer can hold: a missing value, written as an empty
    cell, or a simple value. *)
Definition writable (v : value) : Prop :=
  isMissing v = true ∨ simpleValue v.

(** A cell after a trip through a CSV file: a missing value comes back as
    the empty string. *)
Definition readValue (v : value) : value :=
  if isMissing v then VString "" else roundValue v.

(** A row after the trip: the fields of the header line, each read from the
    row. *)
Definition readRow (headers : list string) (r : row) : row :=
  forEach_assign headers (λ h, readValue (get r h)).

(** A table of writable cells under the simple field names of its first
    row, with no more rows than the reader accepts; when there is a single
    field, the cell of the last row is not missing (the last line of the
    text would be empty). *)
Definition writableTable (data : OceanData) : Prop :=
  (length data ≤ DataFiles.MAX_DATA_ROWS)%nat
  ∧ match data with
    | [] => True
    | firstRow :: _ =>
        dom firstRow ≠ ∅
        ∧ (∀ key, key ∈ dom firstRow → simpleText key)
        ∧ (∀ r key, r ∈ data → key ∈ dom firstRow → writable (get r key))
        ∧ (size firstRow = 1%nat →
           ∀ r key, last data = Some r → key ∈ dom firstRow →
                    isMissing (get r key) = false)
    end.

End SimpleTables.

(** ** The helpers of the preprocess tool (OceanDataPreprocessTool)

    Comparisons [a < b] and [a > b] between a cell and a number compare
    numbers: a cell that is not a number is converted first ([null] to [0],
    [undefined] to [NaN], a string by [StringToNumber], which is left
    abstract), and a comparison with [NaN] is false. *)

Module Preprocess.
Import OceanData Number Text DataFiles QualityControl.

Inductive warning :=
  | Msg (text : string)
  (** [`Removed ${n} rows with excessive missing values`] *)
  | MsgRemovedRows (n : nat)
  (** [`Removed ${n} duplicate rows`] *)
  | MsgDuplicates (n : nat)
  (** [`Filtered by depth: ${n} rows removed`] *)
  | MsgDepth (n : nat)
  (** [`Filtered by coordinates: ${n} rows removed`] *)
  | MsgCoordinates (n : nat)
  (** [`Interpolated ${n} missing values`] *)
  | MsgInterpolated (n : nat)
  (** [`Found ${n} ${what} outliers outside range ${range}`] *)
  | MsgOutliers (what : string) (n : nat) (range : float * float)
  (** [`Spatial subset: removed ${n} rows outside specified range`] *)
  | MsgSubset (n : nat)
  (** [`  Latitude: [${lo}, ${hi}]`] and [`  Longitude: [${lo}, ${hi}]`] *)
  | MsgRange (what : string) (range : float * float).

(** [v === null || v === undefined || v === ''] *)
Definition isBlank (v : value) : bool :=
  match v with
  | VNull | VUndefined => true
  | VString s => bool_decide (s = "")
  | VNumber _ => false
  end.

(** [typeof v === 'number'] *)
Definition isNumber (v : value) : bool :=
  match v with VNumber _ => true | _ => false end.

(** *** [cleanData] *)

(** The callback of [data.filter]: a row is dropped when
    [missingCount / keys.length > 0.5]. *)
Definition keepRow (r : row) : bool :=
  let ks := keys r in
  let missingCount := length (filter (λ key, isBlank (get r key) = true) ks) in
  negb (PrimFloat.ltb 0.5 (ofNat missingCount / ofNat (length ks))).

(** [map.set(key, v)] on the entries of a [Map] in insertion order: a key
    that is present keeps its place and takes the new value. *)
Fixpoint mapSet {V} (entries : list (string * V)) (key : string) (v : V)
  : list (string * V) :=
  match entries with
  | [] => [(key, v)]
  | (k, w) :: rest =>
      if bool_decide (k = key) then (k, v) :: rest
      else (k, w) :: mapSet rest key v
  end.

(** [new Map(entries)] *)
Definition newMap {V} (entries : list (string * V)) : list (string * V) :=
  foldl (λ m kv, mapSet m (fst kv) (snd kv)) [] entries.

(** [cleanData(data)], with [stringify] standing for [JSON.stringify] on a
    row. *)
Definition cleanData (stringify : row → string) (data : OceanData)
  : OceanData * list warning :=
  let cleaned := filter (λ r, keepRow r = true) data in
  let removedRows := length (filter (λ r, keepRow r = false) data) in
  let unique := (newMap ((λ r, (stringify r, r)) <$> cleaned)).*2 in
  let duplicates := length cleaned - length unique in
  (unique,
   (if Nat.ltb 0 removedRows then [MsgRemovedRows removedRows] else [])
   ++ (if Nat.ltb 0 duplicates then [MsgDuplicates duplicates] else [])).

(** *** [filterData] and [extractSpatialSubset] *)

Section comparisons.
Variable stringToNumber : string → float.

(** [ToNumber(v)] *)
Definition toNumeric (v : value) : float :=
  match v with
  | VNull => 0%float
  | VUndefined => nan
  | VNumber x => x
  | VString s => stringToNumber s
  end.

(** [v !== undefined && (v < range[0] || v > range[1])] *)
Definition outside (v : value) (range : float * float) : bool :=
  match v with
  | VUndefined => false
  | _ => PrimFloat.ltb (toNumeric v) (fst range)
         || PrimFloat.ltb (snd range) (toNumeric v)
  end.

(** [filter_params], as [filterData] reads it. *)
Record FilterParams := mkFilterParams {
  min_depth : option float;
  max_depth : option float;
  latitude_range : option (float * float);
  longitude_range : option (float * float);
}.

(** The callback of the depth filter. *)
Definition depthOk (params : FilterParams) (r : row) : bool :=
  let depth := orElse (get r "depth") (get r "Depth") in
  match depth with
  | VUndefined => true
  | _ =>
      if match min_depth params with
         | Some m => PrimFloat.ltb (toNumeric depth) m
         | None => false
         end
      then false
      else if match max_depth params with
              | Some m => PrimFloat.ltb m (toNumeric depth)
              | None => false
              end
      then false
      else true
  end.

(** The callback of the coordinate filter, which that of
    [extractSpatialSubset] repeats. *)
Definition coordinatesOk (latRange lonRange : option (float * float))
    (r : row) : bool :=
  let lat := orElse (orElse (get r "latitude") (get r "Latitude"))
                    (get r "lat") in
  let lon := orElse (orElse (get r "longitude") (get r "Longitude"))
                    (get r "lon") in
  if match latRange with Some range => outside lat range | None => false end
  then false
  else if match lonRange with
          | Some range => outside lon range
          | None => false
          end
  then false
  else true.

(** [filterData(data, params)] *)
Definition filterData (data : OceanData) (params : FilterParams)
  : OceanData * list warning :=
  let '(filtered, warnings) :=
    if bool_decide (is_Some (min_depth params))
       || bool_decide (is_Some (max_depth params))
    then
      let kept := filter (λ r, depthOk params r = true) data in
      (kept, [MsgDepth (length data - length kept)])
    else (data, []) in
  if bool_decide (is_Some (latitude_range params))
     || bool_decide (is_Some (longitude_range params))
  then
    let kept :=
      filter (λ r, coordinatesOk (latitude_range params)
                     (longitude_range params) r = true) filtered in
    (kept, warnings ++ [MsgCoordinates (length filtered - length kept)])
  else (filtered, warnings).

(** [spatial_params], as [extractSpatialSubset] reads it. *)
Record SpatialParams := mkSpatialParams {
  spatial_latitude_range : option (float * float);
  spatial_longitude_range : option (float * float);
}.

(** [extractSpatialSubset(data, params)] *)
Definition extractSpatialSubset (data : parsed) (params : SpatialParams)
  : parsed * list warning :=
  match data with
  | PArray ((_ :: _) as rows) =>
      let latRange := spatial_latitude_range params in
      let lonRange := spatial_longitude_range params in
      match latRange, lonRange with
      | None, None => (data, [Msg "No spatial range specified"])
      | _, _ =>
          let filtered :=
            filter (λ r, coordinatesOk latRange lonRange r = true) rows in
          (PArray filtered,
           [MsgSubset (length rows - length filtered)]
           ++ match latRange with
              | Some range => [MsgRange "Latitude" range]
              | None => []
              end
           ++ match lonRange with
              | Some range => [MsgRange "Longitude" range]
              | None => []
              end)
      end
  | _ => (data, [Msg "Data format not suitable for spatial subsetting"])
  end.

(** *** [performQualityCheck] *)

Record QualityParams := mkQualityParams {
  temp_range : option (float * float);
  salinity_range : option (float * float);
  pressure_range : option (float * float);
}.

Record QualityReport := mkQualityReport {
  warnings : list warning;
  temperatureOutliers : nat;
  salinityOutliers : nat;
  pressureOutliers : nat;
  totalRows : nat;
}.

(** [performQualityCheck(data, params)] *)
Definition performQualityCheck (data : OceanData)
    (params : option QualityParams) : QualityReport :=
  let tempRange := default ((-2)%float, 40%float) (params ≫= temp_range) in
  let salinityRange :=
    default (0%float, 42%float) (params ≫= salinity_range) in
  let pressureRange :=
    default (0%float, 12000%float) (params ≫= pressure_range) in
  let '(tempOutliers, salinityOutliers, pressureOutliers) :=
    foldl (λ '(t, s, p) r,
             let temp := orElse (orElse (get r "temperature")
                                        (get r "Temperature"))
                                (get r "temp") in
             let salinity := orElse (get r "salinity") (get r "Salinity") in
             let pressure := orElse (get r "pressure") (get r "Pressure") in
             (bump (outside temp tempRange) t,
              bump (outside salinity salinityRange) s,
              bump (outside pressure pressureRange) p))
          (0, 0, 0) data in
  let outliers what n range :=
    if Nat.ltb 0 n then [MsgOutliers what n range] else [] in
  {| warnings :=
       outliers "temperature" tempOutliers tempRange
       ++ outliers "salinity" salinityOutliers salinityRange
       ++ outliers "pressure" pressureOutliers pressureRange;
     temperatureOutliers := tempOutliers;
     salinityOutliers := salinityOutliers;
     pressureOutliers := pressureOutliers;
     totalRows := length data |}.

End comparisons.

(** *** [findNumericColumns] and [interpolateMissingValues] *)

(** [findNumericColumns(data)]: the keys of the first row under which more
    than 80% of the rows hold a number. *)
Definition findNumericColumns (data : OceanData) : list string :=
  match data with
  | [] => []
  | firstRow :: _ =>
      filter
        (λ key,
           let numericCount :=
             length (filter (λ r, isNumber (get r key) = true) data) in
           PrimFloat.ltb 0.8 (ofNat numericCount / ofNat (length data)) = true)
        (keys firstRow)
  end.

(** The first number under [col] in a run of rows: what each of the two
    search loops finds, one over the rows before [idx] from the nearest on,
    the other over the rows after it. *)
Fixpoint firstNumber (col : string) (rows : OceanData) : option float :=
  match rows with
  | [] => None
  | r :: rest =>
      match get r col with
      | VNumber x => Some x
      | _ => firstNumber col rest
      end
  end.

Definition prevValue (data : OceanData) (col : string) (idx : nat)
  : option float :=
  firstNumber col (reverse (take idx data)).

Definition nextValue (data : OceanData) (col : string) (idx : nat)
  : option float :=
  firstNumber col (drop (S idx) data).

(** The value written into a blank cell, if any. *)
Definition interpolated (prevValue nextValue : option float) : option float :=
  match prevValue, nextValue with
  | Some p, Some n => Some ((p + n) / 2)%float
  | Some p, None => Some p
  | None, Some n => Some n
  | None, None => None
  end.

(** [numericColumns.forEach(col => { ... })] on the row at [idx]: the new
    row and the running count. *)
Definition interpolateRow (data : OceanData) (numericColumns : list string)
    (idx : nat) (r : row) (count : nat) : row * nat :=
  foldl (λ '(newRow, count) col,
           if isBlank (get r col) then
             match interpolated (prevValue data col idx)
                     (nextValue data col idx) with
             | Some v => (<[col := VNumber v]> newRow, S count)
             | None => (newRow, count)
             end
           else (newRow, count))
        (r, count) numericColumns.

(** [data.map((row, idx) => ...)] from row [idx] on. *)
Fixpoint interpolateFrom (data : OceanData) (numericColumns : list string)
    (idx : nat) (rows : OceanData) (count : nat) : OceanData * nat :=
  match rows with
  | [] => ([], count)
  | r :: rest =>
      let '(newRow, count) := interpolateRow data numericColumns idx r count in
      let '(others, count) :=
        interpolateFrom data numericColumns (S idx) rest count in
      (newRow :: others, count)
  end.

(** [interpolateMissingValues(data)] *)
Definition interpolateMissingValues (data : OceanData)
  : OceanData * list warning :=
  let numericColumns := findNumericColumns data in
  let '(interpolated, interpolatedCount) :=
    interpolateFrom data numericColumns 0 data 0 in
  (interpolated,
   if Nat.ltb 0 interpolatedCount then [MsgInterpolated interpolatedCount]
   else []).

(** *** [fillMissingData] *)

(** [fill_params] *)
Record FillParams := mkFillParams {
  method : option string;
  max_gap : option float;
}.

(** [params?.method || 'linear'] *)
Definition method_of (params : option FillParams) : string :=
  match params ≫= method with
  | Some m => if bool_decide (m = "") then "linear" else m
  | None => "linear"
  end.

(** [typeof v === 'number' && !isNaN(v)], with the number. *)
Definition validNumber (v : value) : option float :=
  match v with
  | VNumber x => if is_nan x then None else Some x
  | _ => None
  end.

(** The first valid number under [col] in a run of rows and the number of
    rows passed before it, counted from [passed]. *)
Fixpoint firstValid (col : string) (rows : OceanData) (passed : nat)
  : option (float * nat) :=
  match rows with
  | [] => None
  | r :: rest =>
      match validNumber (get r col) with
      | Some x => Some (x, passed)
      | None => firstValid col rest (S passed)
      end
  end.

(** The first [switch] branch: [prevIdx] is [idx - 1 - before] and
    [nextIdx] is [idx + 1 + after], so that [idx - prevIdx] is [before + 1],
    [nextIdx - idx] is [after + 1] and the gap size
    [nextIdx - prevIdx - 1] is [before + after + 1]. *)
Definition fillBetween (nearest : bool) (maxGap : option float)
    (data : OceanData) (col : string) (idx : nat) : option float :=
  let prev := firstValid col (reverse (take idx data)) 0 in
  let next := firstValid col (drop (S idx) data) 0 in
  let tooWide :=
    match maxGap, prev, next with
    | Some gap, Some (_, before), Some (_, after) =>
        truthy (VNumber gap)
        && PrimFloat.ltb gap (ofNat (before + after + 1))
    | _, _, _ => false
    end in
  if tooWide then None
  else
    match prev, next with
    | Some (prevValue, before), Some (nextValue, after) =>
        if nearest
        then Some (if Nat.ltb (before + 1) (after + 1) then prevValue
                   else nextValue)
        else Some ((prevValue + nextValue) / 2)%float
    | Some (prevValue, _), None => Some prevValue
    | None, Some (nextValue, _) => Some nextValue
    | None, None => None
    end.

(** The value of [fillValue] after the [switch]; [None] stands for
    [null]. *)
Definition fillValue (method : string) (maxGap : option float)
    (data : OceanData) (col : string) (idx : nat) : option float :=
  if bool_decide (method = "linear") || bool_decide (method = "nearest")
     || bool_decide (method = "cubic")
  then fillBetween (bool_decide (method = "nearest")) maxGap data col idx
  else if bool_decide (method = "forward_fill")
  then fst <$> firstValid col (reverse (take idx data)) 0
  else if bool_decide (method = "backward_fill")
  then fst <$> firstValid col (drop (S idx) data) 0
  else if bool_decide (method = "mean")
  then
    let values := omap (λ r, validNumber (get r col)) data in
    match values with
    | [] => None
    | _ => Some (foldl (λ a b, a + b) 0 values / ofNat (length values))%float
    end
  else None.

(** [numericColumns.forEach(col => { ... })] on the row at [idx]. *)
Definition fillRowAt (method : string) (maxGap : option float)
    (data : OceanData) (numericColumns : list string) (idx : nat) (r : row)
    (count : nat) : row * nat :=
  foldl (λ '(newRow, count) col,
           if isMissing (get r col) then
             match fillValue method maxGap data col idx with
             | Some v => (<[col := VNumber v]> newRow, S count)
             | None => (newRow, count)
             end
           else (newRow, count))
        (r, count) numericColumns.

(** [data.map((row, idx) => ...)] from row [idx] on. *)
Fixpoint fillFrom (method : string) (maxGap : option float)
    (data : OceanData) (numericColumns : list string) (idx : nat)
    (rows : OceanData) (count : nat) : OceanData * nat :=
  match rows with
  | [] => ([], count)
  | r :: rest =>
      let '(newRow, count) :=
        fillRowAt method maxGap data numericColumns idx r count in
      let '(others, count) :=
        fillFrom method maxGap data numericColumns (S idx) rest count in
      (newRow :: others, count)
  end.

Inductive fillWarning :=
  | FillMsg (text : string)
  (** [`Filled ${fillCount} missing values using ${method} method`] *)
  | MsgFilled (fillCount : nat) (method : string)
  (** [`  Maximum gap size: ${maxGap}`] *)
  | MsgMaxGap (maxGap : float).

(** [fillMissingData(data, params)] *)
Definition fillMissingData (data : parsed) (params : option FillParams)
  : parsed * list fillWarning :=
  let method := method_of params in
  let maxGap := params ≫= max_gap in
  match data with
  | PArray ((_ :: _) as rows) =>
      let numericColumns := findNumericColumns rows in
      let '(filled, fillCount) :=
        fillFrom method maxGap rows numericColumns 0 rows 0 in
      (PArray filled,
       [MsgFilled fillCount method]
       ++ match maxGap with
          | Some gap => if truthy (VNumber gap) then [MsgMaxGap gap] else []
          | None => []
          end)
  | _ => (data, [FillMsg "Data format not suitable for filling"])
  end.

(** *** [generatePreview] *)

(** [typeof val === 'number' ? val.toFixed(4) : String(val)] *)
Definition previewText (rt : Runtime) (val : value) : string :=
  match val with
  | VNumber x => toFixed (toStringLarge rt) 4 x
  | VString s => s
  | VNull => "null"
  | VUndefined => "undefined"
  end.

(** [generatePreview(data, maxRows)] for an integer [maxRows]; the callers
    leave it at its default, [10]. *)
Definition generatePreview (rt : Runtime) (data : OceanData) (maxRows : Z)
  : string :=
  match data with
  | [] => "No data"
  | firstRow :: _ =>
      let headers := keys firstRow in
      join LF
        (join "," headers
         :: ((λ r, join "," ((λ h, previewText rt (get r h)) <$> headers))
               <$> slice data (Fin 0) (Fin maxRows)))
  end.

End Preprocess.

(** ** Analysing a mask file (OceanMaskProcessTool, continued) *)

Module MaskAnalysis.
Import OceanData.

Inductive warning :=
  (** [`Analyzed ${n} cloud masks`] *)
  | MsgAnalyzed (n : nat)
  (** [`Average missing ratio: ${averageMissingRatio.toFixed(4)}`], with
      the number that is printed. *)
  | MsgAverage (averageMissingRatio : float).

Record Report := mkReport {
  landMaskGenerated : bool;
  landPixelCount : nat;
  cloudMasksGenerated : nat;
  averageMissingRatio : float;
}.

(** [analyzeMasks(masks)] *)
Definition analyzeMasks (masks : MaskSet) : Report * list warning :=
  let landPixelCount :=
    match landMask masks with
    | Some lm => landPixelCountOf lm
    | None => 0%nat
    end in
  let averageMissingRatio :=
    match cloudMasks masks with
    | Some ((_ :: _) as cms) =>
        let totalRatio :=
          foldl (λ sum cm, sum + missingRatio cm)%float 0%float cms in
        (totalRatio / Number.ofNat (length cms))%float
    | _ => 0%float
    end in
  let count :=
    match cloudMasks masks with
    | Some cms => length cms
    | None => 0%nat
    end in
  ({| landMaskGenerated := bool_decide (is_Some (landMask masks));
      landPixelCount := landPixelCount;
      cloudMasksGenerated := count;
      averageMissingRatio := Number.toFixedNumber 4 averageMissingRatio |},
   [MsgAnalyzed count; MsgAverage averageMissingRatio]).

End MaskAnalysis.

(** ** Counting the outliers of the quality-control tool *)

Module OutlierCount.
Import OceanData QualityControl.

(** The number of rows marked as outliers. *)
Definition marked (md : list Marked) : nat :=
  length (filter (λ m, _qc_outlier m = true) md).

(** [tempOutliers + salinityOutliers + pressureOutliers + oxygenOutliers] *)
Definition total (c : Counts) : nat :=
  tempOutliers c + salOutliers c + presOutliers c + oxyOutliers c.

(** A reading that the range check of a parameter counts when the row
    stores the parameter under its lower-case name only: a number other
    than zero that lies outside the range. *)
Definition counted (range : float * float) (v : value) : bool :=
  match v with
  | VNumber x =>
      negb (PrimFloat.eqb x 0)
      && (PrimFloat.ltb x (fst range) || PrimFloat.ltb (snd range) x)
  | _ => false
  end.

(** The readings of a row that the range checks look at. *)
Definition temperatureOf (r : row) : value :=
  orElse (orElse (get r "temperature") (get r "Temperature")) (get r "temp").
Definition salinityOf (r : row) : value :=
  orElse (get r "salinity") (get r "Salinity").
Definition pressureOf (r : row) : value :=
  orElse (get r "pressure") (get r "Pressure").

(** A cell that holds a number or nothing. *)
Definition numberOrAbsent (v : value) : Prop :=
  match v with
  | VNumber _ | VUndefined => True
  | _ => False
  end.

(** The parameters of [performQualityCheck] that hold the three ranges of
    the parameters of [performQualityControl]. *)
Definition rangesOf (params : QCParams) : Preprocess.QualityParams :=
  {| Preprocess.temp_range := temp_range params;
     Preprocess.salinity_range := salinity_range params;
     Preprocess.pressure_range := pressure_range params |}.

End OutlierCount.

(** ** The rows the filters of the preprocess tool keep *)

Module Kept.
Import OceanData Preprocess.

(** A row passes [filterData]: the depth test, when a depth bound is given,
    and the coordinate test, when a range is given. *)
Definition passes (stringToNumber : string → float) (params : FilterParams)
    (r : row) : bool :=
  (match min_depth params, max_depth params with
   | None, None => true
   | _, _ => depthOk stringToNumber params r
   end)
  && (match latitude_range params, longitude_range params with
      | None, None => true
      | lat, lon => coordinatesOk stringToNumber lat lon r
      end).

(** The filter parameters that hold the ranges of [spatial_params]. *)
Definition rangesOnly (params : SpatialParams) : FilterParams :=
  {| min_depth := None; max_depth := None;
     latitude_range := spatial_latitude_range params;
     longitude_range := spatial_longitude_range params |}.

End Kept.

(** * Properties *)

Local Open Scope nat_scope.

Module OceanDataFacts.
Import OceanData.

Lemma elem_of_keys {A} (r : gmap string A) (k : string) :
  k ∈ keys r ↔ is_Some (r !! k).
Proof.
  unfold keys. rewrite list_elem_of_fmap. split.
  - intros [[k' v] [-> Hin]]. apply elem_of_map_to_list in Hin. eauto.
  - intros [v Hv]. exists (k, v). split; [done|]. by apply elem_of_map_to_list.
Qed.

Lemma elem_of_keys_dom {A} (r : gmap string A) (k : string) :
  k ∈ keys r ↔ k ∈ dom r.
Proof. rewrite elem_of_keys. by rewrite elem_of_dom. Qed.

Lemma NoDup_keys {A} (r : gmap string A) : NoDup (keys r).
Proof. apply NoDup_fst_map_to_list. Qed.

Lemma length_keys {A} (r : gmap string A) : length (keys r) = size r.
Proof. unfold keys. rewrite length_fmap. by rewrite length_map_to_list. Qed.

Lemma foldl_assign_lookup {A} (ks : list string) (f : string → A)
    (m : gmap string A) (k : string) :
  foldl (λ obj key, <[key := f key]> obj) m ks !! k
  = if decide (k ∈ ks) then Some (f k) else m !! k.
Proof.
  revert m. induction ks as [|a ks IH]; intros m; cbn [foldl].
  - case_decide as H; [by apply elem_of_nil in H|done].
  - rewrite IH.
    destruct (decide (k ∈ ks)) as [Hin|Hnin],
             (decide (k ∈ a :: ks)) as [Hin'|Hnin']; try done.
    + exfalso. apply Hnin'. by right.
    + apply elem_of_cons in Hin' as [->|?]; [|done].
      by rewrite lookup_insert_eq.
    + rewrite lookup_insert_ne; [done|]. intros ->. apply Hnin'. by left.
Qed.

Lemma forEach_assign_lookup {A} (ks : list string) (f : string → A) k :
  forEach_assign ks f !! k = if decide (k ∈ ks) then Some (f k) else None.
Proof. unfold forEach_assign. by rewrite foldl_assign_lookup, lookup_empty. Qed.

Lemma landMaskPass_lookup data ks f :
  landMaskPass data ks !! f
  = if decide (f ∈ ks)
    then Some (forallb (λ r, isMissing (get r f)) data) else None.
Proof. unfold landMaskPass. by rewrite forEach_assign_lookup. Qed.

Lemma forallb_missing data f :
  forallb (λ r, isMissing (get r f)) data = true ↔ Spec.missingInEveryRow data f.
Proof.
  unfold Spec.missingInEveryRow. rewrite forallb_forall, Forall_forall.
  split; intros H r Hr; apply H; by apply list_elem_of_In.
Qed.

Lemma elem_of_seaKeysOf data ks f :
  f ∈ seaKeysOf (landMaskPass data ks) ks
  ↔ f ∈ ks ∧ ¬ Spec.missingInEveryRow data f.
Proof.
  unfold seaKeysOf. rewrite list_elem_of_filter. unfold flag.
  rewrite landMaskPass_lookup. split.
  - intros [Hf Hin]. split; [done|]. rewrite decide_True in Hf by done.
    simpl in Hf. rewrite <- forallb_missing. by rewrite Hf.
  - intros [Hin Hn]. split; [|done]. rewrite decide_True by done. simpl.
    rewrite <- forallb_missing in Hn. by destruct (forallb _ _).
Qed.


Lemma landMaskPass_true data ks f :
  f ∈ ks →
  landMaskPass data ks !! f = Some true ↔ Spec.missingInEveryRow data f.
Proof.
  intros Hf. rewrite landMaskPass_lookup, decide_True by done.
  rewrite <- forallb_missing. split; [by intros [= ->]|by intros ->].
Qed.

Lemma landMaskOf_cons firstRow rest params :
  Spec.landMaskOf (firstRow :: rest) params
  = Some (landMaskPass (firstRow :: rest) (keys firstRow)).
Proof.
  unfold Spec.landMaskOf, MaskProcess.generateMasks, MaskProcess.generateFrom.
  by destruct (Nat.eqb _ _).
Qed.

Lemma landMaskOf'_cons firstRow rest params :
  Spec.landMaskOf' (firstRow :: rest) params
  = Some (landMaskPass (firstRow :: rest) (keys firstRow)).
Proof.
  unfold Spec.landMaskOf', DataPreprocess.generateMasks.
  by destruct (Nat.eqb _ _).
Qed.

Lemma get_insert_eq (r : row) f v : get (<[f := v]> r) f = v.
Proof. unfold get. by rewrite lookup_insert_eq. Qed.

(** Writing a present value into one row of an all-missing column makes the
    column's land flag false. *)
Lemma landMask_flip (data : OceanData) ks f i r v :
  f ∈ ks → data !! i = Some r → isMissing v = false →
  landMaskPass (<[i := <[f := v]> r]> data) ks !! f = Some false.
Proof.
  intros Hf Hi Hv. rewrite landMaskPass_lookup, decide_True by done.
  f_equal. apply not_true_is_false. rewrite forallb_missing.
  unfold Spec.missingInEveryRow. rewrite Forall_lookup. intros H.
  specialize (H i (<[f := v]> r)). rewrite get_insert_eq, Hv in H.
  enough (false = true) by done. apply H.
  apply list_lookup_insert_eq. by eapply lookup_lt_Some.
Qed.

End OceanDataFacts.

Module MaskGeneration.
Import OceanData OceanDataFacts.

(** C1 (as amended).  On a non-empty table both copies of [generateMasks]
    return the same land mask; its entries are the fields of the first row,
    the entry of such a field is [true] exactly when the field is missing
    (null, undefined, empty string or NaN) in every row, a field that does not
    occur in the first row has no entry, and writing one non-missing value
    into an all-missing field of the first row turns its entry to [false]. *)
Theorem landMask_all_missing (firstRow : row) (rest : OceanData)
    (params : option MaskParams) :
  let data := firstRow :: rest in
  ∃ lm : gmap string bool,
    Spec.landMaskOf data params = Some lm
    ∧ Spec.landMaskOf' data params = Some lm
    ∧ (∀ f, f ∈ dom firstRow →
         is_Some (lm !! f)
         ∧ (lm !! f = Some true ↔ Spec.missingInEveryRow data f))
    ∧ (∀ f, f ∉ dom firstRow → lm !! f = None)
    ∧ (∀ f i r v,
         lm !! f = Some true → data !! i = Some r → isMissing v = false →
         let data' := <[i := <[f := v]> r]> data in
         Spec.landMaskOf data' params ≫= (.!! f) = Some false
         ∧ Spec.landMaskOf' data' params ≫= (.!! f) = Some false).
Proof.
  intros data. exists (landMaskPass data (keys firstRow)).
  split; [apply landMaskOf_cons|]. split; [apply landMaskOf'_cons|].
  split; [|split].
  - intros f Hf. apply elem_of_keys_dom in Hf.
    split; [|by apply landMaskPass_true].
    rewrite landMaskPass_lookup, decide_True by done. eauto.
  - intros f Hf. rewrite landMaskPass_lookup, decide_False; [done|].
    by rewrite elem_of_keys_dom.
  - intros f i r v Hlm Hi Hv data'.
    assert (f ∈ keys firstRow) as Hf.
    { rewrite landMaskPass_lookup in Hlm. by case_decide. }
    assert (∃ firstRow' rest', data' = firstRow' :: rest'
                               ∧ f ∈ keys firstRow') as (fr & rs & Hd & Hf').
    { subst data' data. destruct i as [|i]; simpl in *.
      - injection Hi as <-. eexists _, _. split; [done|].
        apply elem_of_keys. rewrite lookup_insert_eq. eauto.
      - by eexists _, _. }
    rewrite Hd, landMaskOf_cons, landMaskOf'_cons. simpl. rewrite <- Hd.
    split; by apply landMask_flip.
Qed.

(** C1, as stated, fails: in the table [{a: 1}, {a: 2, b: null}] the field
    [b] is missing in every row (undefined in the first, null in the second),
    yet the land mask has no entry for it. *)
Lemma landMask_all_missing_counterexample :
  let data : OceanData :=
    [ {[ "a" := VNumber 1 ]};
      {[ "a" := VNumber 2; "b" := VNull ]} ] in
  Spec.missingInEveryRow data "b"
  ∧ Spec.landMaskOf data None ≫= (.!! "b") ≠ Some true
  ∧ Spec.landMaskOf' data None ≫= (.!! "b") ≠ Some true.
Proof.
  intros data. split; [|split].
  - repeat constructor.
  - vm_compute. discriminate.
  - vm_compute. discriminate.
Qed.

End MaskGeneration.

Module CloudPassFacts.
Import OceanData.

Lemma cloudMaskPass_candidates ks sea range mc i rows emitted :
  cloudMaskPass ks sea range mc i rows emitted
  = emitted ++ take (Z.to_nat mc - length emitted)
                    (Spec.candidates ks sea range i rows).
Proof.
  revert i emitted. induction rows as [|r rest IH]; intros i emitted; simpl.
  - by rewrite take_nil, app_nil_r.
  - destruct (Z.ltb_spec (Z.of_nat (length emitted)) mc) as [Hlt|Hge].
    + destruct (inRange range (ratioOf sea r)); [|apply IH].
      rewrite IH, length_app. simpl.
      replace (Z.to_nat mc - length emitted)
        with (S (Z.to_nat mc - (length emitted + 1))) by lia.
      simpl. by rewrite <- app_assoc.
    + replace (Z.to_nat mc - length emitted) with 0 by lia.
      by rewrite take_0, app_nil_r.
Qed.

Lemma cloudMaskPass_start ks sea range mc rows :
  cloudMaskPass ks sea range mc 0 rows []
  = take (Z.to_nat mc) (Spec.candidates ks sea range 0 rows).
Proof.
  rewrite cloudMaskPass_candidates, app_nil_l. f_equal.
  change (length (@nil CloudMask)) with 0. lia.
Qed.

Lemma elem_of_candidates ks sea range i rows cm :
  cm ∈ Spec.candidates ks sea range i rows →
  ∃ j r, rows !! j = Some r ∧ cm = cloudMaskOf ks sea (i + j) r
         ∧ inRange range (ratioOf sea r) = true.
Proof.
  revert i. induction rows as [|r rest IH]; intros i; simpl.
  - by intros ?%elem_of_nil.
  - destruct (inRange range (ratioOf sea r)) eqn:Hr.
    + intros [->|Hin]%elem_of_cons.
      * exists 0, r. by rewrite Nat.add_0_r.
      * destruct (IH _ Hin) as (j & r' & ? & -> & ?).
        exists (S j), r'. split; [done|]. split; [f_equal; lia|done].
    + intros Hin. destruct (IH _ Hin) as (j & r' & ? & -> & ?).
      exists (S j), r'. split; [done|]. split; [f_equal; lia|done].
Qed.

(** The candidates come in increasing row order. *)
Lemma candidates_index_lt ks sea range (i : nat) rows :
  Forall (λ cm, (i ≤ index cm)%nat) (Spec.candidates ks sea range i rows).
Proof.
  revert i. induction rows as [|r rest IH]; intros i; simpl; [constructor|].
  assert (Forall (λ cm, (i ≤ index cm)%nat)
            (Spec.candidates ks sea range (S i) rest)) as Hrest.
  { eapply Forall_impl; [apply IH|]. simpl. lia. }
  destruct (inRange _ _); [constructor; [simpl; lia|done]|done].
Qed.

Lemma candidates_sorted ks sea range (i : nat) rows :
  StronglySorted (λ a b, (index a < index b)%nat)
    (Spec.candidates ks sea range i rows).
Proof.
  revert i. induction rows as [|r rest IH]; intros i; simpl; [constructor|].
  destruct (inRange _ _); [|apply IH].
  constructor; [apply IH|].
  eapply Forall_impl; [apply (candidates_index_lt _ _ _ (S i))|].
  simpl. lia.
Qed.

End CloudPassFacts.

Module RatioFacts.
Import OceanData Number.

Lemma missingCount_le sea r : missingCount sea r ≤ length sea.
Proof. unfold missingCount. apply length_filter. Qed.

Lemma pow10_pos (d : nat) : (0 < 10 ^ Z.of_nat d)%Z.
Proof. apply Z.pow_pos_nonneg; lia. Qed.

Lemma round_half_away_unit_scale (S : Z) y :
  (0 <= y)%Q → (y <= inject_Z S)%Q →
  (0 <= round_half_away y <= S)%Z.
Proof.
  intros H0 H1. unfold round_half_away.
  apply Qle_bool_iff in H0 as Hb. rewrite Hb. split.
  - change 0%Z with (Qfloor 0). apply Qfloor_resp_le. lra.
  - rewrite <- (Qfloor_Z S). 
    assert (Qfloor (y + (1 # 2)) < Qfloor (inject_Z S) + 1)%Z; [|lia].
    rewrite Qfloor_Z. rewrite Zlt_Qlt.
    eapply Qle_lt_trans; [apply Qfloor_le|].
    rewrite inject_Z_plus. change (inject_Z 1) with 1%Q. lra.
Qed.

(** *** Mantissas and right shifts *)

#[local] Open Scope Z_scope.

Lemma digits2_bounds (p : positive) :
  2 ^ (Z.pos (digits2_pos p) - 1) <= Z.pos p < 2 ^ Z.pos (digits2_pos p).
Proof.
  induction p as [p IH|p IH|]; cbn [digits2_pos].
  - rewrite Pos2Z.inj_succ.
    replace (Z.succ (Z.pos (digits2_pos p)) - 1)
      with (Z.succ (Z.pos (digits2_pos p) - 1)) by lia.
    rewrite !Z.pow_succ_r by lia. lia.
  - rewrite Pos2Z.inj_succ.
    replace (Z.succ (Z.pos (digits2_pos p)) - 1)
      with (Z.succ (Z.pos (digits2_pos p) - 1)) by lia.
    rewrite !Z.pow_succ_r by lia. lia.
  - by vm_compute.
Qed.

Lemma shr_1_m (mrs : shr_record) :
  0 <= shr_m mrs → shr_m (shr_1 mrs) = shr_m mrs / 2.
Proof.
  destruct mrs as [m r s]. cbn [shr_m]. intros Hm.
  destruct m as [|p|p]; [done| |lia].
  destruct p as [p|p|]; cbn [shr_1 shr_m].
  - rewrite Pos2Z.inj_xI. apply Z.div_unique with 1; lia.
  - rewrite Pos2Z.inj_xO. apply Z.div_unique with 0; lia.
  - done.
Qed.

Lemma pow2_xI (n : positive) :
  2 ^ Z.pos n~1 = 2 * 2 ^ Z.pos n * 2 ^ Z.pos n.
Proof.
  rewrite (Pos2Z.inj_xI n).
  replace (2 * Z.pos n + 1) with (1 + Z.pos n + Z.pos n) by lia.
  by rewrite !Z.pow_add_r, Z.pow_1_r by lia.
Qed.

Lemma pow2_xO (n : positive) : 2 ^ Z.pos n~0 = 2 ^ Z.pos n * 2 ^ Z.pos n.
Proof.
  rewrite (Pos2Z.inj_xO n).
  replace (2 * Z.pos n) with (Z.pos n + Z.pos n) by lia.
  by rewrite Z.pow_add_r by lia.
Qed.

Lemma pow2_pos (k : Z) : 0 <= k → 0 < 2 ^ k.
Proof. intros. apply Z.pow_pos_nonneg; lia. Qed.

Lemma iter_shr_1_m (n : positive) (mrs : shr_record) :
  0 <= shr_m mrs →
  shr_m (SpecFloat.iter_pos shr_1 n mrs) = shr_m mrs / 2 ^ Z.pos n.
Proof.
  revert mrs.
  induction n as [n IH|n IH|]; intros mrs Hm; cbn [SpecFloat.iter_pos].
  - pose proof (pow2_pos (Z.pos n) ltac:(lia)) as Hp.
    assert (0 <= shr_m (shr_1 mrs)) as H1
      by (rewrite shr_1_m by done; apply Z.div_pos; lia).
    assert (0 <= shr_m (SpecFloat.iter_pos shr_1 n (shr_1 mrs))) as H2
      by (rewrite IH by done; apply Z.div_pos; lia).
    rewrite IH, IH, shr_1_m by done.
    rewrite !Z.div_div by lia. rewrite pow2_xI. f_equal. lia.
  - pose proof (pow2_pos (Z.pos n) ltac:(lia)) as Hp.
    assert (0 <= shr_m (SpecFloat.iter_pos shr_1 n mrs)) as H2
      by (rewrite IH by done; apply Z.div_pos; lia).
    rewrite IH, IH by done. rewrite !Z.div_div by lia. by rewrite pow2_xO.
  - by rewrite shr_1_m.
Qed.

Lemma shr_record_of_loc_m (m : Z) (l : location) :
  shr_m (shr_record_of_loc m l) = m.
Proof. by destruct l as [|[]]. Qed.

Lemma pow2_le (a b : Z) : 0 <= b → 2 ^ a <= 2 ^ b → a <= b.
Proof. intros Hb H. by apply (Z.pow_le_mono_r_iff 2). Qed.

Lemma pow2_split (a b : Z) : 0 <= a <= b → 2 ^ b = 2 ^ a * 2 ^ (b - a).
Proof.
  intros H. rewrite <- Z.pow_add_r by lia. f_equal. lia.
Qed.

Lemma Zdigits2_unit (m e : Z) :
  0 <= m → e <= 0 → m <= 2 ^ (- e) → Zdigits2 m + e <= 1.
Proof.
  intros Hm He Hle. destruct m as [|p|p]; [simpl; lia| |lia].
  cbn [Zdigits2]. pose proof (digits2_bounds p) as [Hd _].
  assert (Z.pos (digits2_pos p) - 1 <= - e); [|lia].
  apply pow2_le; lia.
Qed.

(** A right shift to the precision of the format keeps a magnitude below
    one below one. *)
Lemma shr_fexp_unit (m e : Z) (l : location) :
  0 <= m → e <= 0 → m <= 2 ^ (- e) →
  ∃ mrs e2,
    shr_fexp prec emax m e l = (mrs, e2)
    ∧ 0 <= shr_m mrs ∧ e2 <= 0 ∧ shr_m mrs <= 2 ^ (- e2)
    ∧ (m < 2 ^ (- e) → shr_m mrs < 2 ^ (- e2)).
Proof.
  intros Hm He Hle. pose proof (Zdigits2_unit m e Hm He Hle) as Hd.
  unfold shr_fexp, shr.
  destruct (fexp prec emax (Zdigits2 m + e) - e) as [|n|n] eqn:Hn;
    try (eexists _, _; split; [reflexivity|];
         rewrite shr_record_of_loc_m; by repeat split).
  assert (e + Z.pos n <= 0) as He2
    by (revert Hn; unfold fexp, emin, prec, emax; lia).
  eexists _, _. split; [reflexivity|].
  rewrite iter_shr_1_m, shr_record_of_loc_m
    by (by rewrite shr_record_of_loc_m).
  pose proof (pow2_pos (Z.pos n) ltac:(lia)) as Hp.
  pose proof (pow2_split (Z.pos n) (- e) ltac:(lia)) as Hs.
  replace (- e - Z.pos n) with (- (e + Z.pos n)) in Hs by lia.
  split; [apply Z.div_pos; lia|]. split; [done|]. split.
  - apply Z.div_le_upper_bound; [done|]. by rewrite <- Hs.
  - intros Hlt. apply Z.div_lt_upper_bound; [done|]. by rewrite <- Hs.
Qed.

Lemma round_nearest_even_bounds (m : Z) (l : location) :
  m <= round_nearest_even m l <= m + 1.
Proof.
  destruct l as [|[]]; cbn [round_nearest_even]; try lia.
  destruct (Z.even m); lia.
Qed.

(** Rounding a magnitude below one gives a float of the unit interval. *)
Lemma binary_round_aux_unit (mx ex : Z) (lx : location) :
  0 <= mx → ex <= 0 → mx < 2 ^ (- ex) →
  Spec.inUnit (binary_round_aux prec emax false mx ex lx).
Proof.
  intros Hm He Hlt. unfold binary_round_aux.
  destruct (shr_fexp_unit mx ex lx Hm He ltac:(lia))
    as (mrs1 & e1 & -> & Hm1 & He1 & _ & Hlt1).
  specialize (Hlt1 Hlt).
  pose proof (round_nearest_even_bounds (shr_m mrs1)
                (loc_of_shr_record mrs1)) as Hr.
  set (m1 := round_nearest_even _ _) in *.
  destruct (shr_fexp_unit m1 e1 loc_Exact) as
    (mrs2 & e2 & -> & Hm2 & He2 & Hle2 & _); [lia|done|lia|].
  destruct (shr_m mrs2) as [|m|m]; [done| |lia].
  assert ((e2 <=? emax - prec) = true) as ->
    by (apply Z.leb_le; unfold emax, prec; lia).
  by split.
Qed.

(** *** Division of a normal float by a larger one *)

Lemma normal_bounds (m : positive) :
  Z.pos (digits2_pos m) = 53 → 2 ^ 52 <= Z.pos m < 2 ^ 53.
Proof.
  intros Hd. pose proof (digits2_bounds m) as H. rewrite Hd in H.
  by change (53 - 1) with 52 in H.
Qed.

Lemma new_location_exact (nb_steps : Z) : new_location nb_steps 0 = loc_Exact.
Proof. unfold new_location. by destruct (Z.even nb_steps). Qed.

Lemma SFdiv_unit (m1 m2 : positive) (e1 e2 : Z) :
  Z.pos (digits2_pos m1) = 53 → Z.pos (digits2_pos m2) = 53 →
  -1021 <= e1 - e2 →
  e1 < e2 ∨ (e1 = e2 ∧ Z.pos m1 <= Z.pos m2) →
  Spec.inUnit (SFdiv prec emax (S754_finite false m1 e1)
                 (S754_finite false m2 e2)).
Proof.
  intros Hd1 Hd2 Hmin Hle.
  pose proof (normal_bounds m1 Hd1) as Hb1.
  pose proof (normal_bounds m2 Hd2) as Hb2.
  unfold SFdiv, SFdiv_core_binary. cbn [Zdigits2 xorb]. rewrite Hd1, Hd2.
  assert (Z.min (fexp prec emax (53 + e1 - (53 + e2))) (e1 - e2)
          = e1 - e2 - 53) as ->
    by (unfold fexp, emin, prec, emax; lia).
  replace (e1 - e2 - (e1 - e2 - 53)) with 53 by lia.
  rewrite Z.shiftl_mul_pow2 by lia.
  pose proof (Z_div_mod (Z.pos m1 * 2 ^ 53) (Z.pos m2) ltac:(lia)) as Hqr.
  destruct (Z.div_eucl (Z.pos m1 * 2 ^ 53) (Z.pos m2)) as [q r].
  destruct Hqr as [Hq Hr].
  destruct (decide (e1 = e2 ∧ m1 = m2)) as [[-> ->]|Hne].
  - assert (q = 2 ^ 53) as ->.
    { rewrite (Z.div_unique_pos _ _ q r Hr Hq).
      by rewrite Z.mul_comm, Z.div_mul. }
    assert (r = 0) as -> by lia.
    rewrite new_location_exact.
    replace (e2 - e2 - 53) with (-53) by lia. by vm_compute.
  - apply binary_round_aux_unit; [nia|lia|].
    replace (- (e1 - e2 - 53)) with (53 + (e2 - e1)) by lia.
    rewrite Z.pow_add_r by lia.
    destruct Hle as [Hlt|[-> Hm]].
    + pose proof (Z.pow_le_mono_r 2 1 (e2 - e1) ltac:(lia) ltac:(lia)) as Hp.
      rewrite Z.pow_1_r in Hp. nia.
    + rewrite Z.sub_diag, Z.pow_0_r.
      assert (m1 ≠ m2) by (intros ->; by apply Hne). nia.
Qed.

(** *** An array length as a number *)

Lemma iter_xO (p n : positive) :
  Z.pos (Pos.iter xO p n) = Z.pos p * 2 ^ Z.pos n.
Proof.
  induction n as [|n IH] using Pos.peano_ind.
  - cbn [Pos.iter]. lia.
  - rewrite Pos.iter_succ, Pos2Z.inj_xO, IH, Pos2Z.inj_succ.
    rewrite Z.pow_succ_r by lia. lia.
Qed.

Lemma digits2_unique (q : positive) (k : Z) :
  2 ^ (k - 1) <= Z.pos q < 2 ^ k → Z.pos (digits2_pos q) = k.
Proof.
  intros [Hlo Hhi]. pose proof (digits2_bounds q) as [Hlo' Hhi'].
  set (d := Z.pos (digits2_pos q)) in *.
  assert (0 < k).
  { destruct (Z.lt_trichotomy k 0) as [Hk|[->|Hk]]; [|simpl in Hhi; lia|done].
    rewrite Z.pow_neg_r in Hhi by done. lia. }
  destruct (Z.lt_trichotomy d k) as [Hlt|[->|Hgt]]; [|done|].
  - pose proof (Z.pow_le_mono_r 2 d (k - 1) ltac:(lia) ltac:(lia)). lia.
  - pose proof (Z.pow_le_mono_r 2 k (d - 1) ltac:(lia) ltac:(lia)). lia.
Qed.

Lemma shr_fexp_id (m e : Z) (l : location) :
  fexp prec emax (Zdigits2 m + e) - e <= 0 →
  shr_fexp prec emax m e l = (shr_record_of_loc m l, e).
Proof.
  intros H. unfold shr_fexp, shr.
  by destruct (fexp prec emax (Zdigits2 m + e) - e); [| lia |].
Qed.

(** The number of a positive length below [2^53] is that length, held on
    53 bits. *)
Lemma Prim2SF_ofNat (k : nat) :
  (0 < k)%nat → Z.of_nat k < 2 ^ 53 →
  ∃ m e, Prim2SF (ofNat k) = S754_finite false m e
         ∧ Z.pos (digits2_pos m) = 53 ∧ -52 <= e <= 0
         ∧ Z.pos m = Z.of_nat k * 2 ^ (- e).
Proof.
  intros Hk Hlt. unfold ofNat, ofZ.
  destruct (Z.of_nat k) as [|p|p] eqn:Hp; [lia| |lia].
  pose proof (digits2_bounds p) as [Hlo Hhi].
  set (d := Z.pos (digits2_pos p)) in *.
  assert (1 <= d <= 53) as Hd.
  { split; [unfold d; lia|].
    assert (d - 1 < 53); [|lia].
    apply (Z.pow_lt_mono_r_iff 2); lia. }
  assert (∃ m, shl_align p 0 (fexp prec emax (d + 0)) = (m, d - 53)
               ∧ Z.pos m = Z.pos p * 2 ^ (53 - d)) as (m & Hsh & Hm).
  { unfold shl_align.
    assert (fexp prec emax (d + 0) = d - 53) as ->
      by (unfold fexp, emin, prec, emax; lia).
    destruct (d - 53 - 0) as [|n|n] eqn:Hn; [|lia|].
    - exists p. assert (d = 53) as -> by lia. split; [done|]. simpl. lia.
    - eexists. split; [reflexivity|]. rewrite iter_xO. do 2 f_equal. lia. }
  assert (Z.pos (digits2_pos m) = 53) as Hdm.
  { apply digits2_unique. rewrite Hm. change (53 - 1) with 52.
    rewrite (pow2_split (d - 1) 52), (pow2_split d 53) by lia.
    replace (52 - (d - 1)) with (53 - d) by lia.
    pose proof (pow2_pos (53 - d) ltac:(lia)). nia. }
  exists m, (d - 53).
  assert (binary_normalize prec emax (Z.pos p) 0 false
          = S754_finite false m (d - 53)) as Hn.
  { cbn [binary_normalize]. unfold binary_round. fold d. rewrite Hsh.
    unfold binary_round_aux.
    rewrite shr_fexp_id
      by (cbn [Zdigits2]; rewrite Hdm; unfold fexp, emin, prec, emax; lia).
    cbn [shr_record_of_loc shr_m loc_of_shr_record round_nearest_even].
    rewrite shr_fexp_id
      by (cbn [Zdigits2]; rewrite Hdm; unfold fexp, emin, prec, emax; lia).
    cbn [shr_record_of_loc shr_m].
    assert ((d - 53 <=? emax - prec) = true) as ->
      by (apply Z.leb_le; unfold emax, prec; lia).
    done. }
  rewrite Hn. split.
  - apply Prim2SF_SF2Prim. unfold SpecFloat.valid_binary, bounded.
    unfold canonical_mantissa. rewrite Hdm. apply andb_true_iff. split.
    + apply Z.eqb_eq. unfold fexp, emin, prec, emax. lia.
    + apply Z.leb_le. unfold emax, prec. lia.
  - split; [done|]. split; [lia|]. rewrite Hm. do 2 f_equal. lia.
Qed.

Lemma ofNat_le (k n : nat) (mk mn : positive) (ek en : Z) :
  (k <= n)%nat →
  Z.pos (digits2_pos mk) = 53 → Z.pos (digits2_pos mn) = 53 →
  ek <= 0 → en <= 0 →
  Z.pos mk = Z.of_nat k * 2 ^ (- ek) → Z.pos mn = Z.of_nat n * 2 ^ (- en) →
  ek < en ∨ (ek = en ∧ Z.pos mk <= Z.pos mn).
Proof.
  intros Hkn Hdk Hdn Hek Hen Hmk Hmn.
  pose proof (normal_bounds mk Hdk) as Hbk.
  pose proof (normal_bounds mn Hdn) as Hbn.
  destruct (Z.lt_trichotomy ek en) as [?|[->|Hgt]]; [by left| |].
  - right. split; [done|]. rewrite Hmk, Hmn.
    pose proof (pow2_pos (- en) ltac:(lia)).
    apply Z.mul_le_mono_nonneg_r; lia.
  - exfalso. rewrite (pow2_split (- ek) (- en)) in Hmn by lia.
    pose proof (pow2_pos (- ek) ltac:(lia)) as Hpk.
    pose proof (Z.pow_le_mono_r 2 1 (- en - - ek) ltac:(lia) ltac:(lia)) as Hp.
    rewrite Z.pow_1_r in Hp.
    set (P := 2 ^ (- ek)) in *. set (R := 2 ^ (- en - - ek)) in *.
    assert (Z.of_nat k * P <= Z.of_nat n * P)
      by (apply Z.mul_le_mono_nonneg_r; lia).
    assert (Z.of_nat n * P * 2 <= Z.of_nat n * P * R)
      by (apply Z.mul_le_mono_nonneg_l; [|lia]; apply Z.mul_nonneg_nonneg; lia).
    lia.
Qed.

(** *** The unit interval *)

(** A float of the unit interval compares as such. *)
Lemma inUnit_leb (x : float) :
  Spec.inUnit (Prim2SF x) →
  PrimFloat.leb 0 x = true ∧ PrimFloat.leb x 1 = true.
Proof.
  intros Hx. rewrite !leb_spec. pose proof (Prim2SF_valid x) as Hv.
  change (Prim2SF 0) with (S754_zero false).
  change (Prim2SF 1) with (S754_finite false 4503599627370496 (-52)).
  destruct (Prim2SF x) as [s|s| |[] m e]; try done.
  destruct Hx as [He Hm]. split; [done|].
  cbn [SpecFloat.valid_binary] in Hv. unfold bounded in Hv.
  apply andb_true_iff in Hv as [Hc _]. unfold canonical_mantissa in Hc.
  apply Z.eqb_eq in Hc. pose proof (digits2_bounds m) as [Hlo _].
  set (d := Z.pos (digits2_pos m)) in *.
  assert (e <= -52) as He'.
  { destruct (decide (e <= -52)); [done|].
    assert (d = 53) as Hd
      by (revert Hc; unfold fexp, emin, prec, emax; lia).
    rewrite Hd in Hlo. change (53 - 1) with 52 in Hlo.
    pose proof (Z.pow_lt_mono_r 2 (- e) 52 ltac:(lia) ltac:(lia) ltac:(lia)).
    lia. }
  unfold SFleb, SFcompare.
  destruct (Z.compare_spec e (-52)) as [->|?|?]; [|done|lia].
  assert (d = 53) as Hd by (revert Hc; unfold fexp, emin, prec, emax; lia).
  rewrite Hd in Hlo. change (53 - 1) with 52 in Hlo.
  change (2 ^ (- (-52))) with (2 ^ 52) in Hm.
  assert (m = 4503599627370496%positive) as -> by lia. done.
Qed.

Lemma ratio_unit (k n : nat) :
  (k <= n)%nat → (0 < n)%nat → Z.of_nat n < 2 ^ 53 →
  Spec.inUnit (Prim2SF (ofNat k / ofNat n)).
Proof.
  intros Hkn Hn Hlt. rewrite div_spec. unfold SF64div.
  destruct (Prim2SF_ofNat n Hn Hlt) as (mn & en & -> & Hdn & Hen & Hmn).
  destruct k as [|k].
  { change (Prim2SF (ofNat 0)) with (S754_zero false). done. }
  destruct (Prim2SF_ofNat (S k) ltac:(lia) ltac:(lia))
    as (mk & ek & -> & Hdk & Hek & Hmk).
  apply SFdiv_unit; [done|done|lia|].
  apply (ofNat_le (S k) n); (done || lia).
Qed.

(** The decimals of four digits between 0 and 1, read back as numbers. *)
Lemma nearest_unit_table :
  forallb (λ n, let y := nearest (Z.of_nat n) 10000 in
                PrimFloat.leb 0 y && PrimFloat.leb y 1)
          (seq 1 (N.to_nat 10000)) = true.
Proof. by vm_compute. Qed.

Lemma nearest_unit (n : Z) :
  1 <= n <= 10000 →
  PrimFloat.leb 0 (nearest n 10000) = true
  ∧ PrimFloat.leb (nearest n 10000) 1 = true.
Proof.
  intros Hn. pose proof nearest_unit_table as Ht.
  rewrite forallb_forall in Ht. specialize (Ht (Z.to_nat n)).
  cbv zeta in Ht. rewrite Z2Nat.id in Ht by lia. apply andb_true_iff, Ht.
  apply in_seq. lia.
Qed.

(** [Number(x.toFixed(4))] of a float of the unit interval lies between 0
    and 1. *)
Lemma toFixedNumber_unit (x : float) :
  Spec.inUnit (Prim2SF x) →
  PrimFloat.leb 0 (toFixedNumber 4 x) = true
  ∧ PrimFloat.leb (toFixedNumber 4 x) 1 = true.
Proof.
  intros Hx. pose proof (inUnit_leb x Hx) as Hleb.
  unfold toFixedNumber, exactTimes.
  destruct (Prim2SF x) as [s|s| |[] m e] eqn:Hsf; try done.
  - destruct (PrimFloat.leb 1e21 (abs x)); [done|].
    change (round_half_away 0 =? 0) with true. cbv iota.
    by destruct (PrimFloat.ltb x 0).
  - destruct Hx as [He Hm].
    destruct (PrimFloat.leb 1e21 (abs x)); [done|].
    set (scaled := if 0 <=? e then _ else _).
    assert (0 <= scaled ∧ scaled <= inject_Z 10000)%Q as [H0 H1].
    { unfold scaled. change (10 ^ Z.of_nat 4) with 10000.
      destruct (Z.leb_spec 0 e) as [He0|He0].
      - assert (e = 0) as -> by lia. change (2 ^ (- 0)) with 1 in Hm.
        rewrite Z.pow_0_r, Z.mul_1_r.
        split; [change 0%Q with (inject_Z 0)|]; rewrite <- Zle_Qle; lia.
      - pose proof (pow2_pos (- e) ltac:(lia)) as Hp.
        unfold Qle. cbn [Qnum Qden inject_Z]. rewrite Z2Pos.id by done.
        split; nia. }
    destruct (round_half_away_unit_scale 10000 scaled H0 H1) as [Hn0 Hn1].
    change (10 ^ Z.of_nat 4) with 10000 in *.
    destruct (Z.eqb_spec (round_half_away scaled) 0) as [_|Hne].
    + by destruct (PrimFloat.ltb x 0).
    + apply nearest_unit. lia.
Qed.

Lemma ratioOf_unit (sea : list string) (r : row) :
  sea ≠ [] → Z.of_nat (length sea) < 2 ^ 53 →
  Spec.inUnit (Prim2SF (ratioOf sea r)).
Proof.
  intros Hsea Hlt. unfold ratioOf. apply ratio_unit; [|destruct sea; [done|simpl; lia]|done].
  apply missingCount_le.
Qed.

End RatioFacts.

Module LandInvariance.
Import OceanData OceanDataFacts CloudPassFacts RatioFacts.

Lemma filter_length_ext {A} (P Q : A → Prop) `{∀ x, Decision (P x)}
    `{∀ x, Decision (Q x)} (l l' : list A) :
  l ≡ₚ l' → (∀ x, x ∈ l → P x ↔ Q x) →
  length (filter P l) = length (filter Q l').
Proof.
  intros Hp Hext. rewrite <- Hp. clear Hp l'.
  induction l as [|a l IH]; [done|].
  rewrite !filter_cons.
  assert (length (filter P l) = length (filter Q l)) as IH'.
  { apply IH. intros x Hx. apply Hext. by right. }
  destruct (decide (P a)) as [Hpa|Hpa], (decide (Q a)) as [Hqa|Hqa];
    simpl; try lia.
  - exfalso. apply Hqa. apply Hext; [by left|done].
  - exfalso. apply Hpa. apply Hext; [by left|done].
Qed.

Lemma forEach_assign_ext {A} ks ks' (f f' : string → A) :
  ks ≡ₚ ks' → (∀ k, k ∈ ks → f k = f' k) →
  forEach_assign ks f = forEach_assign ks' f'.
Proof.
  intros Hp Hext. apply map_eq. intros k.
  rewrite !forEach_assign_lookup.
  destruct (decide (k ∈ ks)) as [Hin|Hnin], (decide (k ∈ ks')) as [Hin'|Hnin'].
  - f_equal. by apply Hext.
  - exfalso. apply Hnin'. by rewrite <- Hp.
  - exfalso. apply Hnin. by rewrite Hp.
  - done.
Qed.

Lemma forallb_sameMissing ks (data data' : OceanData) k :
  Forall2 (Spec.sameMissing ks) data data' → k ∈ ks →
  forallb (λ r, isMissing (get r k)) data
  = forallb (λ r, isMissing (get r k)) data'.
Proof.
  intros HF Hk. induction HF as [|r r' l l' Hr _ IH]; [done|].
  simpl. by rewrite IH, (Hr k Hk).
Qed.

Lemma landMaskPass_ext ks ks' data data' :
  ks ≡ₚ ks' → Forall2 (Spec.sameMissing ks) data data' →
  landMaskPass data ks = landMaskPass data' ks'.
Proof.
  intros Hp HF. apply forEach_assign_ext; [done|].
  intros k Hk. by apply forallb_sameMissing with ks.
Qed.

Lemma seaKeysOf_perm lm ks ks' :
  ks ≡ₚ ks' → seaKeysOf lm ks ≡ₚ seaKeysOf lm ks'.
Proof. intros Hp. unfold seaKeysOf. by rewrite Hp. Qed.

Lemma seaKeysOf_subseteq lm ks k : k ∈ seaKeysOf lm ks → k ∈ ks.
Proof. unfold seaKeysOf. by intros [_ ?]%list_elem_of_filter. Qed.

Lemma ratioOf_ext sea sea' r r' :
  sea ≡ₚ sea' → Spec.sameMissing sea r r' → ratioOf sea r = ratioOf sea' r'.
Proof.
  intros Hp Hr. unfold ratioOf, missingCount.
  rewrite (filter_length_ext _ (λ key, isMissing (get r' key) = true) sea sea');
    [by rewrite Hp|done|].
  intros k Hk. by rewrite (Hr k Hk).
Qed.

Lemma cloudMaskOf_ext ks ks' sea sea' i r r' :
  ks ≡ₚ ks' → sea ≡ₚ sea' → Spec.sameMissing ks r r' → Spec.sameMissing sea r r' →
  cloudMaskOf ks sea i r = cloudMaskOf ks' sea' i r'.
Proof.
  intros Hk Hs Hr Hr'. unfold cloudMaskOf.
  rewrite (ratioOf_ext sea sea' r r') by done.
  f_equal. apply forEach_assign_ext; [done|]. intros k Hin. by apply Hr.
Qed.

Lemma cloudMaskPass_ext ks ks' sea sea' range mc i rows rows' emitted :
  ks ≡ₚ ks' → sea ≡ₚ sea' →
  Forall2 (Spec.sameMissing ks) rows rows' → Forall2 (Spec.sameMissing sea) rows rows' →
  cloudMaskPass ks sea range mc i rows emitted
  = cloudMaskPass ks' sea' range mc i rows' emitted.
Proof.
  intros Hk Hs HF. revert i emitted.
  induction HF as [|r r' l l' Hr _ IH]; intros i emitted HF'; [done|].
  apply Forall2_cons in HF' as [Hr' HF']. simpl.
  rewrite (ratioOf_ext sea sea' r r'), (cloudMaskOf_ext ks ks' sea sea' i r r')
    by done.
  destruct (_ <? _)%Z; [|done]. destruct (inRange _ _); by apply IH.
Qed.

Lemma keys_perm (r r' : row) : dom r' = dom r → keys r ≡ₚ keys r'.
Proof.
  intros Hd. apply NoDup_Permutation; [apply NoDup_keys..|].
  intros k. by rewrite !elem_of_keys_dom, Hd.
Qed.

Lemma get_agreeExcept f r r' k :
  Spec.agreeExcept f r r' → k ≠ f → get r' k = get r k.
Proof. intros [_ H] Hk. unfold get. by rewrite H. Qed.

(** Rewriting a column that is missing everywhere, before and after, leaves
    the missingness of every field of every row as it was. *)
Lemma sameMissing_mutation f ks (data data' : OceanData) :
  Forall2 (Spec.agreeExcept f) data data' →
  Spec.missingInEveryRow data f → Spec.missingInEveryRow data' f →
  Forall2 (Spec.sameMissing ks) data data'.
Proof.
  intros HF. induction HF as [|r r' l l' Hr _ IH]; intros H H'; [constructor|].
  apply Forall_cons in H as [Hf H]. apply Forall_cons in H' as [Hf' H'].
  constructor; [|by apply IH].
  intros k _. destruct (decide (k = f)) as [->|Hk].
  - by rewrite Hf, Hf'.
  - by rewrite (get_agreeExcept f r r').
Qed.

End LandInvariance.

Module CloudMasks.
Import OceanData OceanDataFacts CloudPassFacts RatioFacts LandInvariance.

Lemma StronglySorted_take {A} (R : A → A → Prop) (l : list A) n :
  StronglySorted R l → StronglySorted R (take n l).
Proof.
  intros Hl. revert n. induction Hl as [|a l Hl IH Ha]; intros n.
  - rewrite take_nil. constructor.
  - destruct n as [|n]; simpl; constructor; [apply IH|].
    apply Forall_take, Ha.
Qed.

Lemma cloudMasksOf_cons firstRow rest params :
  let data := firstRow :: rest in
  let ks := keys firstRow in
  let seaKeys := seaKeysOf (landMaskPass data ks) ks in
  seaKeys ≠ [] →
  Spec.cloudMasksOf data params
  = Some (cloudMaskPass ks seaKeys (missingRatioRange_of params)
            (maskCount_of params) 0 data []).
Proof.
  intros data ks seaKeys Hsea. subst data ks seaKeys.
  unfold Spec.cloudMasksOf, MaskProcess.generateMasks, MaskProcess.generateFrom.
  cbv beta iota zeta.
  destruct (Nat.eqb_spec (length (seaKeysOf
    (landMaskPass (firstRow :: rest) (keys firstRow)) (keys firstRow))) 0)
    as [Hl|_]; [|done].
  by apply length_zero_iff_nil in Hl.
Qed.

Lemma cloudMasksOf'_cons firstRow rest params :
  let data := firstRow :: rest in
  let ks := keys firstRow in
  let seaKeys := seaKeysOf (landMaskPass data ks) ks in
  seaKeys ≠ [] →
  Spec.cloudMasksOf' data params
  = Some (cloudMaskPass ks seaKeys (missingRatioRange_of params)
            (maskCount_of params) 0 data []).
Proof.
  intros data ks seaKeys Hsea. subst data ks seaKeys.
  unfold Spec.cloudMasksOf', DataPreprocess.generateMasks.
  cbv beta iota zeta.
  destruct (Nat.eqb_spec (length (seaKeysOf
    (landMaskPass (firstRow :: rest) (keys firstRow)) (keys firstRow))) 0)
    as [Hl|_]; [|done].
  by apply length_zero_iff_nil in Hl.
Qed.

(** C2 (as amended).  On a non-empty table with at least one non-land field
    (and fewer than [2^53] of them) both copies of [generateMasks] return the
    same cloud masks: the rows whose missing ratio, the binary64 quotient of
    the number of missing non-land fields by the number of non-land fields,
    passes the test [lo <= ratio && ratio <= hi], taken in row order up to
    [maskCount] of them, without deduplication or sampling.  The ratio lies
    between 0 and 1.  The [missingRatio] stored in a mask is
    [Number(ratio.toFixed(4))]; it lies between 0 and 1 too, and it is the
    unrounded ratio that is tested against the range.  Rewriting the values
    of a land field so that it stays missing in every row leaves the emitted
    masks, and so their ratios, unchanged. *)
Theorem cloudMasks_missingRatio (firstRow : row) (rest : OceanData)
    (params : option MaskParams) :
  let data := firstRow :: rest in
  let ks := keys firstRow in
  let seaKeys := seaKeysOf (landMaskPass data ks) ks in
  let range := missingRatioRange_of params in
  seaKeys ≠ [] →
  (Z.of_nat (length seaKeys) < 2 ^ 53)%Z →
  (∀ f, f ∈ seaKeys ↔ f ∈ dom firstRow ∧ ¬ Spec.missingInEveryRow data f)
  ∧ ∃ cms : list CloudMask,
      Spec.cloudMasksOf data params = Some cms
      ∧ Spec.cloudMasksOf' data params = Some cms
      ∧ cms = take (Z.to_nat (maskCount_of params))
                   (Spec.candidates ks seaKeys range 0 data)
      ∧ StronglySorted (λ a b, index a < index b) cms
      ∧ (∀ cm, cm ∈ cms →
           ∃ r ratio,
             data !! index cm = Some r
             ∧ ratio = (Number.ofNat (missingCount seaKeys r)
                        / Number.ofNat (length seaKeys))%float
             ∧ missingCount seaKeys r ≤ length seaKeys
             ∧ missingRatio cm = Number.toFixedNumber 4 ratio
             ∧ PrimFloat.leb (fst range) ratio = true
             ∧ PrimFloat.leb ratio (snd range) = true
             ∧ PrimFloat.leb 0 ratio = true ∧ PrimFloat.leb ratio 1 = true
             ∧ PrimFloat.leb 0 (missingRatio cm) = true
             ∧ PrimFloat.leb (missingRatio cm) 1 = true
             ∧ ∀ f, f ∈ dom firstRow →
                    mask cm !! f = Some (isMissing (get r f)))
      ∧ (∀ f data',
           landMaskPass data ks !! f = Some true →
           Forall2 (Spec.agreeExcept f) data data' →
           Spec.missingInEveryRow data' f →
           Spec.cloudMasksOf data' params = Some cms
           ∧ Spec.cloudMasksOf' data' params = Some cms).
Proof.
  intros data ks seaKeys range Hsea Hsize. split.
  { intros f. unfold seaKeys. rewrite elem_of_seaKeysOf.
    unfold ks. by rewrite elem_of_keys_dom. }
  eexists. split; [by apply cloudMasksOf_cons|].
  split; [by apply cloudMasksOf'_cons|].
  fold data ks. fold seaKeys. fold range.
  rewrite cloudMaskPass_start.
  split; [done|]. split; [|split].
  - apply StronglySorted_take, candidates_sorted.
  - intros cm Hcm. apply elem_of_take in Hcm as (n & Hcm & _).
    apply list_elem_of_lookup_2 in Hcm.
    apply elem_of_candidates in Hcm as (j & r & Hj & -> & Hin).
    exists r, (ratioOf seaKeys r). cbn [index missingRatio mask cloudMaskOf].
    apply andb_true_iff in Hin as [Hlo Hhi].
    pose proof (ratioOf_unit seaKeys r Hsea Hsize) as Hunit.
    destruct (inUnit_leb _ Hunit) as [H0 H1].
    destruct (toFixedNumber_unit _ Hunit) as [H0' H1'].
    repeat (split; [done || apply missingCount_le|]).
    intros f Hf. rewrite forEach_assign_lookup, decide_True; [done|].
    by apply elem_of_keys_dom.
  - intros f data' Hland HF Hmiss'.
    assert (f ∈ ks) as Hf.
    { rewrite landMaskPass_lookup in Hland. by case_decide. }
    assert (Spec.missingInEveryRow data f) as Hmiss.
    { by apply (landMaskPass_true data ks f Hf). }
    destruct data' as [|firstRow' rest']; [by apply Forall2_cons_nil_inv in HF|].
    apply Forall2_cons in HF as HF'. destruct HF' as [[Hdom _] _].
    set (ks' := keys firstRow').
    assert (ks ≡ₚ ks') as Hks by (by apply keys_perm).
    assert (∀ l, Forall2 (Spec.sameMissing l) data (firstRow' :: rest')) as Hsame.
    { intros l. by apply (sameMissing_mutation f). }
    assert (landMaskPass (firstRow' :: rest') ks' = landMaskPass data ks) as Hlm.
    { symmetry. by apply landMaskPass_ext. }
    assert (seaKeys ≡ₚ seaKeysOf (landMaskPass (firstRow' :: rest') ks') ks')
      as Hsea'.
    { rewrite Hlm. by apply seaKeysOf_perm. }
    assert (seaKeysOf (landMaskPass (firstRow' :: rest') ks') ks' ≠ []) as Hne.
    { intros Hnil. rewrite Hnil in Hsea'. by apply Permutation_nil_r in Hsea'. }
    rewrite cloudMasksOf_cons, cloudMasksOf'_cons by done.
    fold ks'. rewrite <- cloudMaskPass_start.
    split; f_equal; symmetry; by apply cloudMaskPass_ext.
Qed.

End CloudMasks.

Module CloudMasks2.
Import OceanData OceanDataFacts CloudPassFacts RatioFacts LandInvariance CloudMasks.

Lemma cloudMasks_missingRatio_witness :
  let firstRow : row :=
    {[ "sst" := VNumber 20; "chl" := VNull; "land" := VNull ]} in
  let rest : OceanData :=
    [ {[ "sst" := VNull; "chl" := VNumber 1; "land" := VString "" ]} ] in
  let seaKeys :=
    seaKeysOf (landMaskPass (firstRow :: rest) (keys firstRow))
      (keys firstRow) in
  seaKeys ≠ []
  ∧ (Z.of_nat (length seaKeys) < 2 ^ 53)%Z
  ∧ ∃ cms, Spec.cloudMasksOf (firstRow :: rest) None = Some cms
           ∧ StronglySorted (λ a b, index a < index b) cms.
Proof.
  intros firstRow rest seaKeys.
  assert (seaKeys ≠ []) as Hsea by (vm_compute; discriminate).
  assert (Z.of_nat (length seaKeys) < 2 ^ 53)%Z as Hsize
    by (vm_compute; reflexivity).
  split; [exact Hsea|]. split; [exact Hsize|].
  destruct (cloudMasks_missingRatio firstRow rest None Hsea Hsize)
    as (_ & cms & Hcms & _ & _ & Hsorted & _).
  exists cms. split; [exact Hcms|exact Hsorted].
Defined.

(** C2, as stated, fails.  With three non-land fields of which one is
    missing and the range [0.33333, 0.6], the row is selected because the
    quotient 1/3 is at least 0.33333, but the stored [missingRatio] is
    0.3333: it is not the quotient and it lies below [lo].  And writing a
    present value into a land field changes the ratio of the first row from
    0.5 to 0.3333 (and makes the second row a match). *)
Lemma cloudMasks_missingRatio_counterexample :
  let data : OceanData :=
    [ {[ "a" := VNull; "b" := VNumber 1; "c" := VNumber 2 ]};
      {[ "a" := VNumber 1; "b" := VNumber 2; "c" := VNumber 3 ]} ] in
  let params :=
    Some {| missing_ratio_range := Some (0.33333, 0.6)%float;
            mask_count := None |} in
  let land : OceanData :=
    [ {[ "a" := VNull; "b" := VNull; "c" := VNumber 5 ]};
      {[ "a" := VNumber 1; "b" := VNull; "c" := VNumber 5 ]} ] in
  let land' : OceanData :=
    [ {[ "a" := VNull; "b" := VNumber 7; "c" := VNumber 5 ]};
      {[ "a" := VNumber 1; "b" := VNull; "c" := VNumber 5 ]} ] in
  (∃ cm, Spec.cloudMasksOf data params = Some [cm]
         ∧ Spec.cloudMasksOf' data params = Some [cm]
         ∧ index cm = 0
         ∧ missingCount ["a"; "b"; "c"] (data !!! 0) = 1
         ∧ missingRatio cm = 0.3333%float
         ∧ PrimFloat.eqb (missingRatio cm) (1 / 3) = false
         ∧ PrimFloat.leb 0.33333 (missingRatio cm) = false)
  ∧ (Spec.landMaskOf land None ≫= (.!! "b") = Some true
     ∧ missingRatio <$> default [] (Spec.cloudMasksOf land None)
       = [0.5%float]
     ∧ missingRatio <$> default [] (Spec.cloudMasksOf land' None)
       = [0.3333%float; 0.3333%float]).
Proof.
  intros data params land land'. split.
  - eexists. split; [vm_compute; reflexivity|].
    split; [vm_compute; reflexivity|].
    split; [reflexivity|]. split; [vm_compute; reflexivity|].
    split; [vm_compute; reflexivity|]. split; vm_compute; reflexivity.
  - split; [vm_compute; reflexivity|]. split; vm_compute; reflexivity.
Qed.

End CloudMasks2.

Module EmptyInput.
Import OceanData.

(** C8 on the code.  The mask tool's [generateMasks] guards only against an
    empty array: a JSON document that is an object, [null] or a number makes
    it raise a [TypeError].  The preprocess tool's copy tests
    [!Array.isArray(data)] first and returns an empty mask set with a warning
    on every such input; both return an empty mask set with a warning on an
    empty array. *)
Theorem generateMasks_malformed_input :
  MaskProcess.generateMasks (PObject {[ "sst" := VNumber 1 ]}) None
  = Throw "TypeError: Cannot convert undefined or null to object"
  ∧ MaskProcess.generateMasks PNull None
    = Throw "TypeError: Cannot read properties of null (reading 'length')"
  ∧ (∀ x, MaskProcess.generateMasks (PNumber x) None
          = Throw "TypeError: Cannot convert undefined or null to object")
  ∧ (∀ params,
       MaskProcess.generateMasks (PArray []) params
       = Return
           {| MaskProcess.masks := {| landMask := None; cloudMasks := None |};
              MaskProcess.report := MaskProcess.mkReport None None None None;
              MaskProcess.warnings :=
                [Msg "Data format not suitable for mask generation"] |})
  ∧ (∀ data params,
       Spec.malformedOrEmpty data →
       DataPreprocess.generateMasks data params
       = Return
           {| DataPreprocess.landMask := None;
              DataPreprocess.cloudMasks := None;
              DataPreprocess.warnings :=
                [Msg "Data format not suitable for mask generation. Expected array of observations."] |}).
Proof.
  split; [by vm_compute|]. split; [done|]. split; [done|]. split; [done|].
  intros [rows| |o|x|s] params Hbad; try done.
  simpl in Hbad. by subst rows.
Qed.

End EmptyInput.

Module SplitFacts.
Import Number TrainingData.

Lemma relativeIndex_nonneg len (a : Z) :
  (0 ≤ a)%Z → relativeIndex len (Fin a) = min (Z.to_nat a) len.
Proof.
  intros Ha. unfold relativeIndex.
  destruct (Z.ltb_spec a 0); lia.
Qed.

Section slices.
Context {A : Type} (data : list A) (a b : Z).
Let N := length data.
Let ka := min (Z.to_nat a) N.
Let kb := min (Z.to_nat (a + b)) N.

Lemma slice_train :
  (0 ≤ a)%Z → slice data (Fin 0) (Fin a) = take ka data.
Proof.
  intros Ha. unfold slice. rewrite !relativeIndex_nonneg by lia.
  simpl. by rewrite Nat.sub_0_r.
Qed.

Lemma slice_val :
  (0 ≤ a)%Z → (0 ≤ b)%Z →
  slice data (Fin a) (plus (Fin a) (Fin b)) = take (kb - ka) (drop ka data).
Proof.
  intros Ha Hb. unfold slice. simpl plus.
  by rewrite !relativeIndex_nonneg by lia.
Qed.

Lemma slice_test :
  (0 ≤ a)%Z → (0 ≤ b)%Z →
  sliceFrom data (plus (Fin a) (Fin b)) = drop kb data.
Proof.
  intros Ha Hb. unfold sliceFrom. simpl plus.
  by rewrite !relativeIndex_nonneg by lia.
Qed.

Lemma slices_cover :
  (0 ≤ a)%Z → (0 ≤ b)%Z →
  take ka data ++ take (kb - ka) (drop ka data) ++ drop kb data = data.
Proof.
  intros Ha Hb. rewrite app_assoc, take_take_drop.
  replace (ka + (kb - ka)) with kb by (subst ka kb; lia).
  apply take_drop.
Qed.

End slices.

Lemma swap_length {A} (data : list A) i j : length (swap data i j) = length data.
Proof.
  unfold swap. destruct (data !! i), (data !! j); try done.
  by rewrite !length_insert.
Qed.

Lemma swap_perm {A} (data : list A) i j : swap data i j ≡ₚ data.
Proof.
  unfold swap. destruct (data !! i) as [x|] eqn:Hi; [|done].
  destruct (data !! j) as [y|] eqn:Hj; [|done].
  apply lookup_lt_Some in Hi as Hil. apply lookup_lt_Some in Hj as Hjl.
  apply Permutation_inj. split; [by rewrite !length_insert|].
  exists (λ n, if decide (n = i) then j else if decide (n = j) then i else n).
  split.
  - intros n m. repeat case_decide; lia.
  - intros n. rewrite !list_lookup_insert, !length_insert.
    repeat case_decide; destruct_and?; subst; try lia; congruence.
Qed.

Lemma shuffleLoop_perm {A} n random (data : list A) :
  shuffleLoop n random data ≡ₚ data.
Proof.
  revert random data. induction n as [|n IH]; intros random data; [done|].
  destruct n as [|n]; [done|].
  change (shuffleLoop (S (S n)) random data)
    with (shuffleLoop (S n) (tl random)
            (swap data (S n)
               match floor (hd 0%float random * ofNat (S n + 1)) with
               | Fin z => Z.to_nat z
               | _ => 0
               end)).
  rewrite IH. apply swap_perm.
Qed.

Lemma shuffleLoop_length {A} n random (data : list A) :
  length (shuffleLoop n random data) = length data.
Proof. by rewrite shuffleLoop_perm. Qed.

End SplitFacts.

Module Split.
Import Number TrainingData SplitFacts.

(** C3 (as amended).  Let [a] and [b] be the sizes the code computes,
    [floor(N * train_ratio)] and [floor(N * val_ratio)] on floats, with a
    ratio that is absent or zero replaced by its default (0.7, 0.15), and
    suppose both are non-negative.  Then [|train| = min(a, N)],
    [|val| = min(b, N - |train|)], [|test| = N - |train| - |val|]; the three
    sizes add up to [N] and the three parts together are a rearrangement of
    the pairs; when [a + b <= N] the sizes are exactly [a], [b] and
    [N - a - b]; and with [shuffle = false] the parts are consecutive
    segments of the pairs in their original order. *)
Theorem splitDataset_sizes {A : Type} (random : list float) (pairs : list A)
    (params : option SplitParams) (a b : Z) :
  let N := length pairs in
  let r := splitDataset random pairs params in
  sizeOf N (trainRatio_of params) = Fin a →
  sizeOf N (valRatio_of params) = Fin b →
  (0 ≤ a)%Z → (0 ≤ b)%Z →
  length (train r) = min (Z.to_nat a) N
  ∧ length (val r) = min (Z.to_nat b) (N - length (train r))
  ∧ length (test r) = N - length (train r) - length (val r)
  ∧ length (train r) + length (val r) + length (test r) = N
  ∧ (trainSamples r, valSamples r, testSamples r)
    = (length (train r), length (val r), length (test r))
  ∧ ((a + b ≤ Z.of_nat N)%Z →
       length (train r) = Z.to_nat a ∧ length (val r) = Z.to_nat b
       ∧ length (test r) = N - Z.to_nat a - Z.to_nat b)
  ∧ train r ++ val r ++ test r ≡ₚ pairs
  ∧ (shuffle_of params = false →
       train r = take (length (train r)) pairs
       ∧ val r = take (length (val r)) (drop (length (train r)) pairs)
       ∧ test r = drop (length (train r) + length (val r)) pairs
       ∧ train r ++ val r ++ test r = pairs).
Proof.
  intros N r Htr Hval Ha Hb.
  set (data := if shuffle_of params
               then shuffleLoop (length pairs) random pairs else pairs).
  assert (data ≡ₚ pairs) as Hperm.
  { unfold data. destruct (shuffle_of params); [apply shuffleLoop_perm|done]. }
  assert (length data = N) as Hlen by (by rewrite Hperm).
  set (ka := min (Z.to_nat a) N). set (kb := min (Z.to_nat (a + b)) N).
  assert (train r = take ka data) as Htrain.
  { unfold r, splitDataset. cbn [train]. fold data. rewrite Hlen, Htr.
    rewrite slice_train by done. by rewrite Hlen. }
  assert (val r = take (kb - ka) (drop ka data)) as Hv.
  { unfold r, splitDataset. cbn [val]. fold data. rewrite Hlen, Htr, Hval.
    rewrite slice_val by done. by rewrite Hlen. }
  assert (test r = drop kb data) as Htest.
  { unfold r, splitDataset. cbn [test]. fold data. rewrite Hlen, Htr, Hval.
    rewrite slice_test by done. by rewrite Hlen. }
  assert (length (train r) = ka) as Hlt.
  { rewrite Htrain, length_take. lia. }
  assert (length (val r) = kb - ka) as Hlv.
  { rewrite Hv, length_take, length_drop. lia. }
  assert (length (test r) = N - kb) as Hlte.
  { rewrite Htest, length_drop. lia. }
  assert (train r ++ val r ++ test r = data) as Hcover.
  { rewrite Htrain, Hv, Htest. pose proof (slices_cover data a b Ha Hb) as H.
    by rewrite Hlen in H. }
  split; [lia|]. split; [lia|]. split; [lia|]. split; [lia|].
  split; [done|]. split; [lia|]. split; [by rewrite Hcover|].
  intros Hsh. assert (data = pairs) as Hd by (unfold data; by rewrite Hsh).
  rewrite Hlt, Hlv. rewrite <- Hd, <- Htrain, <- Hv.
  split; [done|]. split; [done|]. split; [|done].
  rewrite Htest. f_equal. lia.
Qed.

(** Scenario B: 100 pairs, ratios 0.7 / 0.15 / 0.15, no shuffle, give
    70 / 15 / 15. *)
Lemma splitDataset_sizes_witness :
  let pairs := seq 0 100 in
  let params :=
    Some {| train_ratio := Some 0.7%float; val_ratio := Some 0.15%float;
            test_ratio := Some 0.15%float; shuffle := Some false |} in
  let r := splitDataset [] pairs params in
  (sizeOf (length pairs) (trainRatio_of params) = Fin 70
   ∧ sizeOf (length pairs) (valRatio_of params) = Fin 15)
  ∧ (length (train r), length (val r), length (test r)) = (70, 15, 15)
  ∧ train r = seq 0 70 ∧ val r = seq 70 15 ∧ test r = seq 85 15.
Proof.
  intros pairs params r.
  assert (sizeOf (length pairs) (trainRatio_of params) = Fin 70) as Ha
    by (vm_compute; reflexivity).
  assert (sizeOf (length pairs) (valRatio_of params) = Fin 15) as Hb
    by (vm_compute; reflexivity).
  split; [exact (conj Ha Hb)|].
  destruct (splitDataset_sizes [] pairs params 70 15 Ha Hb
              ltac:(lia) ltac:(lia))
    as (Ht & Hv & Hte & _ & _ & _ & _ & Hseg).
  fold r in Ht, Hv, Hte, Hseg.
  destruct (Hseg eq_refl) as (H1 & H2 & H3 & _).
  assert (length pairs = 100) as Hlen by reflexivity.
  rewrite Hlen in Ht, Hv, Hte.
  split; [rewrite Hte, Hv, Ht; reflexivity|].
  rewrite H1, H2, H3, Hv, Ht. vm_compute. auto.
Defined.

(** C3, as stated, fails.  With ten pairs and ratios 0.7 / 0.7 / 0.15 the
    validation part has 3 pairs, not [floor(10 * 0.7) = 7]; a train ratio of
    0 is replaced by the default 0.7, so the training part has 7 pairs, not
    [floor(10 * 0) = 0]; and with a negative validation ratio the part sizes
    add up to 15, not 10. *)
Lemma splitDataset_sizes_counterexample :
  let pairs := seq 0 10 in
  let split tr va :=
    splitDataset [] pairs
      (Some {| train_ratio := Some tr; val_ratio := Some va;
               test_ratio := Some 0.15%float; shuffle := Some false |}) in
  (floor (ofNat 10 * 0.7) = Fin 7 ∧ length (val (split 0.7 0.7)%float) = 3)
  ∧ (floor (ofNat 10 * 0) = Fin 0 ∧ length (train (split 0 0.15)%float) = 7)
  ∧ (let r := split 0.7%float (-0.5)%float in
     length (train r) + length (val r) + length (test r) = 15).
Proof. vm_compute. auto. Qed.

End Split.

Module Validation.
Import OceanData OceanDataFacts Number TrainingData.

Lemma foldl_flag {A} (c : A → bool) (b : bool) (l : list A) :
  foldl (λ found key, if c key then true else found) b l = b || existsb c l.
Proof.
  revert b. induction l as [|a l IH]; intros b; simpl.
  - by rewrite orb_false_r.
  - rewrite IH. destruct (c a), b; simpl; try done.
Qed.

Lemma isNull_spec v : isNull v = true ↔ v = VNull.
Proof. destruct v; simpl; split; congruence. Qed.

Lemma hasMaskedValues_spec (input groundTruth : row) :
  hasMaskedValues input groundTruth = true
  ↔ Spec.encodesMissing input groundTruth.
Proof.
  unfold hasMaskedValues, Spec.encodesMissing.
  rewrite foldl_flag. simpl. rewrite existsb_exists. split.
  - intros (key & Hin & Hc). exists key.
    apply andb_true_iff in Hc as [Hn Hg].
    apply isNull_spec in Hn. apply negb_true_iff in Hg.
    apply list_elem_of_In, elem_of_keys in Hin as [v Hv].
    unfold get in Hn. rewrite Hv in Hn. simpl in Hn. subst v.
    split; [done|]. intros Hg'. apply isNull_spec in Hg'. congruence.
  - intros (key & Hk & Hg). exists key. split.
    + apply list_elem_of_In, elem_of_keys. eauto.
    + apply andb_true_iff. split.
      * apply isNull_spec. unfold get. by rewrite Hk.
      * apply negb_true_iff. apply not_true_is_false.
        by rewrite isNull_spec.
Qed.

Lemma passes_spec p :
  Spec.passes p = true
  ↔ size (input p) = size (groundTruth p)
    ∧ Spec.encodesMissing (input p) (groundTruth p).
Proof.
  unfold Spec.passes. rewrite andb_true_iff, Nat.eqb_eq.
  by rewrite hasMaskedValues_spec.
Qed.

Lemma validateOne_counts t idx p :
  valid (validateOne t idx p)
  = valid t + (if Spec.passes p then 1 else 0)
  ∧ invalid (validateOne t idx p)
    = invalid t + (if Spec.passes p then 0 else 1).
Proof.
  unfold validateOne, Spec.passes. rewrite !length_keys.
  destruct (size (input p) =? size (groundTruth p)); simpl.
  - destruct (hasMaskedValues _ _); simpl; lia.
  - lia.
Qed.

Lemma validateFrom_counts t idx pairs :
  valid (validateFrom t idx pairs)
  = valid t + length (filter (λ p, Spec.passes p = true) pairs)
  ∧ invalid (validateFrom t idx pairs)
    = invalid t + length (filter (λ p, Spec.passes p = false) pairs).
Proof.
  revert t idx. induction pairs as [|p pairs IH]; intros t idx; simpl.
  - lia.
  - destruct (IH (validateOne t idx p) (S idx)) as [-> ->].
    destruct (validateOne_counts t idx p) as [-> ->].
    rewrite !filter_cons. destruct (Spec.passes p); simpl; lia.
Qed.

Lemma filter_split_length {A} (f : A → bool) (l : list A) :
  length (filter (λ x, f x = true) l) + length (filter (λ x, f x = false) l)
  = length l.
Proof.
  induction l as [|a l IH]; [done|].
  rewrite !filter_cons. destruct (f a); simpl; lia.
Qed.

(** What [validatePairs] reports on any list of pairs: a pair is counted
    valid when [input] and [groundTruth] have the same number of fields and
    some field of [input] is null where [groundTruth] is not null; every
    other pair is counted invalid; the report gives the number of pairs,
    the two counts, which add up to it, and the percentage of valid pairs
    rounded to two decimals. *)
Lemma validatePairs_report (pairs : list TrainingPair) :
  let report := fst (validatePairs pairs) in
  totalPairs report = length pairs
  ∧ validPairs report = length (filter (λ p, Spec.passes p = true) pairs)
  ∧ invalidPairs report = length (filter (λ p, Spec.passes p = false) pairs)
  ∧ validPairs report + invalidPairs report = totalPairs report
  ∧ validPercentage report
    = toFixedNumber 2
        (ofNat (validPairs report) / ofNat (totalPairs report) * 100)
  ∧ ∀ p, Spec.passes p = true
         ↔ size (input p) = size (groundTruth p)
           ∧ ∃ key, input p !! key = Some VNull
                    ∧ get (groundTruth p) key ≠ VNull.
Proof.
  intros report. subst report. unfold validatePairs. cbn [fst].
  cbn [totalPairs validPairs invalidPairs validPercentage].
  destruct (validateFrom_counts (mkTally 0 0 []) 0 pairs) as [-> ->].
  cbn [valid invalid]. rewrite !Nat.add_0_l.
  split; [done|]. split; [done|]. split; [done|].
  split; [apply filter_split_length|]. split; [done|].
  intros p. apply passes_spec.
Qed.

(** The test on the fields compares their numbers only, although its
    comment reads "same keys": a pair whose [input] is [{a: null}] and whose
    [groundTruth] is [{b: 1}] would be counted valid.  No such pair reaches
    [validatePairs]: its one caller passes the pairs [buildTrainingPairs]
    has just built, whose rows have the same fields. *)
Lemma validatePairs_length_only :
  let p := {| input := {[ "a" := VNull ]};
              groundTruth := {[ "b" := VNumber 1 ]};
              maskIndex := 0; missingRatio := 1%float |} in
  dom (input p) ≠ dom (groundTruth p)
  ∧ validPairs (fst (validatePairs [p])) = 1
  ∧ invalidPairs (fst (validatePairs [p])) = 0.
Proof.
  intros p. split; [|by vm_compute].
  intros H. assert ("a" ∈ dom (groundTruth p)) as Ha.
  { rewrite <- H. simpl. set_solver. }
  simpl in Ha. set_solver.
Qed.

(** C10.  On the empty pair list the report has [totalPairs = 0],
    [validPairs = 0], [invalidPairs = 0], and [validPercentage] is [NaN], the
    result of [0 / 0]: it is not a number between 0 and 100. *)
Theorem validatePairs_empty :
  let report := fst (validatePairs []) in
  totalPairs report = 0 ∧ validPairs report = 0 ∧ invalidPairs report = 0
  ∧ is_nan (ofNat 0 / ofNat 0) = true
  ∧ is_nan (validPercentage report) = true
  ∧ PrimFloat.leb 0 (validPercentage report) = false
  ∧ PrimFloat.leb (validPercentage report) 100 = false.
Proof. by vm_compute. Qed.

End Validation.

Module MaskApplication.
Import OceanData OceanDataFacts.

Lemma flag_true (m : gmap string bool) f : flag m f = true ↔ m !! f = Some true.
Proof.
  unfold flag. destruct (m !! f) as [[]|]; simpl; split; congruence.
Qed.

Lemma foldl_mask_lookup (m : gmap string bool) (ks : list string) (r : row) f :
  foldl (λ newRow key, if flag m key then <[key := VNull]> newRow else newRow)
        r ks !! f
  = if decide (f ∈ ks ∧ flag m f = true) then Some VNull else r !! f.
Proof.
  revert r. induction ks as [|a ks IH]; intros r; cbn [foldl].
  - case_decide as H; [|done]. destruct H as [H _]. by apply elem_of_nil in H.
  - rewrite IH.
    destruct (decide (f ∈ ks ∧ flag m f = true)) as [[Hin Hf]|Hn].
    + rewrite decide_True; [done|]. split; [by right|done].
    + destruct (decide (f = a)) as [->|Hne].
      * destruct (flag m a) eqn:Hfa.
        -- rewrite lookup_insert_eq, decide_True; [done|]. split; [by left|done].
        -- rewrite decide_False; [done|]. by intros [_ ?].
      * assert (∀ r', (if flag m a then <[a := VNull]> r' else r') !! f
                      = r' !! f) as ->.
        { intros r'. destruct (flag m a); [|done].
          by rewrite lookup_insert_ne. }
        rewrite decide_False; [done|]. intros [Hin Hf]. apply Hn.
        split; [|done]. by apply elem_of_cons in Hin as [?|?].
Qed.

(** A masked row: the fields the cloud mask flags are null (whether or not
    the row had them), every other field is as in the row. *)
Lemma maskRow_lookup (r : row) (m : gmap string bool) f :
  MaskApply.maskRow r m !! f = if flag m f then Some VNull else r !! f.
Proof.
  unfold MaskApply.maskRow. rewrite foldl_mask_lookup.
  destruct (flag m f) eqn:Hf.
  - rewrite decide_True; [done|]. split; [|done].
    apply elem_of_keys. apply flag_true in Hf. eauto.
  - rewrite decide_False; [done|]. by intros [_ ?].
Qed.

Lemma mapRows_lookup cms idx (rows : OceanData) n :
  MaskApply.mapRows cms idx rows !! n
  = (λ r, match cms !! (idx + n) with
          | Some cm => MaskApply.maskRow r (mask cm)
          | None => r
          end) <$> rows !! n.
Proof.
  revert idx n. induction rows as [|r rest IH]; intros idx n; [done|].
  destruct n as [|n]; simpl.
  - by rewrite Nat.add_0_r.
  - rewrite IH. by replace (S idx + n) with (idx + S n) by lia.
Qed.

Lemma pairsFrom_lookup lm i (gt : OceanData) cms n p :
  TrainingData.pairsFrom lm i gt cms !! n = Some p →
  ∃ gtRow cm,
    gt !! n = Some gtRow ∧ cms !! n = Some cm
    ∧ p = {| TrainingData.input := TrainingData.inputRowOf gtRow (mask cm) lm;
             TrainingData.groundTruth := gtRow;
             TrainingData.maskIndex := i + n;
             TrainingData.missingRatio := missingRatio cm |}.
Proof.
  revert i cms n. induction gt as [|gtRow gts IH]; intros i cms n; [done|].
  destruct cms as [|cm cms]; [done|]. destruct n as [|n]; simpl.
  - intros [= <-]. exists gtRow, cm. by rewrite Nat.add_0_r.
  - intros Hp. destruct (IH _ _ _ Hp) as (g & c & ? & ? & ->).
    exists g, c. repeat split; try done. f_equal. lia.
Qed.

Lemma pairsFrom_length lm i (gt : OceanData) cms :
  length (TrainingData.pairsFrom lm i gt cms) = min (length cms) (length gt).
Proof.
  revert i cms. induction gt as [|g gts IH]; intros i [|cm cms]; simpl;
    try done.
  by rewrite IH.
Qed.

Lemma inputRowOf_lookup (gtRow : row) cm lm f :
  TrainingData.inputRowOf gtRow cm lm !! f
  = if decide (f ∈ dom gtRow)
    then Some (if flag cm f
                  || match lm with Some lm => flag lm f | None => false end
               then VNull else get gtRow f)
    else None.
Proof.
  unfold TrainingData.inputRowOf. rewrite forEach_assign_lookup.
  destruct (decide (f ∈ keys gtRow)) as [Hin|Hnin].
  - rewrite decide_True; [done|]. by apply elem_of_keys_dom.
  - rewrite decide_False; [done|]. by rewrite <- elem_of_keys_dom.
Qed.

(** C4 on the code.  [buildTrainingPairs] does what the claim says: the
    input row of pair [i] has the fields of the ground-truth row [i], null
    where cloud mask [i] or the land mask flags the field and the
    ground-truth value elsewhere.  [applyMasksToData] reads only
    [masks.cloudMasks]: row [i] is copied and the fields cloud mask [i] flags
    are set to null, whatever the land mask says.  On a row [{sst: 20,
    depth: 5}] with [sst] flagged in the land mask only, [buildTrainingPairs]
    nulls [sst] and [applyMasksToData] leaves it at 20. *)
Theorem applyMasks_ignores_landMask :
  (∀ (groundTruth : OceanData) masks cms i p,
     cloudMasks masks = Some cms →
     fst (TrainingData.buildTrainingPairs groundTruth masks) !! i = Some p →
     ∃ gtRow cm,
       groundTruth !! i = Some gtRow ∧ cms !! i = Some cm
       ∧ TrainingData.groundTruth p = gtRow
       ∧ dom (TrainingData.input p) = dom gtRow
       ∧ ∀ f, f ∈ dom gtRow →
              TrainingData.input p !! f
              = Some (if flag (mask cm) f
                         || match landMask masks with
                            | Some lm => flag lm f
                            | None => false
                            end
                      then VNull else get gtRow f))
  ∧ (∀ (data : OceanData) masks cms i r cm,
       cloudMasks masks = Some cms →
       data !! i = Some r → cms !! i = Some cm →
       ∃ r', MaskApply.data (MaskApply.applyMasksToData data masks) !! i
             = Some r'
             ∧ ∀ f, r' !! f = if flag (mask cm) f then Some VNull else r !! f)
  ∧ (let data : OceanData :=
       [ {[ "sst" := VNumber 20; "depth" := VNumber 5 ]} ] in
     let masks :=
       {| landMask := Some {[ "sst" := true; "depth" := false ]};
          cloudMasks :=
            Some [ {| index := 0; missingRatio := 0%float;
                      mask := {[ "sst" := false; "depth" := true ]} |} ] |} in
     MaskApply.data (MaskApply.applyMasksToData data masks)
     = [ {[ "sst" := VNumber 20; "depth" := VNull ]} ]
     ∧ TrainingData.input
         <$> fst (TrainingData.buildTrainingPairs data masks)
       = [ {[ "sst" := VNull; "depth" := VNull ]} ]).
Proof.
  split; [|split].
  - intros gt masks cms i p Hcms Hp.
    unfold TrainingData.buildTrainingPairs in Hp. rewrite Hcms in Hp.
    destruct cms as [|cm0 cms0]; [done|]. cbn [fst] in Hp.
    apply pairsFrom_lookup in Hp as (gtRow & cm & Hg & Hc & ->).
    exists gtRow, cm. cbn. split; [done|]. split; [done|]. split; [done|].
    split.
    + apply set_eq. intros f. rewrite elem_of_dom, inputRowOf_lookup.
      case_decide; [by split; eauto|].
      split; [by intros [? ?]|done].
    + intros f Hf. by rewrite inputRowOf_lookup, decide_True.
  - intros data masks cms i r cm Hcms Hr Hc.
    unfold MaskApply.applyMasksToData. rewrite Hcms.
    destruct cms as [|cm0 cms0]; [done|]. cbn [MaskApply.data].
    rewrite mapRows_lookup, Hr. simpl. rewrite Hc.
    eexists. split; [done|]. intros f. apply maskRow_lookup.
  - by vm_compute.
Qed.

End MaskApplication.

Module StoreFacts.
Import OceanData OceanDataFacts MaskApplication Store.

Lemma extends_refl σ : extends σ σ.
Proof. by intros l _. Qed.

Lemma extends_dom σ σ' l : extends σ σ' → l ∈ dom σ → l ∈ dom σ'.
Proof.
  intros H Hl. rewrite elem_of_dom, (H l Hl). by apply elem_of_dom.
Qed.

Lemma extends_trans σ1 σ2 σ3 : extends σ1 σ2 → extends σ2 σ3 → extends σ1 σ3.
Proof.
  intros H12 H23 l Hl. rewrite H23 by (by eapply extends_dom). by apply H12.
Qed.

Lemma alloc_fresh σ r : fst (alloc σ r) ∉ dom σ.
Proof. apply is_fresh. Qed.

Lemma alloc_lookup σ r : snd (alloc σ r) !! fst (alloc σ r) = Some r.
Proof. unfold alloc. simpl. by rewrite lookup_insert_eq. Qed.

Lemma alloc_extends σ r : extends σ (snd (alloc σ r)).
Proof.
  intros l Hl. unfold alloc. simpl. rewrite lookup_insert_ne; [done|].
  intros <-. by apply (is_fresh (dom σ)).
Qed.

Lemma setField_other σ l key v l' :
  l' ≠ l → setField σ l key v !! l' = σ !! l'.
Proof. intros H. unfold setField. by rewrite lookup_insert_ne. Qed.

Lemma setField_same σ l key v :
  setField σ l key v !! l = Some (<[key := v]> (deref σ l)).
Proof. unfold setField. by rewrite lookup_insert_eq. Qed.

Lemma maskInto_other σ newRow m l :
  l ≠ newRow → maskInto σ newRow m !! l = σ !! l.
Proof.
  intros Hl. unfold maskInto. generalize (keys m). intros ks. revert σ.
  induction ks as [|k ks IH]; intros σ; [done|]. cbn [foldl].
  rewrite IH. destruct (flag m k); [|done]. by apply setField_other.
Qed.

Lemma maskInto_same σ newRow m r :
  σ !! newRow = Some r →
  maskInto σ newRow m !! newRow = Some (MaskApply.maskRow r m).
Proof.
  unfold maskInto, MaskApply.maskRow. generalize (keys m). intros ks.
  revert σ r. induction ks as [|k ks IH]; intros σ r Hr; [done|].
  cbn [foldl]. destruct (flag m k); [|by apply IH].
  apply IH. rewrite setField_same. unfold deref. by rewrite Hr.
Qed.

Lemma fillInput_other σ inputRow gtRow cm lm l :
  l ≠ inputRow → fillInput σ inputRow gtRow cm lm !! l = σ !! l.
Proof.
  intros Hl. unfold fillInput. generalize (keys gtRow). intros ks. revert σ.
  induction ks as [|k ks IH]; intros σ; [done|]. cbn [foldl].
  rewrite IH. by destruct (_ || _); apply setField_other.
Qed.

Lemma fillInput_same σ inputRow gtRow cm lm r :
  σ !! inputRow = Some r →
  fillInput σ inputRow gtRow cm lm !! inputRow
  = Some (foldl (λ obj key,
                   <[key := if flag cm key
                               || match lm with
                                  | Some lm => flag lm key
                                  | None => false
                                  end
                            then VNull else get gtRow key]> obj)
                r (keys gtRow)).
Proof.
  unfold fillInput. generalize (keys gtRow). intros ks.
  revert σ r. induction ks as [|k ks IH]; intros σ r Hr; [done|].
  cbn [foldl].
  destruct (_ || _); apply IH; rewrite setField_same; unfold deref;
    by rewrite Hr.
Qed.

(** What [data.map] in [applyMasksToData] does to the store and returns. *)
Lemma mapRows_spec cms idx rows σ :
  let out := fst (mapRows cms idx rows σ) in
  let σ' := snd (mapRows cms idx rows σ) in
  extends σ σ'
  ∧ length out = length rows
  ∧ (∀ n l, rows !! n = Some l → cms !! (idx + n) = None →
            out !! n = Some l)
  ∧ (∀ n l cm, rows !! n = Some l → cms !! (idx + n) = Some cm →
        ∃ l', out !! n = Some l' ∧ (l' ∉ dom σ) ∧ (l' ∈ dom σ')
              ∧ (l ∈ dom σ →
                 σ' !! l' = Some (MaskApply.maskRow (deref σ l) (mask cm)))).
Proof.
  revert idx σ. induction rows as [|l0 rest IH]; intros idx σ.
  { simpl. split; [apply extends_refl|]. split; [done|].
    split; [by intros ? ? ?|by intros ? ? ? ?]. }
  cbn [mapRows]. destruct (cms !! idx) as [cm0|] eqn:Hcm.
  - destruct (alloc σ (deref σ l0)) as [newRow σ1] eqn:Ha.
    pose proof (alloc_fresh σ (deref σ l0)) as Hfresh.
    pose proof (alloc_lookup σ (deref σ l0)) as Hnew.
    pose proof (alloc_extends σ (deref σ l0)) as Hext1.
    rewrite Ha in Hfresh, Hnew, Hext1. simpl in Hfresh, Hnew, Hext1.
    set (σ2 := maskInto σ1 newRow (mask cm0)).
    assert (extends σ σ2) as Hext2.
    { intros l Hl. unfold σ2. rewrite maskInto_other; [by apply Hext1|].
      by intros ->. }
    assert (σ2 !! newRow = Some (MaskApply.maskRow (deref σ l0) (mask cm0)))
      as Hcontent by (by apply maskInto_same).
    specialize (IH (S idx) σ2).
    destruct (mapRows cms (S idx) rest σ2) as [out σ3]. simpl in IH.
    destruct IH as (Hext3 & Hlen & Hpass & Hmask). simpl.
    split; [by eapply extends_trans|]. split; [by rewrite Hlen|]. split.
    + intros [|n] l Hl Hnone.
      * rewrite Nat.add_0_r in Hnone. congruence.
      * apply (Hpass n l); [exact Hl|]. rewrite <- Hnone. f_equal. lia.
    + intros [|n] l cm Hl Hsome.
      * rewrite Nat.add_0_r in Hsome. simpl in Hl.
        injection Hl as ->. rewrite Hcm in Hsome. injection Hsome as ->.
        assert (newRow ∈ dom σ2) as Hd2 by (apply elem_of_dom; eauto).
        exists newRow. split; [done|]. split; [done|].
        split; [by eapply extends_dom|]. intros _. by rewrite Hext3.
      * simpl in Hl. replace (idx + S n) with (S idx + n) in Hsome by lia.
        destruct (Hmask n l cm Hl Hsome) as (l' & Hout & Hf & Hd & Hc).
        exists l'. split; [done|]. split.
        { intros Hin. apply Hf. by eapply extends_dom. }
        split; [done|]. intros Hin.
        rewrite Hc by (by eapply extends_dom). do 2 f_equal.
        unfold deref. by rewrite Hext2.
  - specialize (IH (S idx) σ).
    destruct (mapRows cms (S idx) rest σ) as [out σ3]. simpl in IH.
    destruct IH as (Hext3 & Hlen & Hpass & Hmask). simpl.
    split; [done|]. split; [by rewrite Hlen|]. split.
    + intros [|n] l Hl Hnone; [done|].
      apply (Hpass n l); [exact Hl|]. rewrite <- Hnone. f_equal. lia.
    + intros [|n] l cm Hl Hsome.
      * rewrite Nat.add_0_r in Hsome. congruence.
      * simpl in Hl. replace (idx + S n) with (S idx + n) in Hsome by lia.
        by apply Hmask.
Qed.

(** What the loop of [buildTrainingPairs] does to the store and returns. *)
Lemma pairsFrom_spec lm i gt cms σ :
  let out := fst (pairsFrom lm i gt cms σ) in
  let σ' := snd (pairsFrom lm i gt cms σ) in
  extends σ σ'
  ∧ length out = min (length cms) (length gt)
  ∧ (∀ n p, out !! n = Some p →
        gt !! n = Some (groundTruth p)
        ∧ (input p ∉ dom σ) ∧ (input p ∈ dom σ')
        ∧ ∃ cm, cms !! n = Some cm
                ∧ (groundTruth p ∈ dom σ →
                   σ' !! input p
                   = Some (TrainingData.inputRowOf (deref σ (groundTruth p))
                             (mask cm) lm))).
Proof.
  revert i cms σ. induction gt as [|g gts IH]; intros i cms σ.
  { simpl. split; [apply extends_refl|]. split; [lia|]. by intros ? ? ?. }
  destruct cms as [|cm0 cms].
  { simpl. split; [apply extends_refl|]. split; [done|]. by intros ? ? ?. }
  cbn [pairsFrom].
  destruct (alloc σ ∅) as [inputRow σ1] eqn:Ha.
  pose proof (alloc_fresh σ ∅) as Hfresh.
  pose proof (alloc_lookup σ ∅) as Hnew.
  pose proof (alloc_extends σ ∅) as Hext1.
  rewrite Ha in Hfresh, Hnew, Hext1. simpl in Hfresh, Hnew, Hext1.
  set (σ2 := fillInput σ1 inputRow (deref σ1 g) (mask cm0) lm).
  assert (extends σ σ2) as Hext2.
  { intros l Hl. unfold σ2. rewrite fillInput_other; [by apply Hext1|].
    by intros ->. }
  assert (σ2 !! inputRow
          = Some (TrainingData.inputRowOf (deref σ1 g) (mask cm0) lm))
    as Hcontent by (by apply fillInput_same).
  specialize (IH (S i) cms σ2).
  destruct (pairsFrom lm (S i) gts cms σ2) as [out σ3]. simpl in IH.
  destruct IH as (Hext3 & Hlen & Hpairs). simpl.
  split; [by eapply extends_trans|]. split; [by rewrite Hlen|].
  intros [|n] p Hp.
  - injection Hp as <-. simpl.
    assert (inputRow ∈ dom σ2) as Hd2 by (apply elem_of_dom; eauto).
    split; [done|]. split; [done|]. split; [by eapply extends_dom|].
    exists cm0. split; [done|]. intros Hg. rewrite Hext3 by done.
    rewrite Hcontent. do 2 f_equal. unfold deref. by rewrite Hext1.
  - simpl in Hp. destruct (Hpairs n p Hp) as (Hgt & Hf & Hd & cm & Hcm & Hc).
    split; [done|]. split.
    { intros Hin. apply Hf. by eapply extends_dom. }
    split; [done|]. exists cm. split; [done|]. intros Hg.
    rewrite Hc by (by eapply extends_dom). do 2 f_equal.
    unfold deref. by rewrite Hext2.
Qed.

End StoreFacts.

Module Frame.
Import OceanData OceanDataFacts MaskApplication Store StoreFacts.

(** The store-passing [applyMasksToData], read back through the final
    store, is the [applyMasksToData] on row values. *)
Lemma applyMasksToData_refines σ (rows : list loc) masks :
  Forall (λ l, l ∈ dom σ) rows →
  let result := fst (applyMasksToData σ rows masks) in
  let σ' := snd (applyMasksToData σ rows masks) in
  deref σ' <$> data result
  = MaskApply.data (MaskApply.applyMasksToData (deref σ <$> rows) masks).
Proof.
  intros Hlive result σ'. subst result σ'.
  unfold applyMasksToData, MaskApply.applyMasksToData.
  destruct (cloudMasks masks) as [[|cm0 cms0]|]; [done| |done].
  set (cms := cm0 :: cms0).
  pose proof (mapRows_spec cms 0 rows σ) as (Hext & Hlen & Hpass & Hmask).
  destruct (mapRows cms 0 rows σ) as [out σ']. simpl in *.
  apply list_eq. intros n.
  rewrite list_lookup_fmap, mapRows_lookup, list_lookup_fmap. simpl.
  destruct (rows !! n) as [l|] eqn:Hl.
  - assert (l ∈ dom σ) as Hin.
    { rewrite Forall_forall in Hlive. apply Hlive.
      by eapply list_elem_of_lookup_2. }
    simpl. destruct (cms !! n) as [cm|] eqn:Hcm.
    + destruct (Hmask n l cm Hl Hcm) as (l' & -> & _ & _ & Hc). simpl.
      unfold deref at 1. by rewrite (Hc Hin).
    + rewrite (Hpass n l Hl Hcm). simpl. unfold deref. by rewrite Hext.
  - simpl. apply lookup_ge_None in Hl. rewrite <- Hlen in Hl.
    apply lookup_ge_None in Hl. by rewrite Hl.
Qed.

(** C7.  [applyMasksToData] returns as many rows as it was given; a row
    whose index is at or beyond the number of cloud masks is returned as the
    very same object; a row below it is returned as an object that did not
    exist before the call; and every object that existed before the call,
    the rows of the input table among them, has the same fields after it.
    [buildTrainingPairs] likewise leaves every existing object as it was: the
    input row of each pair is a new object and its ground-truth row is the
    row of the table itself. *)
Theorem masking_preserves_input (σ : store) (table : list loc)
    (masks : MaskSet) :
  let cms := default [] (cloudMasks masks) in
  let result := fst (applyMasksToData σ table masks) in
  let σ' := snd (applyMasksToData σ table masks) in
  let pairs := fst (fst (buildTrainingPairs σ table masks)) in
  let σ'' := snd (buildTrainingPairs σ table masks) in
  length (data result) = length table
  ∧ (∀ idx l, table !! idx = Some l → length cms ≤ idx →
              data result !! idx = Some l)
  ∧ (∀ idx l, table !! idx = Some l → idx < length cms →
              ∃ l', data result !! idx = Some l' ∧ (l' ∉ dom σ)
                    ∧ (l' ∈ dom σ'))
  ∧ (∀ l, l ∈ dom σ → σ' !! l = σ !! l)
  ∧ (∀ l, l ∈ dom σ → σ'' !! l = σ !! l)
  ∧ (∀ n p, pairs !! n = Some p →
            table !! n = Some (groundTruth p)
            ∧ (input p ∉ dom σ) ∧ (input p ∈ dom σ'')).
Proof.
  intros cms result σ' pairs σ''.
  assert (length (data result) = length table
          ∧ (∀ idx l, table !! idx = Some l → length cms ≤ idx →
                      data result !! idx = Some l)
          ∧ (∀ idx l, table !! idx = Some l → idx < length cms →
                      ∃ l', data result !! idx = Some l' ∧ (l' ∉ dom σ)
                            ∧ (l' ∈ dom σ'))
          ∧ extends σ σ') as (H1 & H2 & H3 & H4).
  { subst result σ' cms. unfold applyMasksToData.
    destruct (cloudMasks masks) as [[|cm0 cms0]|]; simpl.
    - split; [done|]. split; [done|]. split; [|apply extends_refl].
      intros ? ? _ ?. lia.
    - set (cms := cm0 :: cms0).
      pose proof (mapRows_spec cms 0 table σ) as (Hext & Hlen & Hpass & Hmask).
      destruct (mapRows cms 0 table σ) as [out σ1]. simpl in *.
      split; [done|]. split; [|split; [|done]].
      + intros idx l Hl Hge. apply Hpass; [done|]. by apply lookup_ge_None.
      + intros idx l Hl Hlt.
        destruct (lookup_lt_is_Some_2 cms idx Hlt) as [cm Hcm].
        destruct (Hmask idx l cm Hl Hcm) as (l' & ? & ? & ? & _). eauto.
    - split; [done|]. split; [done|]. split; [|apply extends_refl].
      intros ? ? _ ?. lia. }
  split; [done|]. split; [done|]. split; [done|]. split; [done|].
  subst pairs σ''. unfold buildTrainingPairs.
  destruct (cloudMasks masks) as [[|cm0 cms0]|]; simpl.
  - split; [by intros|]. by intros.
  - pose proof (pairsFrom_spec (landMask masks) 0 table (cm0 :: cms0) σ)
      as (Hext & _ & Hpairs).
    destruct (pairsFrom (landMask masks) 0 table (cm0 :: cms0) σ)
      as [out σ1]. simpl in *.
    split; [done|]. intros n p Hp.
    destruct (Hpairs n p Hp) as (? & ? & ? & _). eauto.
  - split; [by intros|]. by intros.
Qed.

End Frame.

Module Spikes.
Import OceanData Number QualityControl.

Lemma markAll_fields tr sr pr oxr c rows :
  fields <$> snd (markAll tr sr pr oxr c rows) = rows.
Proof.
  revert c. induction rows as [|r rest IH]; intros c; [done|].
  cbn [markAll]. destruct (markRow tr sr pr oxr c r) as [c1 m] eqn:Hm.
  specialize (IH c1).
  destruct (markAll tr sr pr oxr c1 rest) as [c2 ms] eqn:Hrest.
  cbn [snd fmap list_fmap] in *. rewrite IH. f_equal.
  unfold markRow in Hm. by injection Hm as _ <-.
Qed.

Lemma lookup_total_fields (md : list Marked) i m :
  md !! i = Some m → (fields <$> md) !!! i = fields m.
Proof.
  intros H. apply list_lookup_total_correct.
  by rewrite list_lookup_fmap, H.
Qed.

(** One iteration at an interior index: the fields are untouched, the flag
    of row [i] is raised and the counter incremented exactly when the spike
    test holds at [i]. *)
Lemma spikeStep_spec thr md n i :
  1 ≤ i → i + 1 < length md →
  let st := spikeStep thr (md, n) i in
  let hit := Spec.spikeAt thr (fields <$> md) i in
  fields <$> fst st = fields <$> md
  ∧ snd st = n + (if hit then 1 else 0)
  ∧ _qc_outlier <$> fst st
    = (if hit then <[i := true]> (_qc_outlier <$> md)
       else _qc_outlier <$> md).
Proof.
  intros H1 H2 st hit. subst st hit. unfold spikeStep, Spec.spikeAt.
  destruct (lookup_lt_is_Some_2 md (i - 1)) as [p Hp]; [lia|].
  destruct (lookup_lt_is_Some_2 md i) as [c Hc]; [lia|].
  destruct (lookup_lt_is_Some_2 md (i + 1)) as [x Hx]; [lia|].
  rewrite Hp, Hc, Hx.
  rewrite (lookup_total_fields md (i - 1) p), (lookup_total_fields md i c),
    (lookup_total_fields md (i + 1) x) by done.
  destruct (isSpike thr _ _ _); simpl.
  - rewrite !list_fmap_insert. simpl. split; [|split; [lia|done]].
    apply list_insert_id. by rewrite list_lookup_fmap, Hc.
  - split; [done|]. split; [lia|done].
Qed.

Lemma spikeLoop_prefix thr md (idxs : list nat) :
  Forall (λ i, 1 ≤ i ∧ i + 1 < length md) idxs →
  let st := foldl (spikeStep thr) (md, 0) idxs in
  let hits := filter (λ i, Spec.spikeAt thr (fields <$> md) i = true) idxs in
  fields <$> fst st = fields <$> md
  ∧ snd st = length hits
  ∧ _qc_outlier <$> fst st
    = foldl (λ flags i, <[i := true]> flags) (_qc_outlier <$> md) hits.
Proof.
  induction idxs as [|i idxs IH] using rev_ind; intros Hall; [done|].
  apply Forall_app in Hall as [Hall Hi]. rewrite Forall_singleton in Hi.
  simpl in Hi.
  specialize (IH Hall). cbv zeta in *. rewrite foldl_app. cbn [foldl].
  destruct (foldl (spikeStep thr) (md, 0) idxs) as [md1 n1]. simpl in IH.
  destruct IH as (Hf & Hn & Hflags).
  assert (length md1 = length md) as Hlen.
  { by rewrite <- (length_fmap fields md1), Hf, length_fmap. }
  pose proof (spikeStep_spec thr md1 n1 i ltac:(lia) ltac:(lia)) as Hstep.
  cbv zeta in Hstep. rewrite Hf in Hstep.
  destruct Hstep as (Hf' & Hn' & Hflags').
  rewrite filter_app, filter_cons, filter_nil.
  split; [done|]. rewrite Hn', Hflags', Hflags, Hn.
  destruct (Spec.spikeAt thr (fields <$> md) i) eqn:Hhit.
  - rewrite decide_True by done. rewrite length_app, foldl_app. simpl.
    split; [lia|done].
  - rewrite decide_False by done. rewrite app_nil_r.
    split; [lia|done].
Qed.

Lemma foldl_raise_lookup (flags : list bool) (hits : list nat) i :
  foldl (λ flags i, <[i := true]> flags) flags hits !! i
  = (λ b, b || bool_decide (i ∈ hits)) <$> flags !! i.
Proof.
  revert flags. induction hits as [|h hits IH]; intros flags; cbn [foldl].
  - destruct (flags !! i) as [b|]; simpl; [|done].
    by rewrite orb_false_r.
  - rewrite IH, list_lookup_insert.
    destruct (decide (h = i ∧ h < length flags)) as [[-> Hlt]|Hn]; simpl.
    + destruct (lookup_lt_is_Some_2 flags i Hlt) as [b ->]. simpl.
      rewrite bool_decide_true by left. by rewrite orb_true_r.
    + destruct (flags !! i) as [b|] eqn:Hb; simpl; [|done].
      f_equal. f_equal. apply bool_decide_ext. rewrite elem_of_cons.
      split; [tauto|]. intros [->|?]; [|done]. exfalso. apply Hn.
      split; [done|]. by eapply lookup_lt_Some.
Qed.

(** The spike loop as a whole. *)
Lemma spikeLoop_spec thr md :
  let data := fields <$> md in
  fields <$> fst (spikeLoop thr md) = data
  ∧ snd (spikeLoop thr md) = length (Spec.spikeIndices thr data)
  ∧ ∀ i, _qc_outlier <$> fst (spikeLoop thr md) !! i
         = (λ m, _qc_outlier m || bool_decide (i ∈ Spec.spikeIndices thr data))
           <$> md !! i.
Proof.
  intros data. unfold spikeLoop, Spec.spikeIndices.
  destruct (spikeLoop_prefix thr md (seq 1 (length md - 2)))
    as (Hf & Hn & Hflags).
  { apply Forall_forall. intros i Hi. apply elem_of_seq in Hi. lia. }
  subst data. rewrite length_fmap.
  split; [done|]. split; [done|]. intros i.
  rewrite <- list_lookup_fmap, Hflags, foldl_raise_lookup.
  rewrite list_lookup_fmap. by destruct (md !! i).
Qed.

End Spikes.

Module SpikeScenario.
Import OceanData Number QualityControl Spikes.

Lemma spikesDetected_spec data params removeOutliers :
  spikesDetected (report (performQualityControl data params removeOutliers))
  = match check_spikes params with
    | Some false => None
    | _ => Some (length (Spec.spikeIndices
                           (orDefault (spike_threshold params) 3) data))
    end.
Proof.
  unfold performQualityControl.
  pose proof (markAll_fields
                (default ((-2)%float, 40%float) (temp_range params))
                (default (0%float, 42%float) (salinity_range params))
                (default (0%float, 12000%float) (pressure_range params))
                (oxygen_range params) (mkCounts 0 0 0 0) data) as Hfields.
  destruct (markAll _ _ _ _ _ data) as [c markedData]. simpl in Hfields.
  pose proof (spikeLoop_spec (orDefault (spike_threshold params) 3)
                markedData) as (_ & Hn & _).
  rewrite Hfields in Hn.
  destruct (check_spikes params) as [[|]|].
  - destruct (spikeLoop _ markedData) as [md n]. simpl in *. by rewrite Hn.
  - done.
  - destruct (spikeLoop _ markedData) as [md n]. simpl in *. by rewrite Hn.
Qed.

Lemma elem_of_spikeIndices thr data i :
  i ∈ Spec.spikeIndices thr data
  ↔ 1 ≤ i ∧ i + 1 < length data ∧ Spec.spikeAt thr data i = true.
Proof.
  unfold Spec.spikeIndices. rewrite list_elem_of_filter, elem_of_seq.
  split; [intros (? & ? & ?)|intros (? & ? & ?)]; repeat split; try done; lia.
Qed.

(** C5 (as amended).  With [spike_threshold = 3] the spike detector flags no
    row of the table whose temperature readings are [10, 10, 10, 50, 10, 10]:
    the report says [spikesDetected = 0].  The detector follows the 3-point
    rule: it counts, and raises the flag of, exactly the interior rows [i]
    whose three readings are numbers with [stdWindow > 0] and
    [|row[i] - avgNeighbor| > spike_threshold * stdWindow]; at index 3 both
    neighbours read 10, so [stdWindow] is 0 and the row is not a spike. *)
Theorem spike_detector_scenario :
  let data := Spec.temperatures [10; 10; 10; 50; 10; 10]%float in
  (∀ params removeOutliers,
     spike_threshold params = Some 3%float →
     check_spikes params ≠ Some false →
     spikesDetected (report (performQualityControl data params removeOutliers))
     = Some 0)
  ∧ Spec.spikeIndices 3 data = []
  ∧ (sqrt (((10 - (10 + 10) / 2) * (10 - (10 + 10) / 2)
            + (10 - (10 + 10) / 2) * (10 - (10 + 10) / 2)) / 2) = 0)%float
  ∧ (∀ table params removeOutliers,
       check_spikes params ≠ Some false →
       spikesDetected
         (report (performQualityControl table params removeOutliers))
       = Some (length (Spec.spikeIndices
                         (orDefault (spike_threshold params) 3) table)))
  ∧ (∀ thr (markedData : list Marked) i,
       _qc_outlier <$> fst (spikeLoop thr markedData) !! i
       = (λ m, _qc_outlier m
               || bool_decide
                    (i ∈ Spec.spikeIndices thr (fields <$> markedData)))
         <$> markedData !! i)
  ∧ (∀ thr table i,
       i ∈ Spec.spikeIndices thr table
       ↔ 1 ≤ i ∧ i + 1 < length table
         ∧ isSpike thr (get (table !!! (i - 1)) "temperature")
             (get (table !!! i) "temperature")
             (get (table !!! (i + 1)) "temperature") = true)
  ∧ (∀ thr prev curr next,
       isSpike thr (VNumber prev) (VNumber curr) (VNumber next)
       = (let avgNeighbor := (prev + next) / 2 in
          let stdWindow :=
            sqrt (((prev - avgNeighbor) * (prev - avgNeighbor)
                   + (next - avgNeighbor) * (next - avgNeighbor)) / 2) in
          (0 <? stdWindow) && (thr * stdWindow <? abs (curr - avgNeighbor)))%float)
  ∧ (∀ thr prev curr next,
       isSpike thr prev curr next = true →
       ∃ p c n, prev = VNumber p ∧ curr = VNumber c ∧ next = VNumber n).
Proof.
  intros data.
  assert (Spec.spikeIndices 3 data = []) as Hnone by (by vm_compute).
  split; [|split; [|split; [|split; [|split; [|split; [|split]]]]]].
  - intros params rm Hthr Hcheck. rewrite spikesDetected_spec, Hthr.
    change (orDefault (Some 3%float) 3) with 3%float. rewrite Hnone.
    by destruct (check_spikes params) as [[|]|].
  - done.
  - by vm_compute.
  - intros table params rm Hcheck. rewrite spikesDetected_spec.
    by destruct (check_spikes params) as [[|]|].
  - intros thr md i. by destruct (spikeLoop_spec thr md) as (_ & _ & ->).
  - intros thr table i. apply elem_of_spikeIndices.
  - done.
  - intros thr [| |p|] [| |c|] [| |n|] H; try done. by exists p, c, n.
Qed.

(** C5, as stated, fails: on [10, 10, 10, 50, 10, 10] with threshold 3 the
    detector reports no spike, and index 3 in particular is not flagged as
    one. *)
Lemma spike_detector_scenario_counterexample :
  let data := Spec.temperatures [10; 10; 10; 50; 10; 10]%float in
  let params := mkQCParams None None None None None (Some 3%float) in
  spikesDetected (report (performQualityControl data params false)) = Some 0
  ∧ (3 ∉ Spec.spikeIndices 3 data)
  ∧ isSpike 3 (VNumber 10) (VNumber 50) (VNumber 10) = false
  ∧ (_qc_outlier <$> fst (spikeLoop 3 ((λ r, mkMarked r false) <$> data)))
    = [false; false; false; false; false; false].
Proof.
  intros data params. split; [by vm_compute|]. split; [|by vm_compute].
  assert (Spec.spikeIndices 3 data = []) as -> by (by vm_compute).
  apply not_elem_of_nil.
Qed.

End SpikeScenario.

Module TextFacts.
Import Text.

Lemma sapp_cons (x : ascii) (a b : string) :
  String x a +:+ b = String x (a +:+ b).
Proof. reflexivity. Qed.

Lemma sapp_nil_l (b : string) : "" +:+ b = b.
Proof. reflexivity. Qed.

Lemma sapp_assoc (a b c : string) : (a +:+ b) +:+ c = a +:+ (b +:+ c).
Proof.
  induction a as [|x a IH]; [done|]. rewrite !sapp_cons. by f_equal.
Qed.

Lemma sapp_nil_r (a : string) : a +:+ "" = a.
Proof. induction a as [|x a IH]; [done|]. rewrite sapp_cons. by f_equal. Qed.

Lemma sapp_nil_inv (a b : string) : a +:+ b = "" → a = "" ∧ b = "".
Proof. destruct a; [by rewrite sapp_nil_l|by rewrite sapp_cons]. Qed.

(** *** [split] and [join] *)

Lemma join_cons sep (p : string) (ps : list string) :
  join sep (p :: ps)
  = match ps with
    | [] => p
    | _ => p +:+ String sep (join sep ps)
    end.
Proof. unfold join. by destruct ps. Qed.

Lemma contains_app c (a b : string) :
  SimpleTables.contains c (a +:+ b) = SimpleTables.contains c a || SimpleTables.contains c b.
Proof.
  induction a as [|x a IH]; [done|]. rewrite sapp_cons. simpl.
  rewrite IH. by rewrite orb_assoc.
Qed.

Lemma split_cons_other sep (c : ascii) (s : string) :
  Ascii.eqb c sep = false →
  split sep (String c s)
  = String c (hd "" (split sep s)) :: tl (split sep s).
Proof.
  intros H. simpl. rewrite H. by destruct (split sep s).
Qed.

Lemma split_nonempty sep s : split sep s ≠ [].
Proof.
  induction s as [|c s IH]; simpl; [done|].
  destruct (Ascii.eqb c sep); [done|]. by destruct (split sep s).
Qed.

Lemma split_app sep (a rest : string) :
  SimpleTables.contains sep a = false →
  split sep (a +:+ String sep rest) = a :: split sep rest.
Proof.
  induction a as [|c a IH].
  - intros _. rewrite sapp_nil_l. simpl. by rewrite Ascii.eqb_refl.
  - intros H. simpl in H. apply orb_false_iff in H as [Hc Ha].
    rewrite sapp_cons. simpl. by rewrite Hc, (IH Ha).
Qed.

Lemma split_none sep (a : string) :
  SimpleTables.contains sep a = false → split sep a = [a].
Proof.
  induction a as [|c a IH]; simpl; [done|].
  intros H. apply orb_false_iff in H as [Hc Ha]. by rewrite Hc, (IH Ha).
Qed.

Lemma split_join sep (parts : list string) :
  parts ≠ [] →
  Forall (λ p, SimpleTables.contains sep p = false) parts →
  split sep (join sep parts) = parts.
Proof.
  induction parts as [|p ps IH]; [done|]. intros _ Hall.
  apply Forall_cons in Hall as [Hp Hps]. rewrite join_cons.
  destruct ps as [|q ps]; [by apply split_none|].
  rewrite split_app by done. f_equal. by apply IH.
Qed.

Lemma contains_join c sep (parts : list string) :
  Ascii.eqb sep c = false →
  Forall (λ p, SimpleTables.contains c p = false) parts →
  SimpleTables.contains c (join sep parts) = false.
Proof.
  intros Hsep. induction parts as [|p ps IH]; [done|]. intros Hall.
  apply Forall_cons in Hall as [Hp Hps]. rewrite join_cons.
  destruct ps as [|q ps]; [done|].
  rewrite contains_app, Hp. simpl. rewrite Hsep. by apply IH.
Qed.

(** *** [trim] *)

Lemma plain_byte c :
  SimpleTables.plain c = true
  → isWhiteSpace c = false ∧ (N_of_ascii c < 128)%N.
Proof.
  unfold SimpleTables.plain. intros [Hb Hw]%andb_true_iff.
  apply negb_true_iff in Hw. by apply N.ltb_lt in Hb.
Qed.

Lemma isWhiteSpace2_bytes c1 c2 :
  isWhiteSpace2 c1 c2 = true
  → (128 <= N_of_ascii c1)%N ∧ (128 <= N_of_ascii c2)%N.
Proof.
  unfold isWhiteSpace2. intros [H1 H2]%andb_true_iff.
  apply N.eqb_eq in H1, H2. lia.
Qed.

Lemma isWhiteSpace3_bytes c1 c2 c3 :
  isWhiteSpace3 c1 c2 c3 = true
  → (128 <= N_of_ascii c1)%N ∧ (128 <= N_of_ascii c2)%N
    ∧ (128 <= N_of_ascii c3)%N.
Proof.
  unfold isWhiteSpace3. cbv zeta.
  rewrite !orb_true_iff, !andb_true_iff, !orb_true_iff, !andb_true_iff.
  rewrite !N.eqb_eq, !N.leb_le. lia.
Qed.

Lemma trimStart_cons c1 rest1 :
  trimStart (String c1 rest1)
  = if isWhiteSpace c1 then trimStart rest1
    else
      match rest1 with
      | String c2 rest2 =>
          if isWhiteSpace2 c1 c2 then trimStart rest2
          else
            match rest2 with
            | String c3 rest3 =>
                if isWhiteSpace3 c1 c2 c3 then trimStart rest3
                else String c1 rest1
            | EmptyString => String c1 rest1
            end
      | EmptyString => String c1 rest1
      end.
Proof. reflexivity. Qed.

(** A string that starts with a plain character has no white space to its
    left. *)
Lemma trimStart_plain c s :
  SimpleTables.plain c = true → trimStart (String c s) = String c s.
Proof.
  intros [Hw Hb]%plain_byte. rewrite trimStart_cons, Hw.
  destruct s as [|c2 s]; [done|].
  destruct (isWhiteSpace2 c c2) eqn:H2.
  { apply isWhiteSpace2_bytes in H2. lia. }
  destruct s as [|c3 s]; [done|].
  destruct (isWhiteSpace3 c c2 c3) eqn:H3; [|done].
  apply isWhiteSpace3_bytes in H3. lia.
Qed.

(** A string that ends with a plain character is not white space only. *)
Lemma trimStart_ends_plain (a : string) c :
  SimpleTables.plain c = true → trimStart (a +:+ String c "") ≠ "".
Proof.
  intros Hc. pose proof (plain_byte c Hc) as [_ Hb].
  remember (String.length a) as n eqn:Hn.
  revert a Hn. induction n as [n IH] using lt_wf_ind. intros a Hn.
  destruct a as [|c1 a].
  { rewrite sapp_nil_l, trimStart_plain; done. }
  rewrite sapp_cons, trimStart_cons.
  destruct (isWhiteSpace c1).
  { apply (IH (String.length a)); [simpl in Hn; lia|done]. }
  destruct a as [|c2 a].
  { rewrite sapp_nil_l. destruct (isWhiteSpace2 c1 c) eqn:H2; [|done].
    apply isWhiteSpace2_bytes in H2. lia. }
  rewrite sapp_cons. destruct (isWhiteSpace2 c1 c2).
  { apply (IH (String.length a)); [simpl in Hn; lia|done]. }
  destruct a as [|c3 a].
  { rewrite sapp_nil_l. destruct (isWhiteSpace3 c1 c2 c) eqn:H3; [|done].
    apply isWhiteSpace3_bytes in H3. lia. }
  rewrite sapp_cons. destruct (isWhiteSpace3 c1 c2 c3); [|done].
  apply (IH (String.length a)); [simpl in Hn; lia|done].
Qed.

(** A string that ends with a plain character has no white space to its
    right. *)
Lemma trimEnd_ends_plain (a : string) c :
  SimpleTables.plain c = true
  → trimEnd (a +:+ String c "") = a +:+ String c "".
Proof.
  intros Hc. induction a as [|c1 a IH].
  - rewrite sapp_nil_l. cbn [trimEnd]. by rewrite trimStart_plain.
  - rewrite sapp_cons. cbn [trimEnd]. rewrite IH.
    pose proof (trimStart_ends_plain (String c1 a) c Hc) as Hne.
    rewrite sapp_cons in Hne.
    by destruct (trimStart (String c1 (a +:+ String c ""))).
Qed.

Lemma trim_plain (s : string) c1 s1 s2 c2 :
  s = String c1 s1 → s = s2 +:+ String c2 "" →
  SimpleTables.plain c1 = true → SimpleTables.plain c2 = true →
  trim s = s.
Proof.
  intros H1 H2 Hc1 Hc2. unfold trim.
  assert (trimStart s = s) as -> by (by rewrite H1, trimStart_plain).
  rewrite H2. by apply trimEnd_ends_plain.
Qed.

Lemma lastChar_snoc (front : string) c :
  SimpleTables.lastChar (front +:+ String c "") = Some c.
Proof.
  induction front as [|c1 front IH]; [done|].
  rewrite sapp_cons. cbn [SimpleTables.lastChar]. rewrite IH.
  by destruct front.
Qed.

Lemma lastChar_Some s c :
  SimpleTables.lastChar s = Some c → ∃ front, s = front +:+ String c "".
Proof.
  induction s as [|c1 s IH]; [done|]. cbn [SimpleTables.lastChar].
  destruct s as [|c2 s].
  - intros [= ->]. by exists "".
  - intros (front & ->)%IH. by exists (String c1 front).
Qed.

(** A simple text, by its first and last characters. *)
Lemma simpleText_ends s :
  SimpleTables.simpleText s
  ↔ (∃ c rest, s = String c rest ∧ SimpleTables.plain c = true)
    ∧ (∃ front c, s = front +:+ String c "" ∧ SimpleTables.plain c = true)
    ∧ SimpleTables.contains "," s = false
    ∧ SimpleTables.contains LF s = false.
Proof.
  unfold SimpleTables.simpleText, SimpleTables.plainEnds. split.
  - intros (Hends & Hcomma & Hlf). destruct s as [|c1 rest]; [done|].
    destruct (SimpleTables.lastChar (String c1 rest)) as [c2|] eqn:Hlast;
      [|done].
    apply andb_true_iff in Hends as [H1 H2].
    apply lastChar_Some in Hlast as [front Hfront].
    split; [by eexists _, _|]. split; [by eexists _, _|done].
  - intros ((c1 & rest & -> & H1) & (front & c2 & Hfront & H2) & ? & ?).
    split; [|done]. rewrite Hfront at 1. rewrite lastChar_snoc, H1, H2.
    by destruct front.
Qed.

(** What a simple text is to [trim]. *)
Lemma simpleText_trim s :
  SimpleTables.simpleText s →
  s ≠ "" ∧ trim s = s
  ∧ SimpleTables.contains "," s = false ∧ SimpleTables.contains LF s = false.
Proof.
  intros ((c1 & s1 & H1 & Hc1) & (s2 & c2 & H2 & Hc2) & Hcomma & Hlf)
    %simpleText_ends.
  split; [by rewrite H1|]. split; [by eapply trim_plain|done].
Qed.

End TextFacts.

Module DecimalFacts.
Import Number Text TextFacts.

(** The ten digits, one by one. *)
Ltac each_digit d Hd :=
  let H := fresh in
  assert (d = 0 ∨ d = 1 ∨ d = 2 ∨ d = 3 ∨ d = 4 ∨ d = 5 ∨ d = 6 ∨ d = 7
          ∨ d = 8 ∨ d = 9)%N as H by lia;
  clear Hd;
  destruct H as [->|[->|[->|[->|[->|[->|[->|[->|[->| ->]]]]]]]]].

Lemma digitOf_digitChar d : (d < 10)%N → digitOf (digitChar d) = Some d.
Proof. intros Hd. each_digit d Hd; reflexivity. Qed.

Lemma digitChar_plain d :
  (d < 10)%N →
  isWhiteSpace (digitChar d) = false
  ∧ Ascii.eqb (digitChar d) "," = false
  ∧ Ascii.eqb (digitChar d) LF = false.
Proof. intros Hd. each_digit d Hd; by vm_compute. Qed.

Lemma digitChar_ascii d :
  (d < 10)%N → SimpleTables.plain (digitChar d) = true.
Proof. intros Hd. each_digit d Hd; by vm_compute. Qed.

Lemma digitChar_sign d :
  (d < 10)%N →
  ∀ s, signOf (String (digitChar d) s) = (false, String (digitChar d) s)
       ∧ String.prefix "Infinity" (String (digitChar d) s) = false.
Proof. intros Hd s. each_digit d Hd; by vm_compute. Qed.

Lemma mod10_lt n : (n mod 10 < 10)%N.
Proof. by apply N.mod_lt. Qed.

Lemma digits_fixedDigits w n acc k rest :
  digits acc k (fixedDigits w n +:+ rest)
  = digits (acc * 10 ^ N.of_nat w + n mod 10 ^ N.of_nat w)%N (k + w) rest.
Proof.
  revert n rest. induction w as [|w IH]; intros n rest.
  - simpl. rewrite sapp_nil_l, N.mod_1_r, N.mul_1_r, N.add_0_r.
    by rewrite Nat.add_0_r.
  - cbn [fixedDigits]. rewrite sapp_assoc, sapp_cons, sapp_nil_l, IH.
    cbn [digits]. rewrite digitOf_digitChar by apply mod10_lt.
    f_equal; [|lia].
    rewrite Nat2N.inj_succ, N.pow_succ_r'.
    rewrite (N.Div0.mod_mul_r n 10 (10 ^ N.of_nat w)). lia.
Qed.

Lemma countDigits_bound fuel n :
  (n < 10 * 2 ^ N.of_nat fuel)%N →
  (n < 10 ^ N.of_nat (countDigits fuel n))%N.
Proof.
  revert n. induction fuel as [|fuel IH]; intros n Hn.
  - simpl in *. lia.
  - cbn [countDigits]. destruct (N.ltb_spec n 10) as [Hlt|Hge].
    + simpl. lia.
    + rewrite Nat2N.inj_succ, N.pow_succ_r'.
      assert (n / 10 < 10 ^ N.of_nat (countDigits fuel (n / 10)))%N as H.
      { apply IH. rewrite Nat2N.inj_succ, N.pow_succ_r' in Hn.
        apply N.Div0.div_lt_upper_bound. lia. }
      pose proof (N.Div0.div_mod n 10) as Hdm.
      pose proof (mod10_lt n). lia.
Qed.

Lemma showN_bound n :
  (n < 10 ^ N.of_nat (countDigits (N.to_nat (N.log2 n)) n))%N.
Proof.
  apply countDigits_bound. rewrite N2Nat.id.
  destruct (N.eq_dec n 0%N) as [->|Hn]; [by vm_compute|].
  pose proof (N.log2_spec n ltac:(lia)) as [_ H].
  rewrite N.pow_succ_r' in H. lia.
Qed.

Lemma countDigits_pos fuel n : 0 < countDigits fuel n.
Proof. destruct fuel; simpl; [lia|]. destruct (_ <? _)%N; lia. Qed.

Lemma digits_showN n acc k rest :
  digits acc k (showN n +:+ rest)
  = digits (acc * 10 ^ N.of_nat (countDigits (N.to_nat (N.log2 n)) n) + n)%N
      (k + countDigits (N.to_nat (N.log2 n)) n) rest.
Proof.
  unfold showN. rewrite digits_fixedDigits.
  by rewrite (N.mod_small n) by apply showN_bound.
Qed.

(** A digit string of positive width starts and ends with a digit. *)
Lemma fixedDigits_last w n :
  fixedDigits (S w) n
  = fixedDigits w (n / 10) +:+ String (digitChar (n mod 10)) "".
Proof. reflexivity. Qed.

Lemma fixedDigits_first w n :
  ∃ d s, (d < 10)%N ∧ fixedDigits (S w) n = String (digitChar d) s.
Proof.
  revert n. induction w as [|w IH]; intros n.
  - exists (n mod 10)%N, "". split; [apply mod10_lt|done].
  - destruct (IH (n / 10)%N) as (d & s & Hd & Hs).
    exists d, (s +:+ String (digitChar (n mod 10)) "").
    split; [done|]. rewrite fixedDigits_last, Hs. by rewrite sapp_cons.
Qed.

Lemma contains_fixedDigits c w n :
  (∀ d, (d < 10)%N → Ascii.eqb (digitChar d) c = false) →
  SimpleTables.contains c (fixedDigits w n) = false.
Proof.
  intros Hc. revert n. induction w as [|w IH]; intros n; [done|].
  rewrite fixedDigits_last, contains_app, IH. simpl.
  rewrite Hc by apply mod10_lt. done.
Qed.

End DecimalFacts.

Module Rounding.
Import OceanData Number Text.

Lemma round_half_away_integer (k : Z) : round_half_away (inject_Z k) = k.
Proof.
  unfold round_half_away, inject_Z, Qle_bool, Qplus, Qopp, Qfloor.
  cbn [Qnum Qden]. change (Z.pos (1 * 2)) with 2%Z.
  destruct (0 * 1 <=? k * 1)%Z; Z.to_euclidean_division_equations; lia.
Qed.

Lemma round_half_away_fraction (negative : bool) (n : positive) (k : Z) :
  (0 < k)%Z →
  round_half_away (Qmake (if negative then Z.neg n else Z.pos n)
                         (Z.to_pos (2 ^ k)))
  = let r := ((2 * Z.pos n + 2 ^ k) / 2 ^ (k + 1))%Z in
    if negative then (- r)%Z else r.
Proof.
  intros Hk. assert (0 < 2 ^ k)%Z as Hpow by (apply Z.pow_pos_nonneg; lia).
  unfold round_half_away, Qle_bool, Qplus, Qopp, Qfloor. cbn [Qnum Qden].
  rewrite Pos2Z.inj_mul, Z2Pos.id by done.
  rewrite Z.pow_add_r, Z.pow_1_r by lia.
  destruct negative; cbn zeta.
  - replace (0 * _ <=? _ * 1)%Z with false by (symmetry; apply Z.leb_gt; lia).
    f_equal. f_equal. simpl Z.opp. lia.
  - replace (0 * _ <=? _ * 1)%Z with true by (symmetry; apply Z.leb_le; lia).
    f_equal. lia.
Qed.

Lemma roundScaled_exact (s : bool) (m : positive) (e : Z) (d : nat) :
  round_half_away
    (let n := ((if s then Z.neg m else Z.pos m) * 10 ^ Z.of_nat d)%Z in
     if (0 <=? e)%Z then inject_Z (n * 2 ^ e)
     else Qmake n (Z.to_pos (2 ^ (- e))))
  = let r := Z.of_N (roundScaled m e d) in if s then (- r)%Z else r.
Proof.
  assert (0 < 10 ^ Z.of_nat d)%Z as Hten by (apply Z.pow_pos_nonneg; lia).
  cbv zeta. unfold roundScaled. cbv zeta.
  destruct (Z.leb_spec 0 e) as [He|He].
  - rewrite round_half_away_integer.
    assert (0 < 2 ^ e)%Z by (apply Z.pow_pos_nonneg; lia).
    rewrite Z2N.id by nia. destruct s; nia.
  - assert (0 < 2 ^ (- e))%Z by (apply Z.pow_pos_nonneg; lia).
    assert (0 < 2 ^ (- e + 1))%Z by (apply Z.pow_pos_nonneg; lia).
    destruct (10 ^ Z.of_nat d)%Z as [|t|t] eqn:Ht; try lia.
    replace ((if s then Z.neg m else Z.pos m) * Z.pos t)%Z
      with (if s then Z.neg (m * t) else Z.pos (m * t)) by (by destruct s).
    rewrite (round_half_away_fraction s (m * t) (- e)) by lia.
    cbv zeta. rewrite Z2N.id; [by rewrite Pos2Z.inj_mul|].
    apply Z.div_pos; lia.
Qed.

Lemma ltb_zero_finite (x : float) s m e :
  Prim2SF x = S754_finite s m e → PrimFloat.ltb x 0 = s.
Proof.
  intros Hx. rewrite ltb_spec, Hx. by destruct s.
Qed.

(** [Number(x.toFixed(digits))] is the number that the digits [toFixed]
    prints denote. *)
Lemma toFixedNumber_decimal (d : nat) (x : float) :
  toFixedNumber d x
  = match Prim2SF x with
    | S754_finite s m e =>
        if PrimFloat.leb 1e21 (abs x) then x
        else toNumber s (roundScaled m e d) (- Z.of_nat d)
    | S754_zero _ => 0%float
    | _ => x
    end.
Proof.
  unfold toFixedNumber, exactTimes.
  destruct (Prim2SF x) as [s|s| |s m e] eqn:Hx; try done.
  - rewrite <- (SF2Prim_Prim2SF x), Hx. by destruct s.
  - destruct (PrimFloat.leb 1e21 (abs x)); [done|].
    pose proof (roundScaled_exact s m e d) as Hr.
    cbv zeta in Hr |- *. rewrite Hr.
    rewrite (ltb_zero_finite x s m e Hx). unfold toNumber.
    destruct (N.eqb_spec (roundScaled m e d) 0) as [->|Hn].
    + by destruct s.
    + replace ((if s then (- Z.of_N (roundScaled m e d))%Z
                else Z.of_N (roundScaled m e d)) =? 0)%Z with false
        by (symmetry; apply Z.eqb_neq; destruct s; lia).
      destruct d as [|d].
      * simpl. by rewrite Z.mul_1_r.
      * replace (0 <=? - Z.of_nat (S d))%Z with false
          by (symmetry; apply Z.leb_gt; lia).
        by rewrite Z.opp_involutive.
Qed.

End Rounding.

Module NumberText.
Import OceanData Number Text TextFacts DecimalFacts DataFiles Rounding.

Section fixedPoint.
Context (negative : bool) (a : N) (d : nat).
Let whole := (a / 10 ^ N.of_nat (S d))%N.
Let frac := (a mod 10 ^ N.of_nat (S d))%N.
Let text := fixedPoint negative a (S d).

Lemma fixedPoint_unfold :
  text = (if negative then "-" else "")
         +:+ showN whole +:+ String "." (fixedDigits (S d) frac).
Proof. reflexivity. Qed.

Lemma showN_first :
  ∃ d0 s0, (d0 < 10)%N ∧ showN whole = String (digitChar d0) s0.
Proof.
  unfold showN.
  destruct (countDigits (N.to_nat (N.log2 whole)) whole) as [|c] eqn:Hc.
  - pose proof (countDigits_pos (N.to_nat (N.log2 whole)) whole). lia.
  - apply fixedDigits_first.
Qed.

Lemma parseFloat_fixedPoint :
  parseFloat text = Some (toNumber negative a (- Z.of_nat (S d))).
Proof.
  destruct showN_first as (d0 & s0 & Hd0 & Hs0).
  destruct (digitChar_plain d0 Hd0) as (Hws & _ & _).
  set (body := showN whole +:+ String "." (fixedDigits (S d) frac)).
  assert (body = String (digitChar d0)
                   (s0 +:+ String "." (fixedDigits (S d) frac))) as Hbody.
  { unfold body. by rewrite Hs0, sapp_cons. }
  assert (signOf (trimStart text) = (negative, body)) as Hsign.
  { rewrite fixedPoint_unfold. fold body. destruct negative.
    - rewrite sapp_cons, sapp_nil_l. by rewrite trimStart_plain.
    - rewrite sapp_nil_l, Hbody.
      rewrite trimStart_plain by (by apply digitChar_ascii).
      by destruct (digitChar_sign d0 Hd0
                     (s0 +:+ String "." (fixedDigits (S d) frac))). }
  assert (String.prefix "Infinity" body = false) as Hprefix.
  { rewrite Hbody.
    by destruct (digitChar_sign d0 Hd0
                   (s0 +:+ String "." (fixedDigits (S d) frac))). }
  set (c := countDigits (N.to_nat (N.log2 whole)) whole).
  assert (digits 0 0 body = (whole, c, String "." (fixedDigits (S d) frac)))
    as Hwhole.
  { unfold body. rewrite digits_showN. fold c. by rewrite N.mul_0_l, N.add_0_l. }
  assert (digits whole 0 (fixedDigits (S d) frac) = (a, S d, "")) as Hfrac.
  { rewrite <- (sapp_nil_r (fixedDigits (S d) frac)), digits_fixedDigits.
    simpl digits. f_equal. f_equal. unfold frac, whole.
    rewrite N.Div0.mod_mod.
    pose proof (N.Div0.div_mod a (10 ^ N.of_nat (S d))). lia. }
  unfold parseFloat. rewrite Hsign, Hprefix, Hwhole, Hfrac.
  replace (c + S d =? 0) with false by (symmetry; apply Nat.eqb_neq; lia).
  reflexivity.
Qed.

Lemma fixedPoint_plain : SimpleTables.simpleText text.
Proof.
  destruct showN_first as (d0 & s0 & Hd0 & Hs0).
  pose proof (digitChar_ascii d0 Hd0) as Hws.
  pose proof (digitChar_ascii (frac mod 10) (mod10_lt frac)) as Hws'.
  assert (∃ c1 s1, text = String c1 s1 ∧ SimpleTables.plain c1 = true)
    as H1.
  { rewrite fixedPoint_unfold, Hs0. destruct negative.
    - eexists _, _. by rewrite sapp_cons.
    - eexists _, _. by rewrite sapp_nil_l, sapp_cons. }
  assert (∃ s2, text = s2 +:+ String (digitChar (frac mod 10)) "")
    as (s2 & H2).
  { rewrite fixedPoint_unfold, fixedDigits_last.
    eexists ((if negative then "-" else "") +:+ showN whole
             +:+ String "." (fixedDigits d (frac / 10))).
    by rewrite !sapp_assoc. }
  apply simpleText_ends. split; [done|]. split; [by eexists _, _|].
  rewrite fixedPoint_unfold.
  split; rewrite !contains_app; cbn [SimpleTables.contains];
    unfold showN; rewrite !contains_fixedDigits;
    try (intros d' Hd'; by destruct (digitChar_plain d' Hd') as (_ & ? & ?));
    by destruct negative.
Qed.

End fixedPoint.

Lemma printable_not_nan x : SimpleTables.printable x → is_nan x = false.
Proof.
  unfold SimpleTables.printable, Prim2SF. by destruct (is_nan x).
Qed.

Lemma infinity_simple (s : bool) :
  SimpleTables.simpleText (if s then "-Infinity" else "Infinity").
Proof. by destruct s. Qed.

(** A printable number is written as a simple text and is read back as the
    number rounded to four decimals. *)
Lemma cell_number rt x :
  SimpleTables.printable x →
  let text := cellText rt (VNumber x) in
  parseCell (Some text) = VNumber (toFixedNumber 4 x)
  ∧ SimpleTables.simpleText text.
Proof.
  intros Hp text. subst text. unfold cellText.
  rewrite (printable_not_nan x Hp). unfold SimpleTables.printable in Hp.
  rewrite toFixedNumber_decimal. unfold toFixed, parseCell.
  destruct (Prim2SF x) as [s|s| |s m e] eqn:Hx; [| |done|].
  - split; [|apply (fixedPoint_plain false 0 3)].
    by rewrite (parseFloat_fixedPoint false 0 3).
  - assert (x = if s then neg_infinity else infinity) as Hinf.
    { rewrite <- (SF2Prim_Prim2SF x), Hx. by destruct s. }
    split; [by destruct s; rewrite Hinf|apply infinity_simple].
  - rewrite Hp. split; [|apply fixedPoint_plain].
    by rewrite (parseFloat_fixedPoint s (roundScaled m e 4) 3).
Qed.

Lemma cell_string rt s :
  SimpleTables.simpleText s → parseFloat s = None →
  parseCell (Some (cellText rt (VString s))) = VString s.
Proof. intros _ H. simpl. by rewrite H. Qed.

End NumberText.

Module CsvFacts.
Import OceanData OceanDataFacts Number Text TextFacts DecimalFacts NumberText.
Import DataFiles.

Lemma join_first sep (p : string) (ps : list string) :
  ∃ t, join sep (p :: ps) = p +:+ t.
Proof.
  rewrite join_cons. destruct ps; [|by eexists].
  exists EmptyString. by rewrite sapp_nil_r.
Qed.

Lemma join_last sep (ps : list string) (p : string) :
  ∃ front, join sep (ps ++ [p]) = front +:+ p.
Proof.
  induction ps as [|q ps IH].
  { exists EmptyString. reflexivity. }
  destruct IH as [front IH].
  change ((q :: ps) ++ [p]) with (q :: (ps ++ [p])). rewrite join_cons.
  destruct (ps ++ [p]) eqn:Heq; [by destruct ps|]. rewrite IH.
  exists (q +:+ String sep front). by rewrite sapp_assoc, sapp_cons.
Qed.

Lemma join_snoc sep (ps : list string) (p : string) :
  ps ≠ [] → join sep (ps ++ [p]) = join sep ps +:+ String sep p.
Proof.
  induction ps as [|q ps IH]; [done|]. intros _.
  change ((q :: ps) ++ [p]) with (q :: (ps ++ [p])). rewrite !join_cons.
  destruct ps as [|q' ps'].
  - cbn [app]. by rewrite join_cons.
  - rewrite IH by done. cbn [app]. by rewrite sapp_assoc, sapp_cons.
Qed.

Lemma nonempty_last {A} (l : list A) :
  l ≠ [] → ∃ init x, l = init ++ [x].
Proof.
  induction l as [|a l _] using rev_ind; [done|]. intros _. by eexists _, _.
Qed.

Lemma fillRow_lookup (f : string → string) pre hs (r : row) h :
  fillRow (length pre) hs (f <$> (pre ++ hs)) r !! h
  = if decide (h ∈ hs) then Some (parseCell (Some (f h))) else r !! h.
Proof.
  revert pre r. induction hs as [|h0 hs IH]; intros pre r.
  - cbn [fillRow].
    destruct (decide (h ∈ [])) as [H|_]; [by apply elem_of_nil in H|done].
  - cbn [fillRow].
    assert ((f <$> (pre ++ h0 :: hs)) !! length pre = Some (f h0)) as ->.
    { rewrite list_lookup_fmap, lookup_app_r by lia.
      by rewrite Nat.sub_diag. }
    replace (S (length pre)) with (length (pre ++ [h0]))
      by (rewrite length_app; simpl; lia).
    replace (pre ++ h0 :: hs) with ((pre ++ [h0]) ++ hs)
      by (by rewrite <- app_assoc).
    rewrite IH.
    destruct (decide (h ∈ hs)) as [Hin|Hnin].
    + rewrite decide_True; [done|]. by right.
    + destruct (decide (h = h0)) as [->|Hne].
      * rewrite lookup_insert_eq, decide_True; [done|]. by left.
      * rewrite lookup_insert_ne by done. rewrite decide_False; [done|].
        by intros [?|?]%elem_of_cons.
Qed.

Lemma simpleValue_present v :
  SimpleTables.simpleValue v → isMissing v = false.
Proof.
  destruct v as [| |x|s]; try done; simpl.
  - apply printable_not_nan.
  - intros [(Hne & _)%simpleText_trim _]. by apply bool_decide_eq_false.
Qed.

(** What an empty or simple cell is to the reader. *)
Lemma cell_shape (text : string) :
  text = "" ∨ SimpleTables.simpleText text →
  trim text = text
  ∧ SimpleTables.contains "," text = false
  ∧ SimpleTables.contains LF text = false.
Proof. intros [->|(_ & ? & ? & ?)%simpleText_trim]; done. Qed.

(** The cell of a writable value: it is read back as [readValue] says, and
    it is a simple text, or empty for a missing value. *)
Lemma cell_writable rt v :
  SimpleTables.writable v →
  let text := cellText rt v in
  parseCell (Some text) = SimpleTables.readValue v
  ∧ (text = "" ∨ SimpleTables.simpleText text)
  ∧ (isMissing v = false → SimpleTables.simpleText text).
Proof.
  intros Hw text. unfold SimpleTables.readValue.
  destruct Hw as [Hmissing|Hsimple].
  - rewrite Hmissing. assert (text = "") as ->; [|split; [done|split; [by left|done]]].
    unfold text. destruct v as [| |x|s]; try done; simpl in *.
    + by rewrite Hmissing.
    + by apply bool_decide_eq_true in Hmissing.
  - rewrite (simpleValue_present v Hsimple). unfold text.
    destruct v as [| |x|s]; try done.
    + pose proof (cell_number rt x Hsimple) as Hcell. cbv zeta in Hcell.
      destruct Hcell as (? & ?). by split; [|split; [right|]].
    + destruct Hsimple as [Hs Hparse].
      split; [by apply cell_string|]. by split; [right|].
Qed.

Section row.
Context (rt : Runtime) (headers : list string) (r : row).
Hypothesis Hheaders : headers ≠ [].
Hypothesis Hvalues : ∀ h, h ∈ headers → SimpleTables.writable (get r h).
Let cells := (λ h, cellText rt (get r h)) <$> headers.
Let line := join "," cells.

Lemma cells_plain :
  Forall (λ text, trim text = text
                  ∧ SimpleTables.contains "," text = false
                  ∧ SimpleTables.contains LF text = false) cells.
Proof.
  apply Forall_fmap, Forall_forall. intros h Hh. simpl.
  destruct (cell_writable rt (get r h) (Hvalues h Hh)) as (_ & ? & _).
  by apply cell_shape.
Qed.

Lemma line_no_LF : SimpleTables.contains LF line = false.
Proof.
  apply contains_join; [done|].
  eapply Forall_impl; [apply cells_plain|]. by intros ? (_ & _ & ?).
Qed.

Lemma line_cells : trim <$> split "," line = cells.
Proof.
  unfold line. rewrite split_join.
  - apply list_eq. intros i. rewrite list_lookup_fmap.
    destruct (cells !! i) as [text|] eqn:Hi; [|done]. simpl. f_equal.
    pose proof cells_plain as H. rewrite Forall_lookup in H.
    by destruct (H i text Hi) as (? & _).
  - unfold cells. by destruct headers.
  - eapply Forall_impl; [apply cells_plain|]. by intros ? (_ & ? & _).
Qed.

(** The line ends with a plain character when the row has two cells or
    more, or one cell that is not empty. *)
Lemma line_ends :
  (2 ≤ length headers
   ∨ ∀ h, h ∈ headers → isMissing (get r h) = false) →
  ∃ front c, line = front +:+ String c "" ∧ SimpleTables.plain c = true.
Proof.
  intros Hshape.
  destruct (nonempty_last headers Hheaders) as (init & h & Hh).
  assert (cells = ((λ h, cellText rt (get r h)) <$> init)
                  ++ [cellText rt (get r h)]) as Hcells.
  { unfold cells. by rewrite Hh, fmap_app. }
  set (text := cellText rt (get r h)) in *.
  assert (h ∈ headers) as Hin by (rewrite Hh; apply elem_of_app; right; left).
  destruct (cell_writable rt (get r h) (Hvalues h Hin))
    as (_ & Hcell & Hne).
  fold text in Hcell, Hne.
  destruct Hcell as [Hempty|(_ & (s2 & c & Hlast & Hc) & _)%simpleText_ends].
  - destruct (decide (init = [])) as [->|Hinit].
    + destruct Hshape as [Hlen|Hpresent].
      * rewrite Hh in Hlen. simpl in Hlen. lia.
      * destruct (simpleText_trim _ (Hne (Hpresent h Hin))) as [Hfirst _].
        by rewrite Hempty in Hfirst.
    + exists (join "," ((λ h, cellText rt (get r h)) <$> init)), ","%char.
      split; [|done]. unfold line. rewrite Hcells, Hempty.
      apply join_snoc. by destruct init.
  - destruct (join_last "," ((λ h, cellText rt (get r h)) <$> init) text)
      as [front Hfront].
    exists (front +:+ s2), c. split; [|done]. unfold line.
    by rewrite Hcells, Hfront, Hlast, sapp_assoc.
Qed.

Lemma parse_line :
  fillRow 0 headers (trim <$> split "," line) ∅
  = SimpleTables.readRow headers r.
Proof.
  rewrite line_cells. apply map_eq. intros h.
  pose proof (fillRow_lookup (λ h, cellText rt (get r h)) [] headers ∅ h)
    as Hl.
  simpl in Hl. fold cells in Hl. rewrite Hl.
  unfold SimpleTables.readRow. rewrite forEach_assign_lookup.
  destruct (decide (h ∈ headers)) as [Hin|Hnin]; [|done]. f_equal.
  by destruct (cell_writable rt (get r h) (Hvalues h Hin)) as (? & _).
Qed.

End row.

End CsvFacts.

Module CsvRoundTrip.
Import OceanData OceanDataFacts Number Text TextFacts DecimalFacts NumberText.
Import DataFiles CsvFacts.

Lemma serializeData_csv rt firstRow rest :
  serializeData rt (PArray (firstRow :: rest)) "csv"
  = join LF
      (join "," (keys firstRow)
       :: ((λ r, join "," ((λ h, cellText rt (get r h)) <$> keys firstRow))
             <$> firstRow :: rest)).
Proof. reflexivity. Qed.

Lemma parseCSV_length content : length (parseCSV content) ≤ MAX_DATA_ROWS.
Proof. unfold parseCSV. rewrite length_fmap, length_take. lia. Qed.

Section table.
Context (rt : Runtime) (firstRow : row) (rest : OceanData).
Let data := firstRow :: rest.
Hypothesis Hwritable : SimpleTables.writableTable data.
Let headers := keys firstRow.
Let line (r : row) := join "," ((λ h, cellText rt (get r h)) <$> headers).
Let headerLine := join "," headers.
Let content := join LF (headerLine :: (line <$> data)).

Lemma headers_nonempty : headers ≠ [].
Proof.
  destruct Hwritable as (_ & Hdom & _). intros Hnil. apply Hdom.
  apply set_eq. intros k. rewrite <- elem_of_keys_dom. fold headers.
  rewrite Hnil. split; [by intros ?%elem_of_nil|by intros ?%elem_of_empty].
Qed.

Lemma headers_simple : Forall SimpleTables.simpleText headers.
Proof.
  destruct Hwritable as (_ & _ & Hkeys & _). apply Forall_forall.
  intros k Hk. by apply Hkeys, elem_of_keys_dom.
Qed.

Lemma row_values r :
  r ∈ data → ∀ h, h ∈ headers → SimpleTables.writable (get r h).
Proof.
  destruct Hwritable as (_ & _ & _ & Hrows & _). intros Hr h Hh.
  apply Hrows; [done|]. by apply elem_of_keys_dom.
Qed.

Lemma last_row_shape r :
  last data = Some r →
  2 ≤ length headers ∨ ∀ h, h ∈ headers → isMissing (get r h) = false.
Proof.
  destruct Hwritable as (_ & _ & _ & _ & Hlast). intros Hr.
  pose proof headers_nonempty as Hne.
  destruct (decide (length headers = 1)) as [Hone|Hmore].
  - right. intros h Hh. apply (Hlast ltac:(by rewrite <- length_keys) r h Hr).
    by apply elem_of_keys_dom.
  - left. destruct headers as [|h1 [|h2 hs]]; simpl in *; try done; lia.
Qed.

Lemma headerLine_split : trim <$> split "," headerLine = headers.
Proof.
  unfold headerLine. rewrite split_join.
  - apply list_eq. intros i. rewrite list_lookup_fmap.
    destruct (headers !! i) as [h|] eqn:Hi; [|done]. simpl. f_equal.
    pose proof headers_simple as H. rewrite Forall_lookup in H.
    by destruct (simpleText_trim h (H i h Hi)) as (_ & ? & _).
  - apply headers_nonempty.
  - eapply Forall_impl; [apply headers_simple|]. by intros ? (_ & ? & _).
Qed.

Lemma lines_no_LF :
  Forall (λ l, SimpleTables.contains LF l = false)
         (headerLine :: (line <$> data)).
Proof.
  constructor.
  - apply contains_join; [done|].
    eapply Forall_impl; [apply headers_simple|]. by intros ? (_ & _ & ?).
  - apply Forall_fmap, Forall_forall. intros r Hr.
    apply (line_no_LF rt headers r). by apply row_values.
Qed.

Lemma content_trim : trim content = content.
Proof.
  assert (trimStart content = content) as Hstart.
  { pose proof headers_nonempty as Hh. pose proof headers_simple as Hs.
    destruct (join_first LF headerLine (line <$> data)) as [t2 Ht2].
    unfold content. rewrite Ht2. unfold headerLine.
    destruct headers as [|h1 hs]; [done|].
    apply Forall_cons in Hs as [((c & rest1 & -> & Hc) & _)%simpleText_ends _].
    destruct (join_first "," (String c rest1) hs) as [t1 Ht1]. rewrite Ht1.
    rewrite !sapp_cons. by apply trimStart_plain. }
  assert (trimEnd content = content) as Hend.
  { destruct (nonempty_last data) as (init & rlast & Hdata); [done|].
    assert (rlast ∈ data) as Hin
      by (rewrite Hdata; apply elem_of_app; right; left).
    assert (last data = Some rlast) as Hlast by (by rewrite Hdata, last_snoc).
    destruct (line_ends rt headers rlast headers_nonempty
                (row_values rlast Hin) (last_row_shape rlast Hlast))
      as (front & c & Hline & Hc).
    destruct (join_last LF (headerLine :: (line <$> init)) (line rlast))
      as [front0 Hfront0].
    unfold content. rewrite Hdata, fmap_app. simpl.
    change (headerLine :: (line <$> init) ++ [line rlast])
      with ((headerLine :: (line <$> init)) ++ [line rlast]).
    assert (line rlast = front +:+ String c "") as Hl by exact Hline.
    rewrite Hfront0, Hl, <- sapp_assoc. by apply trimEnd_ends_plain. }
  unfold trim. by rewrite Hstart.
Qed.

Lemma parseCSV_content :
  parseCSV content = SimpleTables.readRow headers <$> data.
Proof.
  unfold parseCSV. rewrite content_trim. unfold content.
  rewrite split_join by (done || apply lines_no_LF).
  cbn [hd]. change (drop 1 (headerLine :: (line <$> data)))
    with (line <$> data).
  rewrite headerLine_split, take_ge.
  2: { rewrite length_fmap. by destruct Hwritable as [? _]. }
  rewrite <- list_fmap_compose. apply list_fmap_ext.
  intros i r Hr. apply list_elem_of_lookup_2 in Hr. simpl.
  apply (parse_line rt headers r); [apply headers_nonempty|].
  by apply row_values.
Qed.

End table.

End CsvRoundTrip.

Module RoundTrip.
Import OceanData OceanDataFacts Number Text DataFiles CsvFacts CsvRoundTrip.

Lemma union_singleton_nonempty (a : string) (X : gset string) :
  {[a]} ∪ X ≠ ∅.
Proof.
  intros Hempty. apply (not_elem_of_empty (C := gset string) a).
  rewrite <- Hempty. apply elem_of_union. left. by apply elem_of_singleton.
Qed.

Lemma roundValue_exact (r : row) :
  (∀ key x, r !! key = Some (VNumber x) → toFixedNumber 4 x = x) →
  SimpleTables.roundValue <$> r = r.
Proof.
  intros Hexact. apply map_eq. intros key. rewrite lookup_fmap.
  destruct (r !! key) as [[| |x|s]|] eqn:Hk; try done.
  simpl. by rewrite (Hexact key x Hk).
Qed.

Lemma parseDataFile_csv rt content variableName :
  parseDataFile rt content ".csv" variableName
  = Return (Document (PArray (parseCSV content))).
Proof. reflexivity. Qed.

Lemma parseCSV_empty : parseCSV "" = [].
Proof.
  unfold parseCSV. change (split LF (trim "")) with [""].
  change (drop 1 [""]) with (@nil string). by rewrite take_nil.
Qed.

Lemma simple_writable (T : OceanData) :
  SimpleTables.simpleTable T → SimpleTables.writableTable T.
Proof.
  intros [Hlen Hshape]. split; [done|].
  destruct T as [|firstRow rest]; [done|].
  destruct Hshape as (Hne & Hkeys & Hrows).
  assert (∀ r key, r ∈ firstRow :: rest → key ∈ dom firstRow →
                   SimpleTables.simpleValue (get r key)) as Hcells.
  { intros r key Hr Hkey. destruct (Hrows r Hr) as [Hdom Hvalues].
    rewrite <- Hdom in Hkey. apply elem_of_dom in Hkey as [v Hv].
    unfold get. rewrite Hv. by eapply Hvalues. }
  split; [done|]. split; [done|]. split.
  - intros r key Hr Hkey. right. by apply Hcells.
  - intros _ r key Hlast Hkey. apply simpleValue_present, Hcells; [|done].
    apply last_Some in Hlast as [init ->]. apply elem_of_app. right. left.
Qed.

Lemma readRow_lookup (firstRow r : row) key :
  SimpleTables.readRow (keys firstRow) r !! key
  = if decide (key ∈ dom firstRow)
    then Some (SimpleTables.readValue (get r key)) else None.
Proof.
  unfold SimpleTables.readRow. rewrite forEach_assign_lookup.
  destruct (decide (key ∈ keys firstRow)) as [Hin|Hnin];
    destruct (decide (key ∈ dom firstRow)) as [Hd|Hd]; try done;
    by rewrite elem_of_keys_dom in *.
Qed.

Lemma readRow_simple (firstRow r : row) :
  dom r = dom firstRow →
  (∀ key v, r !! key = Some v → SimpleTables.simpleValue v) →
  SimpleTables.readRow (keys firstRow) r = SimpleTables.roundValue <$> r.
Proof.
  intros Hdom Hvalues. apply map_eq. intros key.
  rewrite readRow_lookup, lookup_fmap, <- Hdom.
  destruct (decide (key ∈ dom r)) as [Hin|Hnin].
  - apply elem_of_dom in Hin as [v Hv]. unfold get. rewrite Hv. simpl.
    unfold SimpleTables.readValue.
    by rewrite (simpleValue_present v (Hvalues key v Hv)).
  - apply not_elem_of_dom in Hnin. by rewrite Hnin.
Qed.

(** The trip of a writable table through a CSV file. *)
Lemma writable_trip (rt : Runtime) (T : OceanData) :
  SimpleTables.writableTable T →
  parseDataFile rt (serializeData rt (PArray T) (inferOutputFormat ".csv"))
    ".csv" None
  = Return (Document
              (PArray (SimpleTables.readRow (keys (default ∅ (head T)))
                         <$> T))).
Proof.
  intros Hwritable. rewrite parseDataFile_csv. do 3 f_equal.
  change (inferOutputFormat ".csv") with "csv".
  destruct T as [|firstRow rest]; [exact parseCSV_empty|].
  rewrite serializeData_csv. by apply parseCSV_content.
Qed.

(** Writing a simple table as CSV and reading the text back yields the
    table with every number rounded to four decimals, so the table itself
    when its numbers are exact at four decimals. *)
Theorem csv_round_trip (rt : Runtime) (T : OceanData) :
  SimpleTables.simpleTable T →
  parseDataFile rt (serializeData rt (PArray T) (inferOutputFormat ".csv"))
    ".csv" None
  = Return (Document
              (PArray ((λ r : row, SimpleTables.roundValue <$> r) <$> T)))
  ∧ ((∀ r key x, r ∈ T → r !! key = Some (VNumber x) →
                 toFixedNumber 4 x = x) →
     parseDataFile rt (serializeData rt (PArray T) (inferOutputFormat ".csv"))
       ".csv" None
     = Return (Document (PArray T))).
Proof.
  intros Hsimple.
  assert (parseDataFile rt
            (serializeData rt (PArray T) (inferOutputFormat ".csv"))
            ".csv" None
          = Return (Document
              (PArray ((λ r : row, SimpleTables.roundValue <$> r) <$> T))))
    as Hcsv.
  { rewrite (writable_trip rt T (simple_writable T Hsimple)). do 3 f_equal.
    destruct T as [|firstRow rest]; [done|].
    apply list_fmap_ext. intros i r Hr. cbn [head default].
    destruct Hsimple as (_ & _ & _ & Hrows).
    destruct (Hrows r (list_elem_of_lookup_2 _ _ _ Hr)) as [Hdom Hvalues].
    by apply readRow_simple. }
  split; [done|].
  intros Hexact. rewrite Hcsv. do 3 f_equal.
  apply list_eq. intros i. rewrite list_lookup_fmap.
  destruct (T !! i) as [r|] eqn:Hi; [|done]. simpl. f_equal.
  apply roundValue_exact. intros key x. apply Hexact.
  by eapply list_elem_of_lookup_2.
Qed.

(** A table with a station name and a temperature in every row. *)
Lemma csv_round_trip_witness :
  let rt := mkRuntime (λ _, "") (λ _, Return PNull) (λ _, "") in
  let T : OceanData :=
    [ {[ "station" := VString "A1"; "sst" := VNumber 20.5 ]};
      {[ "station" := VString "B2"; "sst" := VNumber (-1.25) ]} ] in
  SimpleTables.simpleTable T
  ∧ parseDataFile rt (serializeData rt (PArray T) (inferOutputFormat ".csv"))
      ".csv" None
    = Return (Document (PArray T)).
Proof.
  intros rt T.
  assert (∀ s, s = "station" ∨ s = "sst" → SimpleTables.simpleText s)
    as Hkeys by (intros s [->| ->]; by vm_compute).
  assert (∀ r, r ∈ T → dom r = {[ "station"; "sst" ]}
                       ∧ map_Forall (λ _ v, SimpleTables.simpleValue v) r
                       ∧ map_Forall (λ _ v, ∀ x, v = VNumber x →
                                                 toFixedNumber 4 x = x) r)
    as Hrows.
  { intros r Hr. unfold T in Hr.
    repeat (apply elem_of_cons in Hr as [->|Hr]);
      [| |by apply elem_of_nil in Hr];
      (split; [by rewrite dom_insert_L, dom_singleton_L|]);
      (split; (apply map_Forall_insert_2; [|apply map_Forall_singleton]));
      first [ by intros x [=]
            | intros x [= <-]; by vm_compute
            | by vm_compute ]. }
  assert (SimpleTables.simpleTable T) as Hsimple.
  { split; [unfold MAX_DATA_ROWS; simpl length; lia|].
    assert (dom ({[ "station" := VString "A1"; "sst" := VNumber 20.5 ]} : row)
            = {[ "station"; "sst" ]}) as Hdom
      by (by rewrite dom_insert_L, dom_singleton_L).
    unfold T. rewrite Hdom. split; [apply union_singleton_nonempty|]. split.
    - intros key [Hk|Hk]%elem_of_union; apply elem_of_singleton in Hk;
        apply Hkeys; auto.
    - intros r Hr. destruct (Hrows r Hr) as (? & Hv & _). split; [done|].
      intros key v Hkv. exact (Hv key v Hkv). }
  split; [exact Hsimple|].
  destruct (csv_round_trip rt T Hsimple) as [_ Hexact]. apply Hexact.
  intros r key x Hr Hk. destruct (Hrows r Hr) as (_ & _ & Hx).
  exact (Hx key (VNumber x) Hk x eq_refl).
Defined.

(** Writing a table with missing cells as CSV and reading the text back:
    every row comes back with the fields of the first row of the table, and
    only those; a cell that was missing ([null], [undefined], [NaN], the
    empty string, or no cell at all) comes back as the empty string, a
    string as itself and a number rounded to four decimals. *)
Theorem csv_missing_cells (rt : Runtime) (firstRow : row)
    (rest : OceanData) :
  SimpleTables.writableTable (firstRow :: rest) →
  let T := firstRow :: rest in
  let read := SimpleTables.readRow (keys firstRow) in
  parseDataFile rt (serializeData rt (PArray T) (inferOutputFormat ".csv"))
    ".csv" None
  = Return (Document (PArray (read <$> T)))
  ∧ ∀ r, dom (read r) = dom firstRow
         ∧ ∀ key, key ∈ dom firstRow →
             read r !! key
             = Some (if isMissing (get r key) then VString ""
                     else match get r key with
                          | VNumber x => VNumber (toFixedNumber 4 x)
                          | v => v
                          end).
Proof.
  intros Hwritable T read. split.
  - exact (writable_trip rt T Hwritable).
  - intros r. split.
    + apply set_eq. intros key. rewrite elem_of_dom. unfold read.
      rewrite readRow_lookup. destruct (decide (key ∈ dom firstRow)); split;
        done || by intros [? ?].
    + intros key Hkey. unfold read. rewrite readRow_lookup.
      rewrite decide_True by done. unfold SimpleTables.readValue.
      by destruct (get r key).
Qed.

Lemma csv_missing_cells_witness :
  let rt := mkRuntime (λ _, "") (λ _, Return PNull) (λ _, "") in
  let firstRow : row := {[ "station" := VString "A1"; "sst" := VNull ]} in
  let rest : OceanData :=
    [ {[ "station" := VString "B2"; "sst" := VNumber 20.5;
         "depth" := VNumber 5 ]};
      {[ "sst" := VNumber nan ]} ] in
  SimpleTables.writableTable (firstRow :: rest)
  ∧ parseDataFile rt
      (serializeData rt (PArray (firstRow :: rest))
         (inferOutputFormat ".csv")) ".csv" None
    = Return (Document (PArray
        [ {[ "station" := VString "A1"; "sst" := VString "" ]};
          {[ "station" := VString "B2"; "sst" := VNumber 20.5 ]};
          {[ "station" := VString ""; "sst" := VString "" ]} ])).
Proof.
  intros rt firstRow rest.
  assert (dom firstRow = {[ "station"; "sst" ]}) as Hdom
    by (unfold firstRow; by rewrite dom_insert_L, dom_singleton_L).
  assert (SimpleTables.writableTable (firstRow :: rest)) as Hwritable.
  { split; [unfold MAX_DATA_ROWS; simpl length; lia|].
    rewrite Hdom. split; [apply union_singleton_nonempty|]. split; [|split].
    - intros key [->%elem_of_singleton| ->%elem_of_singleton]%elem_of_union;
        by vm_compute.
    - intros r key Hr Hkey. unfold rest in Hr.
      repeat (apply elem_of_cons in Hr as [->|Hr]);
        [| | |by apply elem_of_nil in Hr];
        apply elem_of_union in Hkey
          as [->%elem_of_singleton| ->%elem_of_singleton];
        first [left; by vm_compute|right; by vm_compute].
    - intros Hone. by vm_compute in Hone. }
  split; [exact Hwritable|].
  destruct (csv_missing_cells rt firstRow rest Hwritable) as [-> _].
  by vm_compute.
Defined.

End RoundTrip.

Module GeneratedMasks.
Import OceanData OceanDataFacts CloudPassFacts.

Lemma candidates_length ks sea range i rows :
  length (Spec.candidates ks sea range i rows) ≤ length rows.
Proof.
  revert i. induction rows as [|r rows IH]; intros i; simpl; [done|].
  destruct (inRange range (ratioOf sea r)); simpl; specialize (IH (S i)); lia.
Qed.

Lemma dom_forEach_assign {A} (ks : list string) (f : string → A) :
  dom (forEach_assign ks f) = list_to_set ks.
Proof.
  apply set_eq. intros k. rewrite elem_of_dom, forEach_assign_lookup.
  rewrite elem_of_list_to_set.
  destruct (decide (k ∈ ks)); split; done || by intros [? ?].
Qed.

Lemma keys_to_set {A} (r : gmap string A) : list_to_set (keys r) = dom r.
Proof.
  apply set_eq. intros k. by rewrite elem_of_list_to_set, elem_of_keys_dom.
Qed.

Lemma generateMasks_masks (firstRow : row) (rest : OceanData)
    (params : option MaskParams) :
  let data := firstRow :: rest in
  ∃ lm cms rep ws,
    MaskProcess.generateMasks (PArray data) params
    = Return {| MaskProcess.masks :=
                  {| landMask := Some lm; cloudMasks := Some cms |};
                MaskProcess.report := rep; MaskProcess.warnings := ws |}
    ∧ dom lm = dom firstRow
    ∧ MaskProcess.cloudMasksGenerated rep = Some (length cms)
    ∧ length cms ≤ length data
    ∧ (Z.of_nat (length cms) ≤ Z.max 0 (maskCount_of params))%Z
    ∧ ∀ cm, cm ∈ cms →
        index cm < length data
        ∧ dom (mask cm) = dom firstRow
        ∧ ∀ f, lm !! f = Some true → mask cm !! f = Some true.
Proof.
  intros data.
  change (MaskProcess.generateMasks (PArray data) params)
    with (Return (MaskProcess.generateFrom data (keys firstRow) params)).
  unfold MaskProcess.generateFrom. cbv zeta.
  set (ks := keys firstRow). set (lm := landMaskPass data ks).
  assert (dom lm = dom firstRow) as Hdom.
  { unfold lm, landMaskPass, ks. by rewrite dom_forEach_assign, keys_to_set. }
  destruct (length (seaKeysOf lm ks) =? 0).
  { eexists lm, [], _, _. split; [reflexivity|]. split; [done|].
    split; [done|]. split; [simpl; lia|]. split; [simpl; lia|].
    intros cm Hcm. by apply elem_of_nil in Hcm. }
  set (sea := seaKeysOf lm ks). set (range := missingRatioRange_of params).
  set (cms := cloudMaskPass ks sea range (maskCount_of params) 0 data []).
  eexists lm, cms, _, _. split; [reflexivity|]. split; [done|].
  split; [done|].
  assert (cms = take (Z.to_nat (maskCount_of params))
                  (Spec.candidates ks sea range 0 data)) as Hcms
    by apply cloudMaskPass_start.
  pose proof (candidates_length ks sea range 0 data) as Hlen.
  split; [rewrite Hcms, length_take; lia|].
  split; [rewrite Hcms, length_take; lia|].
  intros cm Hcm. rewrite Hcms in Hcm.
  apply elem_of_take in Hcm as (n & Hn & _).
  apply list_elem_of_lookup_2, elem_of_candidates in Hn
    as (j & r & Hj & -> & _).
  split; [apply lookup_lt_Some in Hj; cbn [index cloudMaskOf]; lia|].
  split; [simpl; unfold ks; by rewrite dom_forEach_assign, keys_to_set|].
  intros f Hf. simpl. rewrite forEach_assign_lookup.
  unfold lm in Hf. rewrite landMaskPass_lookup in Hf.
  destruct (decide (f ∈ ks)); [|done]. f_equal.
  assert (forallb (λ r, isMissing (get r f)) data = true) as Hall
    by congruence.
  apply forallb_missing in Hall. unfold Spec.missingInEveryRow in Hall.
  rewrite Forall_forall in Hall. apply Hall.
  by eapply list_elem_of_lookup_2.
Qed.


End GeneratedMasks.

Module MaskPipeline.
Import OceanData OceanDataFacts GeneratedMasks MaskApplication.

(** Masking a row with a mask whose flagged fields the row has gives the
    input row of a training pair, when the land mask flags nothing more. *)
Lemma inputRowOf_maskRow (r : row) (m lm : gmap string bool) :
  (∀ f, flag m f = true → f ∈ dom r) →
  (∀ f, flag lm f = true → flag m f = true) →
  TrainingData.inputRowOf r m (Some lm) = MaskApply.maskRow r m.
Proof.
  intros Hdom Hland. apply map_eq. intros f.
  rewrite inputRowOf_lookup, maskRow_lookup.
  destruct (decide (f ∈ dom r)) as [Hf|Hf].
  - apply elem_of_dom in Hf as [v Hv]. unfold get. rewrite Hv. simpl.
    destruct (flag m f) eqn:Hm; [done|].
    destruct (flag lm f) eqn:Hl; [|done].
    apply Hland in Hl. congruence.
  - destruct (flag m f) eqn:Hm; [by apply Hdom in Hm|].
    symmetry. by apply not_elem_of_dom.
Qed.

Lemma pairsFrom_mapRows lm i idx (gt : OceanData) (cms : list CloudMask) :
  (∀ r cm, r ∈ gt → cm ∈ cms →
           TrainingData.inputRowOf r (mask cm) lm
           = MaskApply.maskRow r (mask cm)) →
  TrainingData.input <$> TrainingData.pairsFrom lm i gt (drop idx cms)
  = take (length cms - idx) (MaskApply.mapRows cms idx gt).
Proof.
  revert i idx. induction gt as [|r gt IH]; intros i idx Hrows.
  { simpl. by rewrite take_nil. }
  destruct (cms !! idx) as [cm|] eqn:Hcm.
  - rewrite (drop_S _ _ _ Hcm). cbn [TrainingData.pairsFrom MaskApply.mapRows].
    rewrite Hcm. apply lookup_lt_Some in Hcm as Hlt.
    replace (length cms - idx) with (S (length cms - S idx)) by lia.
    cbn [fmap list_fmap take TrainingData.input]. f_equal.
    + apply Hrows; [left|by eapply list_elem_of_lookup_2].
    + apply IH. intros r' cm' Hr'. apply Hrows. by right.
  - apply lookup_ge_None in Hcm. rewrite drop_ge by done.
    replace (length cms - idx) with 0 by lia. done.
Qed.

(** With the masks [generateMasks] makes, and ground-truth rows that have
    the fields of the table the masks come from, the inputs of the training
    pairs are the rows [applyMasksToData] masks: the land mask, which only
    [buildTrainingPairs] reads, changes nothing. *)
Theorem generated_masks_agree (firstRow : row) (rest groundTruth : OceanData)
    (params : option MaskParams) (result : MaskProcess.MaskGenResult) :
  (∀ r, r ∈ groundTruth → dom firstRow ⊆ dom r) →
  MaskProcess.generateMasks (PArray (firstRow :: rest)) params
  = Return result →
  let masks := MaskProcess.masks result in
  let cms := default [] (cloudMasks masks) in
  TrainingData.input
    <$> fst (TrainingData.buildTrainingPairs groundTruth masks)
  = take (length cms)
         (MaskApply.data (MaskApply.applyMasksToData groundTruth masks)).
Proof.
  intros Hgt Hgen masks cms'. subst masks cms'.
  destruct (generateMasks_masks firstRow rest params)
    as (lm & cms & rep & ws & Hres & Hlm & _ & _ & _ & Hcms).
  rewrite Hres in Hgen. injection Hgen as <-.
  cbn [MaskProcess.masks cloudMasks default].
  unfold TrainingData.buildTrainingPairs, MaskApply.applyMasksToData.
  cbn [cloudMasks landMask].
  destruct cms as [|cm0 cms0] eqn:Hshape; [done|]. rewrite <- Hshape in *.
  cbn [fst MaskApply.data].
  pose proof (pairsFrom_mapRows (Some lm) 0 0 groundTruth cms) as Heq.
  rewrite drop_0, Nat.sub_0_r in Heq. apply Heq.
  intros r cm Hr Hcm. destruct (Hcms cm Hcm) as (_ & Hdom & Hland).
  apply inputRowOf_maskRow.
  - intros f Hf. apply (Hgt r Hr). rewrite <- Hdom.
    apply flag_true in Hf. by apply elem_of_dom.
  - intros f Hf. apply flag_true. apply Hland. by apply flag_true.
Qed.

Lemma generated_masks_agree_witness :
  let firstRow : row :=
    {[ "sst" := VNumber 20; "chl" := VNull; "land" := VNull ]} in
  let rest : OceanData :=
    [ {[ "sst" := VNull; "chl" := VNumber 1; "land" := VString "" ]} ] in
  let groundTruth : OceanData :=
    [ {[ "sst" := VNumber 21; "chl" := VNumber 2; "land" := VNull ]};
      {[ "sst" := VNumber 22; "chl" := VNumber 3; "land" := VNull ]} ] in
  let result :=
    MaskProcess.generateFrom (firstRow :: rest) (keys firstRow) None in
  (∀ r, r ∈ groundTruth → dom firstRow ⊆ dom r)
  ∧ TrainingData.input
      <$> fst (TrainingData.buildTrainingPairs groundTruth
                 (MaskProcess.masks result))
    = [ {[ "sst" := VNumber 21; "chl" := VNull; "land" := VNull ]};
        {[ "sst" := VNull; "chl" := VNumber 3; "land" := VNull ]} ].
Proof.
  intros firstRow rest groundTruth result.
  assert (∀ r, r ∈ groundTruth → dom firstRow ⊆ dom r) as Hgt.
  { intros r Hr. unfold groundTruth in Hr.
    repeat (apply elem_of_cons in Hr as [->|Hr]);
      [| |by apply elem_of_nil in Hr];
      unfold firstRow; rewrite !dom_insert_L, !dom_singleton_L; set_solver. }
  split; [exact Hgt|].
  rewrite (generated_masks_agree firstRow rest groundTruth None result Hgt
             eq_refl).
  by vm_compute.
Defined.

Lemma mapRows_length cms idx (rows : OceanData) :
  length (MaskApply.mapRows cms idx rows) = length rows.
Proof.
  revert idx. induction rows as [|r rows IH]; intros idx; simpl; [done|].
  by rewrite IH.
Qed.

Lemma maskRow_idempotent (r : row) (m : gmap string bool) :
  MaskApply.maskRow (MaskApply.maskRow r m) m = MaskApply.maskRow r m.
Proof.
  apply map_eq. intros f. rewrite !maskRow_lookup. by destruct (flag m f).
Qed.

(** Applying a mask set to a table that it has already masked changes
    nothing. *)
Theorem applyMasksToData_idempotent (data : OceanData) (masks : MaskSet) :
  let once := MaskApply.applyMasksToData data masks in
  let twice := MaskApply.applyMasksToData (MaskApply.data once) masks in
  MaskApply.data twice = MaskApply.data once
  ∧ MaskApply.masksApplied twice = MaskApply.masksApplied once.
Proof.
  intros once twice. subst once twice. unfold MaskApply.applyMasksToData.
  destruct (cloudMasks masks) as [[|cm cms]|]; try done.
  cbn [MaskApply.data MaskApply.masksApplied]. set (all := cm :: cms). split.
  - apply list_eq. intros n. rewrite !mapRows_lookup.
    destruct (data !! n) as [r|]; [|done]. simpl. f_equal.
    destruct (all !! n); [apply maskRow_idempotent|done].
  - by rewrite mapRows_length.
Qed.

End MaskPipeline.

Module PairValidation.
Import OceanData OceanDataFacts MaskApplication Validation TrainingData.

Lemma validateFrom_messages t idx pairs :
  Forall (λ p, size (input p) = size (groundTruth p)) pairs →
  (∀ i, MsgKeyCount i ∉ messages t) →
  ∀ i, MsgKeyCount i ∉ messages (validateFrom t idx pairs).
Proof.
  revert t idx. induction pairs as [|p pairs IH]; intros t idx Hp Ht; [done|].
  apply Forall_cons in Hp as [Hsize Hp]. cbn [validateFrom].
  apply IH; [done|]. intros i. unfold validateOne.
  rewrite !length_keys, Hsize, Nat.eqb_refl. cbn [negb].
  destruct (hasMaskedValues (input p) (groundTruth p)); cbn [messages];
    [apply Ht|].
  rewrite elem_of_app, list_elem_of_singleton. intros [H|H]; [by eapply Ht|done].
Qed.

Lemma dom_inputRowOf gtRow cm lm : dom (inputRowOf gtRow cm lm) = dom gtRow.
Proof.
  apply set_eq. intros f. rewrite elem_of_dom, inputRowOf_lookup.
  destruct (decide (f ∈ dom gtRow)); split; done || by intros [? ?].
Qed.

(** The [validate_pairs] operation validates the pairs it has just built:
    no pair fails the key-count check, and pair [i] is valid exactly when
    cloud mask [i] or the land mask flags a field of ground-truth row [i]
    whose value is not null. *)
Theorem built_pairs_validate (groundTruth : OceanData) (masks : MaskSet) :
  let pairs := fst (buildTrainingPairs groundTruth masks) in
  let masked (cm : CloudMask) (key : string) :=
    flag (mask cm) key
    || match landMask masks with Some lm => flag lm key | None => false end in
  (∀ idx, MsgKeyCount idx ∉ snd (validatePairs pairs))
  ∧ validPairs (fst (validatePairs pairs))
    = length (filter (λ p, Spec.passes p = true) pairs)
  ∧ ∀ i p, pairs !! i = Some p →
      ∃ gtRow cm,
        groundTruth !! i = Some gtRow
        ∧ default [] (cloudMasks masks) !! i = Some cm
        ∧ dom (input p) = dom gtRow
        ∧ (Spec.passes p = true
           ↔ ∃ key v, gtRow !! key = Some v ∧ v ≠ VNull
                      ∧ masked cm key = true).
Proof.
  intros pairs masked.
  assert (∀ i p, pairs !! i = Some p →
            ∃ gtRow cm,
              groundTruth !! i = Some gtRow
              ∧ default [] (cloudMasks masks) !! i = Some cm
              ∧ p = {| input := inputRowOf gtRow (mask cm) (landMask masks);
                       TrainingData.groundTruth := gtRow;
                       maskIndex := i;
                       missingRatio := OceanData.missingRatio cm |})
    as Hpairs.
  { intros i p. unfold pairs, buildTrainingPairs.
    destruct (cloudMasks masks) as [[|cm0 cms0]|]; try done.
    cbn [fst default]. intros Hp.
    apply pairsFrom_lookup in Hp as (gtRow & cm & ? & ? & ->).
    by exists gtRow, cm. }
  split; [|split].
  - intros idx. unfold validatePairs. cbn [snd].
    rewrite elem_of_app, list_elem_of_singleton.
    intros [H|H]; [|done]. revert H.
    apply validateFrom_messages; [|intros i; apply not_elem_of_nil].
    apply Forall_lookup. intros i p Hp.
    destruct (Hpairs i p Hp) as (gtRow & cm & _ & _ & ->). cbn [input].
    unfold TrainingData.groundTruth.
    by rewrite <- !size_dom, dom_inputRowOf.
  - unfold validatePairs. cbn [fst validPairs].
    by destruct (validateFrom_counts (mkTally 0 0 []) 0 pairs) as [-> _].
  - intros i p Hp. destruct (Hpairs i p Hp) as (gtRow & cm & Hgt & Hcm & ->).
    exists gtRow, cm. split; [done|]. split; [done|].
    cbn [input]. split; [apply dom_inputRowOf|].
    rewrite passes_spec. cbn [input]. unfold TrainingData.groundTruth.
    rewrite <- !size_dom, dom_inputRowOf. unfold Spec.encodesMissing.
    split.
    + intros (_ & key & Hin & Hne). rewrite inputRowOf_lookup in Hin.
      destruct (decide (key ∈ dom gtRow)) as [Hk|]; [|done].
      apply elem_of_dom in Hk as [v Hv].
      exists key, v. split; [done|]. unfold get in Hne. rewrite Hv in Hne.
      split; [done|]. unfold masked.
      destruct (flag (mask cm) key
                || match landMask masks with
                   | Some lm => flag lm key | None => false end); [done|].
      injection Hin as Hin. unfold get in Hin. rewrite Hv in Hin. done.
    + intros (key & v & Hv & Hne & Hm). split; [done|]. exists key.
      rewrite inputRowOf_lookup. unfold masked in Hm. rewrite Hm.
      unfold get. rewrite Hv.
      destruct (decide (key ∈ dom gtRow)) as [|Hk]; [done|].
      by apply not_elem_of_dom in Hk; congruence.
Qed.



End PairValidation.

Module OutlierRows.
Import OceanData QualityControl Spikes OutlierCount.

Lemma markRow_total tr sr pr oxr c r :
  let '(c', m) := markRow tr sr pr oxr c r in
  fields m = r
  ∧ total c + (if _qc_outlier m then 1 else 0) ≤ total c'
  ∧ tempOutliers c ≤ tempOutliers c' ≤ S (tempOutliers c)
  ∧ salOutliers c ≤ salOutliers c' ≤ S (salOutliers c)
  ∧ presOutliers c ≤ presOutliers c' ≤ S (presOutliers c)
  ∧ oxyOutliers c ≤ oxyOutliers c' ≤ S (oxyOutliers c).
Proof.
  unfold markRow, total. cbn [fields _qc_outlier tempOutliers salOutliers
                              presOutliers oxyOutliers].
  destruct (outOfRange _ tr), (outOfRange _ sr), (outOfRange _ pr);
    destruct oxr as [range|]; try destruct (outOfRange _ range);
    cbn [bump orb]; repeat split; lia.
Qed.

Lemma markAll_total tr sr pr oxr c rows :
  let '(c', md) := markAll tr sr pr oxr c rows in
  total c + marked md ≤ total c'
  ∧ length md = length rows
  ∧ tempOutliers c' ≤ tempOutliers c + length rows
  ∧ salOutliers c' ≤ salOutliers c + length rows
  ∧ presOutliers c' ≤ presOutliers c + length rows
  ∧ oxyOutliers c' ≤ oxyOutliers c + length rows.
Proof.
  revert c. induction rows as [|r rows IH]; intros c.
  { cbn. unfold marked. cbn. lia. }
  cbn [markAll]. pose proof (markRow_total tr sr pr oxr c r) as Hr.
  destruct (markRow tr sr pr oxr c r) as [c1 m].
  specialize (IH c1). destruct (markAll tr sr pr oxr c1 rows) as [c2 ms].
  unfold marked in *. rewrite filter_cons. cbn [length].
  destruct Hr as (_ & Hm & ? & ? & ? & ?).
  destruct IH as (? & ? & ? & ? & ? & ?).
  destruct (_qc_outlier m); case_decide; try done; cbn [length];
    repeat split; lia.
Qed.

Lemma marked_insert (md : list Marked) i m :
  marked (<[i := m]> md) ≤ S (marked md).
Proof.
  unfold marked. revert i. induction md as [|m0 md IH]; intros i; [simpl; lia|].
  destruct i as [|i]; simpl insert; rewrite !filter_cons.
  - destruct (decide (_qc_outlier m = true)),
             (decide (_qc_outlier m0 = true)); simpl length; lia.
  - specialize (IH i).
    destruct (decide (_qc_outlier m0 = true)); simpl length; lia.
Qed.

Lemma spikeStep_marked thr md n i :
  let st := spikeStep thr (md, n) i in
  marked (fst st) + n ≤ marked md + snd st ∧ length (fst st) = length md.
Proof.
  unfold spikeStep.
  destruct (md !! (i - 1)), (md !! i) as [c|], (md !! (i + 1));
    cbn [fst snd]; try lia.
  destruct (isSpike thr _ _ _); cbn [fst snd]; [|lia].
  rewrite length_insert. pose proof (marked_insert md i (setOutlier c)). lia.
Qed.

Lemma spikeFold_marked thr (idxs : list nat) md n :
  let st := foldl (spikeStep thr) (md, n) idxs in
  marked (fst st) + n ≤ marked md + snd st ∧ length (fst st) = length md.
Proof.
  revert md n. induction idxs as [|i idxs IH]; intros md n; cbn [foldl].
  { cbn [fst snd]. lia. }
  pose proof (spikeStep_marked thr md n i) as Hs.
  destruct (spikeStep thr (md, n) i) as [md1 n1]. cbn [fst snd] in Hs.
  specialize (IH md1 n1). cbv zeta in IH |- *. lia.
Qed.

Lemma filter_unmarked_length (md : list Marked) :
  length (filter (λ m, _qc_outlier m = false) md) + marked md = length md.
Proof.
  unfold marked. induction md as [|m md IH]; [done|].
  rewrite !filter_cons.
  destruct (_qc_outlier m); repeat case_decide; try done; cbn [length]; lia.
Qed.

End OutlierRows.

Module QualityControlRows.
Import OceanData QualityControl Spikes OutlierCount OutlierRows.

Lemma spikes_marked (checkSpikes : bool) thr md :
  let st := if checkSpikes then spikeLoop thr md else (md, 0) in
  fields <$> fst st = fields <$> md
  ∧ marked (fst st) ≤ marked md + snd st
  ∧ length (fst st) = length md.
Proof.
  destruct checkSpikes; cbv zeta; cbn [fst snd]; [|split; [done|lia]].
  destruct (spikeLoop_spec thr md) as (Hf & _ & _).
  pose proof (spikeFold_marked thr (seq 1 (length md - 2)) md 0) as Hm.
  cbv zeta in Hm. fold (spikeLoop thr md) in Hm. split; [done|lia].
Qed.

(** What [performQualityControl] returns as data.  Without
    [remove_outliers] it is every row of the table, less a field named
    [_qc_outlier]; with it, a sub-sequence of those rows, and the number of
    rows removed is at most the sum of the outlier and spike counts of the
    report, which itself does not depend on the flag.  No counter of range
    outliers exceeds the number of rows. *)
Theorem performQualityControl_rows (data : OceanData) (params : QCParams) :
  let kept := performQualityControl data params false in
  let cleaned := performQualityControl data params true in
  let count (n : option nat) := default 0 n in
  QualityControl.data kept = delete "_qc_outlier" <$> data
  ∧ QualityControl.data cleaned `sublist_of` QualityControl.data kept
  ∧ report cleaned = report kept
  ∧ length data - length (QualityControl.data cleaned)
    ≤ temperatureOutliers (report kept) + salinityOutliers (report kept)
      + pressureOutliers (report kept) + count (oxygenOutliers (report kept))
      + count (spikesDetected (report kept))
  ∧ temperatureOutliers (report kept) ≤ length data
  ∧ salinityOutliers (report kept) ≤ length data
  ∧ pressureOutliers (report kept) ≤ length data
  ∧ count (oxygenOutliers (report kept)) ≤ length data.
Proof.
  intros kept cleaned count. subst kept cleaned.
  unfold performQualityControl. cbv zeta.
  set (tr := default _ (temp_range params)).
  set (sr := default _ (salinity_range params)).
  set (pr := default _ (pressure_range params)).
  set (checkSpikes := match check_spikes params with
                      | Some false => false | _ => true end).
  set (thr := Number.orDefault (spike_threshold params) 3).
  pose proof (markAll_total tr sr pr (oxygen_range params)
                (mkCounts 0 0 0 0) data) as Hmark.
  pose proof (markAll_fields tr sr pr (oxygen_range params)
                (mkCounts 0 0 0 0) data) as Hfields.
  destruct (markAll tr sr pr (oxygen_range params) (mkCounts 0 0 0 0) data)
    as [c md]. cbn [snd] in Hfields.
  pose proof (spikes_marked checkSpikes thr md) as Hspikes. cbv zeta in Hspikes.
  destruct (if checkSpikes then spikeLoop thr md else (md, 0)) as [md' n]
    eqn:Hloop.
  cbn [fst snd] in Hspikes. destruct Hspikes as (Hf' & Hm' & Hlen').
  cbn [QualityControl.data report temperatureOutliers salinityOutliers
       pressureOutliers oxygenOutliers spikesDetected].
  assert (cleanRow <$> md' = delete "_qc_outlier" <$> data) as Hclean.
  { rewrite <- Hfields, <- Hf', <- list_fmap_compose. done. }
  destruct Hmark as (Htotal & Hlen & Ht & Hs & Hp & Ho).
  unfold total in Htotal. cbn [tempOutliers salOutliers presOutliers
                               oxyOutliers] in Htotal, Ht, Hs, Hp, Ho.
  assert (count (if 0 <? oxyOutliers c then Some (oxyOutliers c) else None)
          = oxyOutliers c) as ->.
  { unfold count. destruct (Nat.ltb_spec 0 (oxyOutliers c)); simpl; lia. }
  assert (count (if checkSpikes then Some n else None) = n) as ->.
  { destruct checkSpikes; [done|]. by injection Hloop as _ <-. }
  split; [done|]. split; [apply fmap_sublist, sublist_filter|].
  split; [done|].
  pose proof (filter_unmarked_length md') as Hsplit.
  rewrite length_fmap. repeat split; lia.
Qed.

End QualityControlRows.

Module LowerCaseFields.
Import OceanData QualityControl OutlierCount.

Lemma SFcompare_refl (x : spec_float) :
  x ≠ S754_nan → SFcompare x x = Some Eq.
Proof.
  destruct x as [s|s| |s m e]; try done; intros _; destruct s; try done;
    cbn [SFcompare]; rewrite Z.compare_refl, ?Pos.compare_cont_refl; try done;
    by rewrite Pos.compare_refl.
Qed.

Lemma nan_ltb (x y : float) :
  is_nan x = true →
  PrimFloat.ltb x y = false ∧ PrimFloat.ltb y x = false.
Proof.
  unfold is_nan. rewrite !FloatAxioms.ltb_spec, FloatAxioms.eqb_spec.
  intros Hnan. assert (Prim2SF x = S754_nan) as ->.
  { destruct (Prim2SF x) as [s|s| |s m e] eqn:Hx; try done;
      unfold SFeqb in Hnan; by rewrite SFcompare_refl in Hnan. }
  split; [done|]. unfold SFltb. by destruct (Prim2SF y) as [[]|[]| |[]].
Qed.

(** The value [a || undefined || undefined] is range-checked like [a]
    unless [a] is zero. *)
Lemma outOfRange_lower (v : value) (range : float * float) :
  outOfRange (orElse (orElse v VUndefined) VUndefined) range
  = counted range v.
Proof.
  unfold orElse. destruct v as [| |x|s]; try done.
  - unfold counted. cbn [truthy].
    destruct (PrimFloat.eqb x 0) eqn:Hzero; [done|].
    destruct (is_nan x) eqn:Hnan; cbn [orb negb andb truthy outOfRange].
    + by destruct (nan_ltb x (fst range) Hnan) as [-> _],
                  (nan_ltb x (snd range) Hnan) as [_ ->].
    + by rewrite Hzero, Hnan.
  - cbn [truthy]. destruct (bool_decide (s = "")); cbn [negb truthy];
      [done|]. by destruct (bool_decide (s = "")).
Qed.

Lemma outOfRange_lower2 (v : value) (range : float * float) :
  outOfRange (orElse v VUndefined) range = counted range v.
Proof.
  rewrite <- outOfRange_lower. unfold orElse.
  destruct (truthy v) eqn:Hv; [by rewrite Hv|done].
Qed.

Lemma markAll_lower tr sr pr oxr c (rows : OceanData) :
  (∀ r, r ∈ rows →
        get r "Temperature" = VUndefined ∧ get r "temp" = VUndefined
        ∧ get r "Salinity" = VUndefined ∧ get r "Pressure" = VUndefined) →
  let c' := fst (markAll tr sr pr oxr c rows) in
  tempOutliers c'
  = tempOutliers c
    + length (filter (λ r, counted tr (get r "temperature") = true) rows)
  ∧ salOutliers c'
    = salOutliers c
      + length (filter (λ r, counted sr (get r "salinity") = true) rows)
  ∧ presOutliers c'
    = presOutliers c
      + length (filter (λ r, counted pr (get r "pressure") = true) rows).
Proof.
  revert c. induction rows as [|r rows IH]; intros c Hrows.
  { cbn. lia. }
  destruct (Hrows r ltac:(left)) as (HT & Ht & HS & HP).
  cbn [markAll]. unfold markRow. rewrite HT, Ht, HS, HP.
  rewrite outOfRange_lower, !outOfRange_lower2.
  match goal with
  | |- context [markAll tr sr pr oxr ?c1 rows] =>
      specialize (IH c1 ltac:(intros r' Hr'; apply Hrows; by right));
      destruct (markAll tr sr pr oxr c1 rows) as [c2 ms]
  end.
  cbn [fst tempOutliers salOutliers presOutliers] in IH |- *.
  rewrite !filter_cons.
  destruct IH as (-> & -> & ->).
  destruct (counted tr (get r "temperature")),
           (counted sr (get r "salinity")),
           (counted pr (get r "pressure"));
    repeat case_decide; try done; cbn [bump length]; lia.
Qed.

(** On a table that stores temperature, salinity and pressure under their
    lower-case names only, the range check counts the readings that are
    numbers other than zero outside the range: a reading of exactly zero is
    never counted, whatever the range. *)
Theorem lower_case_counts (data : OceanData) (params : QCParams)
    (removeOutliers : bool) :
  (∀ r, r ∈ data →
        get r "Temperature" = VUndefined ∧ get r "temp" = VUndefined
        ∧ get r "Salinity" = VUndefined ∧ get r "Pressure" = VUndefined) →
  let rep := report (performQualityControl data params removeOutliers) in
  let count range field :=
    length (filter (λ r, counted range (get r field) = true) data) in
  temperatureOutliers rep
  = count (default ((-2)%float, 40%float) (temp_range params)) "temperature"
  ∧ salinityOutliers rep
    = count (default (0%float, 42%float) (salinity_range params)) "salinity"
  ∧ pressureOutliers rep
    = count (default (0%float, 12000%float) (pressure_range params))
            "pressure"
  ∧ ∀ range, counted range (VNumber 0) = false.
Proof.
  intros Hrows rep count. subst rep count.
  unfold performQualityControl. cbv zeta.
  set (tr := default _ (temp_range params)).
  set (sr := default _ (salinity_range params)).
  set (pr := default _ (pressure_range params)).
  pose proof (markAll_lower tr sr pr (oxygen_range params)
                (mkCounts 0 0 0 0) data Hrows) as Hmark.
  destruct (markAll tr sr pr (oxygen_range params) (mkCounts 0 0 0 0) data)
    as [c md].
  destruct (if match check_spikes params with
               | Some false => false | _ => true end
            then _ else _) as [md' n].
  cbn [report temperatureOutliers salinityOutliers pressureOutliers].
  cbv zeta in Hmark. cbn [fst tempOutliers salOutliers presOutliers] in Hmark.
  destruct Hmark as (-> & -> & ->). by repeat split.
Qed.

Lemma lower_case_counts_witness :
  let data : OceanData :=
    [ {[ "temperature" := VNumber 0 ]}; {[ "temperature" := VNumber 50 ]} ] in
  let params :=
    {| temp_range := Some (5%float, 40%float); salinity_range := None;
       pressure_range := None; oxygen_range := None; check_spikes := None;
       spike_threshold := None |} in
  (∀ r, r ∈ data →
        get r "Temperature" = VUndefined ∧ get r "temp" = VUndefined
        ∧ get r "Salinity" = VUndefined ∧ get r "Pressure" = VUndefined)
  ∧ temperatureOutliers (report (performQualityControl data params false)) = 1.
Proof.
  intros data params.
  assert (∀ r, r ∈ data →
            get r "Temperature" = VUndefined ∧ get r "temp" = VUndefined
            ∧ get r "Salinity" = VUndefined ∧ get r "Pressure" = VUndefined)
    as Hrows.
  { intros r Hr. unfold data in Hr.
    repeat (apply elem_of_cons in Hr as [->|Hr]);
      [| |by apply elem_of_nil in Hr]; by vm_compute. }
  split; [exact Hrows|].
  destruct (lower_case_counts data params false Hrows) as (-> & _).
  by vm_compute.
Defined.

End LowerCaseFields.

Module MapFacts.
Import Preprocess.

Section entries.
Context {V : Type}.
Implicit Types (m entries : list (string * V)) (k : string) (v : V).

Lemma mapSet_keys m k v :
  (mapSet m k v).*1 = if decide (k ∈ m.*1) then m.*1 else m.*1 ++ [k].
Proof.
  induction m as [|[k0 w] m IH]; [done|]. cbn [mapSet].
  case_bool_decide as Hk.
  - subst k0. cbn [fmap list_fmap fst].
    destruct (decide (k ∈ k :: m.*1)) as [|Hn]; [done|].
    exfalso. apply Hn. left.
  - cbn [fmap list_fmap fst]. fold (fmap (M := list) (@fst string V)).
    rewrite IH. destruct (decide (k ∈ m.*1)) as [Hin|Hin].
    + destruct (decide (k ∈ k0 :: m.*1)) as [|Hn]; [done|].
      exfalso. apply Hn. by right.
    + destruct (decide (k ∈ k0 :: m.*1)) as [Hc|]; [|done].
      apply elem_of_cons in Hc as [->|]; done.
Qed.

Lemma mapSet_elem_of m k v kv :
  kv ∈ mapSet m k v → kv ∈ m ∨ kv = (k, v).
Proof.
  induction m as [|[k0 w] m IH]; cbn [mapSet].
  { intros ->%list_elem_of_singleton. by right. }
  case_bool_decide as Hk.
  - subst k0. intros [->|H]%elem_of_cons; [by right|]. left. by right.
  - intros [->|H]%elem_of_cons; [left; left|].
    destruct (IH H) as [|]; [left; by right|by right].
Qed.

Lemma mapSet_fresh m k v : k ∉ m.*1 → mapSet m k v = m ++ [(k, v)].
Proof.
  induction m as [|[k0 w] m IH]; [done|]. cbn [mapSet fmap list_fmap fst].
  intros Hk. apply not_elem_of_cons in Hk as [Hne Hk].
  case_bool_decide; [done|]. by rewrite IH.
Qed.

Lemma fold_keys m entries k :
  k ∈ (foldl (λ m kv, mapSet m kv.1 kv.2) m entries).*1
  ↔ k ∈ m.*1 ∨ k ∈ entries.*1.
Proof.
  revert m. induction entries as [|[k0 v0] entries IH]; intros m; cbn [foldl].
  { rewrite fmap_nil, elem_of_nil. tauto. }
  rewrite IH, mapSet_keys, fmap_cons, elem_of_cons. cbn [fst snd].
  destruct (decide (k0 ∈ m.*1)).
  - split; [tauto|]. intros [?|[->|?]]; tauto.
  - rewrite elem_of_app, list_elem_of_singleton. tauto.
Qed.

Lemma fold_NoDup m entries :
  NoDup m.*1 → NoDup (foldl (λ m kv, mapSet m kv.1 kv.2) m entries).*1.
Proof.
  revert m. induction entries as [|[k0 v0] entries IH]; intros m Hm; [done|].
  cbn [foldl]. apply IH. rewrite mapSet_keys. cbn [fst].
  destruct (decide (k0 ∈ m.*1)); [done|].
  apply NoDup_app. split; [done|]. split; [|apply NoDup_singleton].
  intros k Hk ->%list_elem_of_singleton. done.
Qed.

Lemma fold_elem_of m entries kv :
  kv ∈ foldl (λ m kv, mapSet m kv.1 kv.2) m entries → kv ∈ m ∨ kv ∈ entries.
Proof.
  revert m. induction entries as [|[k0 v0] entries IH]; intros m; cbn [foldl].
  { by left. }
  intros [H|H]%IH; [|right; by right].
  apply mapSet_elem_of in H as [H|H]; [by left|]. rewrite H. right; left.
Qed.

Lemma fold_length m entries :
  length (foldl (λ m kv, mapSet m kv.1 kv.2) m entries)
  ≤ length m + length entries.
Proof.
  revert m. induction entries as [|[k0 v0] entries IH]; intros m; cbn [foldl].
  { simpl. lia. }
  etrans; [apply IH|]. cbn [fst snd length].
  assert (length (mapSet m k0 v0) ≤ S (length m)); [|lia].
  rewrite <- (length_fmap fst (mapSet m k0 v0)), mapSet_keys.
  destruct (decide (k0 ∈ m.*1)); rewrite ?length_app, length_fmap; simpl; lia.
Qed.

Lemma fold_fresh m entries :
  NoDup (m.*1 ++ entries.*1) →
  foldl (λ m kv, mapSet m kv.1 kv.2) m entries = m ++ entries.
Proof.
  revert m. induction entries as [|[k0 v0] entries IH]; intros m Hm.
  { by rewrite app_nil_r. }
  cbn [foldl fst snd]. rewrite fmap_cons in Hm. cbn [fst] in Hm.
  apply NoDup_app in Hm as (Hm & Hdisj & Hentries).
  apply NoDup_cons in Hentries as [Hk0 Hentries].
  assert (k0 ∉ m.*1) as Hfresh by (intros H; apply (Hdisj k0 H); left).
  rewrite (mapSet_fresh m k0 v0 Hfresh), IH; [by rewrite <- app_assoc|].
  rewrite fmap_app. cbn [fmap list_fmap fst]. rewrite <- app_assoc.
  apply NoDup_app. split; [done|]. split; [|by apply NoDup_cons].
  intros k Hk [->|Hin]%elem_of_cons; [done|]. apply (Hdisj k Hk). by right.
Qed.

End entries.
End MapFacts.

Module CleanData.
Import OceanData Preprocess MapFacts.

Lemma keyed_fst (stringify : row → string) (U : list (string * row)) :
  Forall (λ kv, kv.1 = stringify kv.2) U → U.*1 = stringify <$> U.*2.
Proof.
  induction 1 as [|[k r] U Hk _ IH]; [done|].
  cbn [fmap list_fmap fst snd] in *. by rewrite Hk, IH.
Qed.

Lemma keyed_entries (stringify : row → string) (rows : OceanData) :
  ((λ r, (stringify r, r)) <$> rows).*1 = stringify <$> rows
  ∧ ((λ r, (stringify r, r)) <$> rows).*2 = rows.
Proof.
  split; rewrite <- list_fmap_compose; [done|]. apply list_fmap_id.
Qed.

Lemma filter_all {A} (P : A → Prop) `{!∀ x, Decision (P x)} (l : list A) :
  Forall P l → filter P l = l.
Proof.
  induction 1 as [|x l Hx _ IH]; [done|].
  rewrite filter_cons. case_decide; [by rewrite IH|done].
Qed.

Lemma filter_none {A} (P : A → Prop) `{!∀ x, Decision (P x)} (l : list A) :
  Forall (λ x, ¬ P x) l → filter P l = [].
Proof.
  induction 1 as [|x l Hx _ IH]; [done|].
  rewrite filter_cons. case_decide; [done|by rewrite IH].
Qed.

(** [cleanData] keeps rows of the table that pass its missing-value test
    ([keepRow]), one for each JSON text: the rows returned have distinct
    texts, every text of a kept row is the text of a row returned, the
    counts of the two warnings account for every row that is gone, and
    cleaning the result again changes nothing and warns of nothing. *)
Theorem cleanData_spec (stringify : row → string) (data : OceanData) :
  let result := fst (cleanData stringify data) in
  let removedRows := length (filter (λ r, keepRow r = false) data) in
  let duplicates := length data - removedRows - length result in
  NoDup (stringify <$> result)
  ∧ (∀ r, r ∈ result → r ∈ data ∧ keepRow r = true)
  ∧ (∀ r, r ∈ data → keepRow r = true →
          ∃ r', r' ∈ result ∧ stringify r' = stringify r)
  ∧ removedRows + duplicates + length result = length data
  ∧ snd (cleanData stringify data)
    = (if Nat.ltb 0 removedRows then [MsgRemovedRows removedRows] else [])
      ++ (if Nat.ltb 0 duplicates then [MsgDuplicates duplicates] else [])
  ∧ cleanData stringify result = (result, []).
Proof.
  intros result removedRows duplicates.
  set (cleaned := filter (λ r, keepRow r = true) data).
  set (entries := (λ r, (stringify r, r)) <$> cleaned).
  set (U := newMap entries).
  assert (result = U.*2) as Hresult by done.
  assert (Forall (λ kv, kv.1 = stringify kv.2 ∧ kv.2 ∈ cleaned) U) as HU.
  { apply Forall_forall. intros kv Hkv.
    apply fold_elem_of in Hkv as [Hkv|Hkv]; [by apply elem_of_nil in Hkv|].
    apply list_elem_of_fmap in Hkv as (r & -> & Hr). done. }
  assert (U.*1 = stringify <$> result) as Hkeys.
  { rewrite Hresult. apply keyed_fst. eapply Forall_impl; [exact HU|].
    by intros kv [? _]. }
  assert (NoDup (stringify <$> result)) as Hnodup.
  { rewrite <- Hkeys. by apply fold_NoDup, NoDup_nil. }
  assert (∀ r, r ∈ result → r ∈ data ∧ keepRow r = true) as Hsound.
  { intros r Hr. rewrite Hresult in Hr.
    apply list_elem_of_fmap in Hr as (kv & -> & Hkv).
    rewrite Forall_forall in HU. destruct (HU kv Hkv) as [_ Hin].
    by apply list_elem_of_filter in Hin as [? ?]. }
  assert (length cleaned + removedRows = length data) as Hsplit
    by apply Validation.filter_split_length.
  assert (length result ≤ length cleaned) as Hle.
  { rewrite Hresult, length_fmap.
    pose proof (fold_length [] entries) as Hlen. fold (newMap entries) in Hlen.
    fold U in Hlen. unfold entries in Hlen. rewrite length_fmap in Hlen.
    simpl in Hlen. lia. }
  assert (duplicates = length cleaned - length result) as Hdup
    by (unfold duplicates; lia).
  split; [done|]. split; [done|]. split; [|split; [lia|split]].
  - intros r Hr Hkeep.
    assert (stringify r ∈ U.*1) as Hin.
    { apply fold_keys. right. unfold entries.
      rewrite (proj1 (keyed_entries stringify cleaned)).
      apply list_elem_of_fmap. exists r. split; [done|].
      by apply list_elem_of_filter. }
    rewrite Hkeys in Hin. apply list_elem_of_fmap in Hin as (r' & ? & ?).
    by exists r'.
  - unfold cleanData. cbn [snd]. fold cleaned entries U. fold removedRows.
    by rewrite <- Hresult, <- Hdup.
  - unfold cleanData.
    assert (Forall (λ r, keepRow r = true) result) as Hall
      by (apply Forall_forall; intros r Hr; by apply Hsound).
    rewrite (filter_all _ result Hall).
    rewrite (filter_none (λ r, keepRow r = false) result).
    2: { eapply Forall_impl; [exact Hall|]. intros r ->. done. }
    assert (newMap ((λ r, (stringify r, r)) <$> result)
            = (λ r, (stringify r, r)) <$> result) as ->.
    { unfold newMap. rewrite fold_fresh; [done|].
      by rewrite (proj1 (keyed_entries stringify result)). }
    rewrite (proj2 (keyed_entries stringify result)), Nat.sub_diag. done.
Qed.

End CleanData.

Module Filtering.
Import OceanData QualityControl Preprocess CleanData Kept.

Section filters.
Context (stringToNumber : string → float).
Abbreviation depthOk := (depthOk stringToNumber).
Abbreviation coordinatesOk := (coordinatesOk stringToNumber).
Abbreviation filterData := (filterData stringToNumber).
Abbreviation extractSpatialSubset := (extractSpatialSubset stringToNumber).
Abbreviation passes := (passes stringToNumber).

Lemma filter_filter_same {A} (P : A → Prop) `{!∀ x, Decision (P x)}
    (l : list A) :
  filter P (filter P l) = filter P l.
Proof.
  apply filter_all, Forall_forall. intros x Hx.
  by apply list_elem_of_filter in Hx as [? _].
Qed.

Lemma filter_and {A} (f g : A → bool) (l : list A) :
  filter (λ x, g x = true) (filter (λ x, f x = true) l)
  = filter (λ x, f x && g x = true) l.
Proof.
  induction l as [|x l IH]; [done|]. rewrite !(filter_cons _ x l).
  destruct (f x) eqn:Hf, (g x) eqn:Hg; repeat case_decide; try done;
    rewrite ?filter_cons, ?Hg; repeat case_decide; try done; by rewrite IH.
Qed.

Lemma filter_true {A} (l : list A) : filter (λ _, true = true) l = l.
Proof. apply filter_all, Forall_forall. done. Qed.

Lemma filterData_rows (data : OceanData) (params : FilterParams) :
  fst (filterData data params)
  = filter (λ r, passes params r = true) data.
Proof.
  unfold Preprocess.filterData, passes, Kept.passes.
  rewrite <- filter_and.
  destruct (min_depth params) as [lo|], (max_depth params) as [hi|];
    destruct (latitude_range params) as [lat|],
             (longitude_range params) as [lon|];
    cbn [bool_decide decide_rel orb fst];
    rewrite ?bool_decide_eq_true_2, ?bool_decide_eq_false_2
      by (try apply is_Some_None; by eexists);
    cbn [orb fst]; rewrite ?filter_true; reflexivity.
Qed.

(** [filterData] returns the rows of the table that pass its tests, in
    their order; the counts of its warnings add up to the number of rows
    removed; filtering the result again removes nothing; and a row whose
    [depth] is zero (or another falsy value) and that has no [Depth] is kept
    whatever the depth bounds are. *)
Theorem filterData_spec (data : OceanData) (params : FilterParams) :
  let result := fst (filterData data params) in
  let removed (w : warning) :=
    match w with MsgDepth n | MsgCoordinates n => n | _ => 0 end in
  result = filter (λ r, passes params r = true) data
  ∧ result `sublist_of` data
  ∧ fst (filterData result params) = result
  ∧ foldr (λ w n, removed w + n) 0 (snd (filterData data params))
    = length data - length result
  ∧ (min_depth params = None → max_depth params = None →
     latitude_range params = None → longitude_range params = None →
     filterData data params = (data, []))
  ∧ ∀ r, truthy (get r "depth") = false → get r "Depth" = VUndefined →
         depthOk params r = true.
Proof.
  intros result removed. subst result.
  split; [apply filterData_rows|]. split; [|split; [|split; [|split]]].
  - rewrite filterData_rows. apply sublist_filter.
  - rewrite !filterData_rows. apply filter_filter_same.
  - unfold Preprocess.filterData.
    set (byDepth := filter (λ r, depthOk params r = true) data).
    assert (length byDepth ≤ length data) as H1 by apply length_filter.
    pose proof (length_filter
                  (λ r, coordinatesOk (latitude_range params)
                          (longitude_range params) r = true) byDepth) as H2.
    pose proof (length_filter
                  (λ r, coordinatesOk (latitude_range params)
                          (longitude_range params) r = true) data) as H3.
    destruct (bool_decide (is_Some (min_depth params))
              || bool_decide (is_Some (max_depth params)));
      destruct (bool_decide (is_Some (latitude_range params))
                || bool_decide (is_Some (longitude_range params)));
      cbn [fst snd foldr app]; unfold removed; lia.
  - intros Hlo Hhi Hlat Hlon. unfold Preprocess.filterData.
    by rewrite Hlo, Hhi, Hlat, Hlon.
  - intros r Hdepth HDepth. unfold Preprocess.depthOk, orElse.
    by rewrite Hdepth, HDepth.
Qed.

(** On an array, [extractSpatialSubset] keeps the rows that [filterData]
    keeps when it is given the same two ranges and no depth bound; on
    anything else it returns its argument with a warning. *)
Theorem extractSpatialSubset_filterData (rows : OceanData)
    (params : SpatialParams) :
  fst (extractSpatialSubset (PArray rows) params)
  = PArray (fst (filterData rows (rangesOnly params)))
  ∧ ∀ data, (∀ rows', data ≠ PArray rows') →
            extractSpatialSubset data params
            = (data, [Msg "Data format not suitable for spatial subsetting"]).
Proof.
  split.
  - unfold Preprocess.extractSpatialSubset, Preprocess.filterData, rangesOnly.
    cbn [min_depth max_depth latitude_range longitude_range].
    destruct rows as [|r rows].
    { by destruct (spatial_latitude_range params),
                  (spatial_longitude_range params). }
    by destruct (spatial_latitude_range params),
                (spatial_longitude_range params).
  - intros data Hdata. destruct data as [rows'| | | |]; try done.
    by destruct (Hdata rows').
Qed.

End filters.
End Filtering.

Module NumericColumns.
Import OceanData OceanDataFacts Number Preprocess.

Lemma zero_share (y : float) :
  PrimFloat.ltb 0.8 (ofNat 0 / y) = false.
Proof.
  rewrite ltb_spec, div_spec. change (Prim2SF (ofNat 0)) with (S754_zero false).
  by destruct (Prim2SF y) as [[]|[]| |[] m e].
Qed.

(** A numeric column is a field of the first row under which some row holds
    a number. *)
Lemma findNumericColumns_spec (data : OceanData) (col : string) :
  col ∈ findNumericColumns data →
  (∃ firstRow, head data = Some firstRow ∧ col ∈ dom firstRow)
  ∧ ∃ j r x, data !! j = Some r ∧ get r col = VNumber x.
Proof.
  destruct data as [|firstRow rest]; [by intros ?%elem_of_nil|].
  set (data := firstRow :: rest). cbn [findNumericColumns].
  intros [Hshare Hkey]%list_elem_of_filter. cbv zeta in Hshare.
  split; [exists firstRow; split; [done|by apply elem_of_keys_dom]|].
  destruct (filter (λ r, isNumber (get r col) = true) data) as [|r rs] eqn:Hf.
  { cbn [length] in Hshare. by rewrite zero_share in Hshare. }
  assert (r ∈ filter (λ r, isNumber (get r col) = true) data) as Hr
    by (rewrite Hf; left).
  apply list_elem_of_filter in Hr as [Hnum Hin].
  apply list_elem_of_lookup_1 in Hin as [j Hj].
  destruct (get r col) as [| |x|] eqn:Hx; try done. by exists j, r, x.
Qed.

Lemma NoDup_findNumericColumns (data : OceanData) :
  NoDup (findNumericColumns data).
Proof.
  destruct data as [|firstRow rest]; [apply NoDup_nil_2|].
  apply NoDup_filter, NoDup_keys.
Qed.

Lemma firstNumber_is_Some col (rows : OceanData) r x :
  r ∈ rows → get r col = VNumber x → is_Some (firstNumber col rows).
Proof.
  induction rows as [|r0 rows IH]; [by intros ?%elem_of_nil|].
  intros [->|Hin]%elem_of_cons Hx; cbn [firstNumber].
  - by rewrite Hx.
  - destruct (get r0 col); eauto.
Qed.

Lemma neighbour_exists (data : OceanData) col idx j r x :
  data !! j = Some r → get r col = VNumber x → j ≠ idx →
  is_Some (interpolated (prevValue data col idx) (nextValue data col idx)).
Proof.
  intros Hj Hx Hne.
  assert (is_Some (prevValue data col idx) ∨ is_Some (nextValue data col idx))
    as [[p Hp]|[n Hn]].
  { destruct (decide (j < idx)) as [Hlt|Hge].
    - left. unfold prevValue. apply (firstNumber_is_Some col _ r x); [|done].
      apply elem_of_reverse. apply list_elem_of_lookup. exists j.
      by rewrite lookup_take_lt.
    - right. unfold nextValue. apply (firstNumber_is_Some col _ r x); [|done].
      apply list_elem_of_lookup. exists (j - S idx).
      rewrite lookup_drop. rewrite <- Hj. f_equal. lia. }
  - rewrite Hp. by destruct (nextValue data col idx).
  - rewrite Hn. by destruct (prevValue data col idx).
Qed.

End NumericColumns.

Module Interpolation.
Import OceanData OceanDataFacts Number Preprocess NumericColumns.

(** The cell under [key] of the row that replaces row [r] at [idx]. *)
Lemma interpolateRow_lookup data cols idx (r newRow : row) count key :
  fst (foldl (λ '(newRow, count) col,
                if isBlank (get r col) then
                  match interpolated (prevValue data col idx)
                          (nextValue data col idx) with
                  | Some v => (<[col := VNumber v]> newRow, S count)
                  | None => (newRow, count)
                  end
                else (newRow, count))
             (newRow, count) cols) !! key
  = if decide (key ∈ cols ∧ isBlank (get r key) = true)
    then match interpolated (prevValue data key idx)
                 (nextValue data key idx) with
         | Some v => Some (VNumber v)
         | None => newRow !! key
         end
    else newRow !! key.
Proof.
  revert newRow count. induction cols as [|col cols IH]; intros newRow count.
  { cbn [foldl fst]. case_decide as H; [|done].
    destruct H as [H _]. by apply elem_of_nil in H. }
  cbn [foldl].
  set (P := λ l : list string, key ∈ l ∧ isBlank (get r key) = true).
  fold (P cols) in IH. fold (P (col :: cols)).
  destruct (decide (key = col)) as [->|Hne].
  - destruct (isBlank (get r col)) eqn:Hblank.
    + rewrite (decide_True (P := P (col :: cols))) by (split; [left|done]).
      destruct (interpolated (prevValue data col idx)
                  (nextValue data col idx)) as [v|] eqn:Hv; rewrite IH, ?Hv.
      * rewrite lookup_insert_eq. by destruct (decide (P cols)).
      * by destruct (decide (P cols)).
    + rewrite IH.
      rewrite (decide_False (P := P cols)) by (intros [_ ?]; congruence).
      by rewrite (decide_False (P := P (col :: cols)))
        by (intros [_ ?]; congruence).
  - assert (P (col :: cols) ↔ P cols) as HP.
    { unfold P. rewrite elem_of_cons.
      split; [by intros [[?|?] ?]|intros [? ?]; split; [by right|done]]. }
    rewrite (decide_ext _ _ _ _ HP).
    destruct (isBlank (get r col));
      [destruct (interpolated (prevValue data col idx)
                   (nextValue data col idx))|];
      rewrite IH, ?lookup_insert_ne; done.
Qed.

Lemma interpolateFrom_lookup data cols idx (rows : OceanData) count n r :
  rows !! n = Some r →
  ∃ r', fst (interpolateFrom data cols idx rows count) !! n = Some r'
        ∧ ∀ key,
            r' !! key
            = if decide (key ∈ cols ∧ isBlank (get r key) = true)
              then match interpolated (prevValue data key (idx + n))
                           (nextValue data key (idx + n)) with
                   | Some v => Some (VNumber v)
                   | None => r !! key
                   end
              else r !! key.
Proof.
  revert idx count n. induction rows as [|r0 rows IH]; intros idx count n;
    [done|].
  cbn [interpolateFrom]. unfold interpolateRow.
  pose proof (interpolateRow_lookup data cols idx r0 r0 count) as Hrow.
  destruct (foldl _ (r0, count) cols) as [newRow count1]. cbn [fst] in Hrow.
  specialize (IH (S idx) count1).
  destruct (interpolateFrom data cols (S idx) rows count1) as [others count2].
  cbn [fst] in IH |- *. destruct n as [|n].
  - intros [= ->]. exists newRow. split; [done|]. intros key.
    by rewrite Nat.add_0_r, Hrow.
  - intros Hn. destruct (IH n Hn) as (r' & Hr' & Hkeys).
    exists r'. split; [done|]. intros key. rewrite Hkeys.
    by replace (idx + S n) with (S idx + n) by lia.
Qed.

Lemma interpolateFrom_length data cols idx (rows : OceanData) count :
  length (fst (interpolateFrom data cols idx rows count)) = length rows.
Proof.
  revert idx count. induction rows as [|r0 rows IH]; intros idx count; [done|].
  cbn [interpolateFrom].
  destruct (interpolateRow data cols idx r0 count) as [newRow count1].
  specialize (IH (S idx) count1).
  destruct (interpolateFrom data cols (S idx) rows count1) as [others count2].
  cbn [fst length] in *. by rewrite IH.
Qed.

(** [interpolateMissingValues] returns as many rows as it is given; it
    changes no cell that is not blank and no cell outside the numeric
    columns; a blank cell of a numeric column takes the mean of the nearest
    numbers before and after it in the column, or the one of the two there
    is; and no cell of a numeric column is blank afterwards. *)
Theorem interpolateMissingValues_spec (data : OceanData) :
  let result := fst (interpolateMissingValues data) in
  let cols := findNumericColumns data in
  length result = length data
  ∧ (∀ idx r, data !! idx = Some r →
       ∃ r', result !! idx = Some r'
             ∧ (∀ key, isBlank (get r key) = false → r' !! key = r !! key)
             ∧ (∀ key, key ∉ cols → r' !! key = r !! key)
             ∧ (∀ key, key ∈ cols → isBlank (get r key) = true →
                  ∃ v, interpolated (prevValue data key idx)
                         (nextValue data key idx) = Some v
                       ∧ r' !! key = Some (VNumber v)))
  ∧ ∀ r' key, r' ∈ result → key ∈ cols → isBlank (get r' key) = false.
Proof.
  intros result cols.
  assert (result = fst (interpolateFrom data cols 0 data 0)) as Hresult.
  { unfold result, interpolateMissingValues. fold cols.
    by destruct (interpolateFrom data cols 0 data 0). }
  assert (∀ idx r key, data !! idx = Some r → key ∈ cols →
            isBlank (get r key) = true →
            is_Some (interpolated (prevValue data key idx)
                       (nextValue data key idx))) as Hfill.
  { intros idx r key Hidx Hkey Hblank.
    destruct (findNumericColumns_spec data key Hkey)
      as (_ & j & rj & x & Hj & Hx).
    apply (neighbour_exists data key idx j rj x Hj Hx).
    intros ->. rewrite Hidx in Hj. injection Hj as ->.
    by rewrite Hx in Hblank. }
  assert (∀ idx r, data !! idx = Some r →
            ∃ r', result !! idx = Some r'
                  ∧ (∀ key, isBlank (get r key) = false →
                            r' !! key = r !! key)
                  ∧ (∀ key, key ∉ cols → r' !! key = r !! key)
                  ∧ (∀ key, key ∈ cols → isBlank (get r key) = true →
                       ∃ v, interpolated (prevValue data key idx)
                              (nextValue data key idx) = Some v
                            ∧ r' !! key = Some (VNumber v))) as Hrows.
  { intros idx r Hidx.
    destruct (interpolateFrom_lookup data cols 0 data 0 idx r Hidx)
      as (r' & Hr' & Hkeys).
    exists r'. rewrite Hresult. split; [done|]. cbn [Nat.add] in Hkeys.
    split; [|split].
    - intros key Hblank. rewrite Hkeys.
      apply decide_False. intros [_ ?]. congruence.
    - intros key Hkey. rewrite Hkeys. apply decide_False. by intros [? _].
    - intros key Hkey Hblank. rewrite Hkeys, decide_True by done.
      destruct (Hfill idx r key Hidx Hkey Hblank) as [v Hv].
      exists v. by rewrite Hv. }
  split; [rewrite Hresult; apply interpolateFrom_length|]. split; [done|].
  intros r' key Hr' Hkey.
  apply list_elem_of_lookup_1 in Hr' as [idx Hidx].
  assert (is_Some (data !! idx)) as [r Hr].
  { apply lookup_lt_is_Some. apply lookup_lt_Some in Hidx.
    by rewrite Hresult, interpolateFrom_length in Hidx. }
  destruct (Hrows idx r Hr) as (r'' & Hr'' & Hkeep & _ & Hfilled).
  rewrite Hidx in Hr''. injection Hr'' as <-.
  destruct (isBlank (get r key)) eqn:Hblank.
  - destruct (Hfilled key Hkey Hblank) as (v & _ & Hv).
    unfold get. by rewrite Hv.
  - unfold get. rewrite (Hkeep key Hblank). exact Hblank.
Qed.

End Interpolation.

Module QualityChecks.
Import OceanData QualityControl OutlierCount.

Lemma filter_ext_elem {A} (P Q : A → Prop) `{!∀ x, Decision (P x)}
    `{!∀ x, Decision (Q x)} (l : list A) :
  (∀ x, x ∈ l → P x ↔ Q x) → filter P l = filter Q l.
Proof.
  induction l as [|x l IH]; [done|]. intros Hl.
  rewrite !filter_cons, IH by (intros y Hy; apply Hl; by right).
  pose proof (Hl x ltac:(left)) as Hx.
  destruct (decide (P x)), (decide (Q x)); tauto.
Qed.

Lemma markAll_counts tr sr pr oxr c (rows : OceanData) :
  let c' := fst (markAll tr sr pr oxr c rows) in
  tempOutliers c'
  = tempOutliers c
    + length (filter (λ r, outOfRange (temperatureOf r) tr = true) rows)
  ∧ salOutliers c'
    = salOutliers c
      + length (filter (λ r, outOfRange (salinityOf r) sr = true) rows)
  ∧ presOutliers c'
    = presOutliers c
      + length (filter (λ r, outOfRange (pressureOf r) pr = true) rows).
Proof.
  revert c. induction rows as [|r rows IH]; intros c.
  { cbn. lia. }
  cbn [markAll]. unfold markRow.
  fold (temperatureOf r) (salinityOf r) (pressureOf r).
  match goal with
  | |- context [markAll tr sr pr oxr ?c1 rows] =>
      specialize (IH c1); destruct (markAll tr sr pr oxr c1 rows) as [c2 ms]
  end.
  cbn [fst tempOutliers salOutliers presOutliers] in IH |- *.
  rewrite !filter_cons. destruct IH as (-> & -> & ->).
  destruct (outOfRange (temperatureOf r) tr),
           (outOfRange (salinityOf r) sr),
           (outOfRange (pressureOf r) pr);
    repeat case_decide; try done; cbn [bump length]; lia.
Qed.

Section checks.
Context (stringToNumber : string → float).

Lemma checkFold_counts tr sr pr (rows : OceanData) t s p :
  foldl (λ '(t, s, p) r,
           let temp := orElse (orElse (get r "temperature")
                                      (get r "Temperature"))
                              (get r "temp") in
           let salinity := orElse (get r "salinity") (get r "Salinity") in
           let pressure := orElse (get r "pressure") (get r "Pressure") in
           (bump (Preprocess.outside stringToNumber temp tr) t,
            bump (Preprocess.outside stringToNumber salinity sr) s,
            bump (Preprocess.outside stringToNumber pressure pr) p))
        (t, s, p) rows
  = (t + length (filter (λ r, Preprocess.outside stringToNumber
                                (temperatureOf r) tr = true) rows),
     s + length (filter (λ r, Preprocess.outside stringToNumber
                                (salinityOf r) sr = true) rows),
     p + length (filter (λ r, Preprocess.outside stringToNumber
                                (pressureOf r) pr = true) rows)).
Proof.
  revert t s p. induction rows as [|r rows IH]; intros t s p.
  { cbn. by rewrite !Nat.add_0_r. }
  cbn [foldl]. rewrite IH, !filter_cons.
  fold (temperatureOf r) (salinityOf r) (pressureOf r).
  destruct (Preprocess.outside stringToNumber (temperatureOf r) tr),
           (Preprocess.outside stringToNumber (salinityOf r) sr),
           (Preprocess.outside stringToNumber (pressureOf r) pr);
    repeat case_decide; try done; cbn [bump length];
    rewrite ?Nat.add_succ_r; reflexivity.
Qed.

Lemma outside_number (v : value) (range : float * float) :
  numberOrAbsent v →
  Preprocess.outside stringToNumber v range = outOfRange v range.
Proof. by destruct v. Qed.

Lemma orElse_plain (a b : value) :
  numberOrAbsent a → numberOrAbsent b → numberOrAbsent (orElse a b).
Proof. unfold orElse. by destruct (truthy a). Qed.

(** On a table whose temperature, salinity and pressure cells hold numbers
    or nothing, the quality check of the preprocess tool and the
    quality-control tool count the same outliers for the same ranges. *)
Theorem quality_checks_agree (data : OceanData) (params : QCParams)
    (removeOutliers : bool) :
  (∀ r key, r ∈ data →
            key ∈ ["temperature"; "Temperature"; "temp"; "salinity";
                   "Salinity"; "pressure"; "Pressure"] →
            numberOrAbsent (get r key)) →
  let check :=
    Preprocess.performQualityCheck stringToNumber data
      (Some (rangesOf params)) in
  let control := report (performQualityControl data params removeOutliers) in
  Preprocess.temperatureOutliers check = temperatureOutliers control
  ∧ Preprocess.salinityOutliers check = salinityOutliers control
  ∧ Preprocess.pressureOutliers check = pressureOutliers control
  ∧ Preprocess.totalRows check = length data.
Proof.
  intros Hplain check control. subst check control.
  unfold Preprocess.performQualityCheck, performQualityControl. cbv zeta.
  cbn [mbind option_bind rangesOf Preprocess.temp_range
       Preprocess.salinity_range Preprocess.pressure_range].
  set (tr := default _ (temp_range params)).
  set (sr := default _ (salinity_range params)).
  set (pr := default _ (pressure_range params)).
  rewrite checkFold_counts.
  pose proof (markAll_counts tr sr pr (oxygen_range params)
                (mkCounts 0 0 0 0) data) as Hmark.
  destruct (markAll tr sr pr (oxygen_range params) (mkCounts 0 0 0 0) data)
    as [c md].
  destruct (if match check_spikes params with
               | Some false => false | _ => true end
            then _ else _) as [md' n].
  cbv zeta in Hmark. cbn [fst tempOutliers salOutliers presOutliers] in Hmark.
  destruct Hmark as (Ht & Hs & Hp).
  cbn [Preprocess.temperatureOutliers Preprocess.salinityOutliers
       Preprocess.pressureOutliers Preprocess.totalRows report
       temperatureOutliers salinityOutliers pressureOutliers].
  rewrite Ht, Hs, Hp.
  assert (∀ (f : row → value) (range : float * float),
            (∀ r, r ∈ data → numberOrAbsent (f r)) →
            filter (λ r, Preprocess.outside stringToNumber (f r) range = true)
                   data
            = filter (λ r, outOfRange (f r) range = true) data) as Hsame.
  { intros f range Hf. apply filter_ext_elem. intros r Hr.
    by rewrite outside_number by by apply Hf. }
  assert (∀ r key, r ∈ data →
            key ∈ ["temperature"; "Temperature"; "temp"; "salinity";
                   "Salinity"; "pressure"; "Pressure"] →
            numberOrAbsent (get r key)) as Hcell by exact Hplain.
  rewrite !Hsame; [done|..]; intros r Hr;
    unfold temperatureOf, salinityOf, pressureOf;
    repeat apply orElse_plain; apply Hcell; try done;
    repeat first [left|right].
Qed.

End checks.

Lemma quality_checks_agree_witness :
  let data : OceanData :=
    [ {[ "temperature" := VNumber 50; "salinity" := VNumber 35 ]};
      {[ "temperature" := VNumber 12 ]} ] in
  let params :=
    {| temp_range := None; salinity_range := None; pressure_range := None;
       oxygen_range := None; check_spikes := None; spike_threshold := None |} in
  (∀ r key, r ∈ data →
            key ∈ ["temperature"; "Temperature"; "temp"; "salinity";
                   "Salinity"; "pressure"; "Pressure"] →
            numberOrAbsent (get r key))
  ∧ Preprocess.temperatureOutliers
      (Preprocess.performQualityCheck (λ _, nan) data
         (Some (rangesOf params))) = 1.
Proof.
  intros data params.
  assert (∀ r key, r ∈ data →
            key ∈ ["temperature"; "Temperature"; "temp"; "salinity";
                   "Salinity"; "pressure"; "Pressure"] →
            numberOrAbsent (get r key)) as Hplain.
  { intros r key Hr Hkey. unfold data in Hr.
    repeat (apply elem_of_cons in Hr as [->|Hr]);
      [| |by apply elem_of_nil in Hr];
      repeat (apply elem_of_cons in Hkey as [->|Hkey]);
      try (by apply elem_of_nil in Hkey); by vm_compute. }
  split; [exact Hplain|].
  destruct (quality_checks_agree (λ _, nan) data params false Hplain)
    as (-> & _).
  by vm_compute.
Defined.

End QualityChecks.

Module Preview.
Import OceanData OceanDataFacts Number Text DataFiles Preprocess.

Lemma slice_take {A} (l : list A) (n : nat) :
  slice l (Fin 0) (Fin (Z.of_nat n)) = take n l.
Proof.
  unfold slice, relativeIndex.
  replace (0 <? 0)%Z with false by done.
  replace (Z.of_nat n <? 0)%Z with false by (symmetry; apply Z.ltb_ge; lia).
  replace (Z.to_nat (Z.min 0 (Z.of_nat (length l)))) with 0 by lia.
  rewrite drop_0, Nat.sub_0_r.
  destruct (decide (n ≤ length l)).
  - f_equal. lia.
  - replace (Z.to_nat (Z.min (Z.of_nat n) (Z.of_nat (length l))))
      with (length l) by lia.
    by rewrite !take_ge by lia.
Qed.

Lemma previewText_cellText rt (v : value) :
  isMissing v = false → previewText rt v = cellText rt v.
Proof.
  destruct v as [| |x|s]; try done. simpl. by intros ->.
Qed.

(** The preview of a table is the CSV text of its first [maxRows] rows,
    provided none of their cells under the fields of the first row is
    missing. *)
Theorem generatePreview_csv (rt : Runtime) (data : OceanData) (maxRows : nat) :
  0 < maxRows →
  (∀ r h, r ∈ take maxRows data → h ∈ dom (default ∅ (head data)) →
          isMissing (get r h) = false) →
  data ≠ [] →
  generatePreview rt data (Z.of_nat maxRows)
  = serializeData rt (PArray (take maxRows data)) "csv".
Proof.
  intros Hpos Hpresent Hdata. destruct data as [|firstRow rest]; [done|].
  destruct maxRows as [|n]; [lia|].
  unfold generatePreview, serializeData. rewrite slice_take.
  cbn [take bool_decide decide_rel orb]. f_equal. f_equal.
  apply list_fmap_ext. intros i r Hr. f_equal.
  apply list_fmap_ext. intros j h Hh.
  apply previewText_cellText, Hpresent.
  - by eapply list_elem_of_lookup_2.
  - cbn [head default]. apply elem_of_keys_dom.
    by eapply list_elem_of_lookup_2.
Qed.

Lemma generatePreview_csv_witness :
  let rt := mkRuntime (λ _, "") (λ _, Return PNull) (λ _, "") in
  let data : OceanData :=
    [ {[ "sst" := VNumber 20.5 ]}; {[ "sst" := VNumber 21 ]};
      {[ "sst" := VNull ]} ] in
  (∀ r h, r ∈ take 2 data → h ∈ dom (default ∅ (head data)) →
          isMissing (get r h) = false)
  ∧ generatePreview rt data (Z.of_nat 2)
    = String.concat (String LF "") ["sst"; "20.5000"; "21.0000"].
Proof.
  intros rt data.
  assert (∀ r h, r ∈ take 2 data → h ∈ dom (default ∅ (head data)) →
                 isMissing (get r h) = false) as Hpresent.
  { intros r h Hr Hh.
    change (h ∈ dom ({[ "sst" := VNumber 20.5 ]} : row)) in Hh.
    unfold data in Hr. rewrite dom_singleton_L in Hh. apply elem_of_singleton in Hh as ->.
    cbn [take] in Hr.
    repeat (apply elem_of_cons in Hr as [->|Hr]);
      [| |by apply elem_of_nil in Hr]; by vm_compute. }
  split; [exact Hpresent|].
  rewrite (generatePreview_csv rt data 2 ltac:(lia) Hpresent ltac:(done)).
  by vm_compute.
Defined.

End Preview.

Module Filling.
Import OceanData OceanDataFacts Number Preprocess NumericColumns.

(** The cell under [key] after a pass that writes [fill col] into the
    blank cells among [cols]. *)
Lemma fold_fill_lookup (blank : string → bool) (fill : string → option float)
    (cols : list string) (newRow : row) (count : nat) (key : string) :
  fst (foldl (λ '(newRow, count) col,
                if blank col then
                  match fill col with
                  | Some v => (<[col := VNumber v]> newRow, S count)
                  | None => (newRow, count)
                  end
                else (newRow, count))
             (newRow, count) cols) !! key
  = if decide (key ∈ cols ∧ blank key = true)
    then match fill key with
         | Some v => Some (VNumber v)
         | None => newRow !! key
         end
    else newRow !! key.
Proof.
  revert newRow count. induction cols as [|col cols IH]; intros newRow count.
  { cbn [foldl fst]. case_decide as H; [|done].
    destruct H as [H _]. by apply elem_of_nil in H. }
  cbn [foldl].
  set (P := λ l : list string, key ∈ l ∧ blank key = true).
  fold (P cols) in IH. fold (P (col :: cols)).
  destruct (decide (key = col)) as [->|Hne].
  - destruct (blank col) eqn:Hblank.
    + rewrite (decide_True (P := P (col :: cols))) by (split; [left|done]).
      destruct (fill col) as [v|] eqn:Hv; rewrite IH, ?Hv.
      * rewrite lookup_insert_eq. by destruct (decide (P cols)).
      * by destruct (decide (P cols)).
    + rewrite IH.
      rewrite (decide_False (P := P cols)) by (intros [_ ?]; congruence).
      by rewrite (decide_False (P := P (col :: cols)))
        by (intros [_ ?]; congruence).
  - assert (P (col :: cols) ↔ P cols) as HP.
    { unfold P. rewrite elem_of_cons.
      split; [by intros [[?|?] ?]|intros [? ?]; split; [by right|done]]. }
    rewrite (decide_ext _ _ _ _ HP).
    destruct (blank col); [destruct (fill col)|];
      rewrite IH, ?lookup_insert_ne; done.
Qed.

Lemma fillFrom_lookup method maxGap data cols idx (rows : OceanData) count
    n r :
  rows !! n = Some r →
  ∃ r', fst (fillFrom method maxGap data cols idx rows count) !! n = Some r'
        ∧ ∀ key,
            r' !! key
            = if decide (key ∈ cols ∧ isMissing (get r key) = true)
              then match fillValue method maxGap data key (idx + n) with
                   | Some v => Some (VNumber v)
                   | None => r !! key
                   end
              else r !! key.
Proof.
  revert idx count n. induction rows as [|r0 rows IH]; intros idx count n;
    [done|].
  cbn [fillFrom]. unfold fillRowAt.
  pose proof (fold_fill_lookup (λ col, isMissing (get r0 col))
                (λ col, fillValue method maxGap data col idx) cols r0 count)
    as Hrow.
  destruct (foldl _ (r0, count) cols) as [newRow count1]. cbn [fst] in Hrow.
  specialize (IH (S idx) count1).
  destruct (fillFrom method maxGap data cols (S idx) rows count1)
    as [others count2].
  cbn [fst] in IH |- *. destruct n as [|n].
  - intros [= ->]. exists newRow. split; [done|]. intros key.
    by rewrite Nat.add_0_r, Hrow.
  - intros Hn. destruct (IH n Hn) as (r' & Hr' & Hkeys).
    exists r'. split; [done|]. intros key. rewrite Hkeys.
    by replace (idx + S n) with (S idx + n) by lia.
Qed.

Lemma fillFrom_length method maxGap data cols idx (rows : OceanData) count :
  length (fst (fillFrom method maxGap data cols idx rows count))
  = length rows.
Proof.
  revert idx count. induction rows as [|r0 rows IH]; intros idx count; [done|].
  cbn [fillFrom].
  destruct (fillRowAt method maxGap data cols idx r0 count)
    as [newRow count1].
  specialize (IH (S idx) count1).
  destruct (fillFrom method maxGap data cols (S idx) rows count1)
    as [others count2].
  cbn [fst length] in *. by rewrite IH.
Qed.

(** Where the first valid number of a run of rows is. *)
Lemma firstValid_spec col (rows : OceanData) passed x k :
  firstValid col rows passed = Some (x, k)
  ↔ ∃ j r, k = passed + j ∧ rows !! j = Some r
           ∧ validNumber (get r col) = Some x
           ∧ ∀ i r', i < j → rows !! i = Some r' →
                     validNumber (get r' col) = None.
Proof.
  revert passed. induction rows as [|r0 rows IH]; intros passed.
  { split; [done|]. by intros (j & r & _ & ? & _). }
  cbn [firstValid]. destruct (validNumber (get r0 col)) as [x0|] eqn:Hx0.
  - split.
    + intros [= -> ->]. exists 0, r0. split; [lia|]. split; [done|].
      split; [done|]. intros i r' Hi. lia.
    + intros (j & r & -> & Hj & Hx & Hbefore). destruct j as [|j].
      * injection Hj as <-. rewrite Hx0 in Hx. injection Hx as ->.
        by rewrite Nat.add_0_r.
      * specialize (Hbefore 0 r0 ltac:(lia) eq_refl). congruence.
  - rewrite IH. split.
    + intros (j & r & -> & Hj & Hx & Hbefore). exists (S j), r.
      split; [lia|]. split; [done|]. split; [done|].
      intros [|i] r' Hi Hr'; [by injection Hr' as <-|].
      apply (Hbefore i r'); [lia|done].
    + intros (j & r & -> & Hj & Hx & Hbefore). destruct j as [|j].
      * injection Hj as <-. congruence.
      * exists j, r. split; [lia|]. split; [done|]. split; [done|].
        intros i r' Hi Hr'. apply (Hbefore (S i) r'); [lia|done].
Qed.

Lemma fillMissingData_rows (r0 : row) (rest : OceanData)
    (params : option FillParams) :
  fst (fillMissingData (PArray (r0 :: rest)) params)
  = PArray (fst (fillFrom (method_of params) (params ≫= max_gap) (r0 :: rest)
                   (findNumericColumns (r0 :: rest)) 0 (r0 :: rest) 0)).
Proof.
  unfold fillMissingData.
  by destruct (fillFrom (method_of params) (params ≫= max_gap) (r0 :: rest)
                 (findNumericColumns (r0 :: rest)) 0 (r0 :: rest) 0).
Qed.

Lemma fillMissingData_cells (rows : OceanData)
    (params : option FillParams) :
  let cols := findNumericColumns rows in
  (∀ data, (∀ r0 rest, data ≠ PArray (r0 :: rest)) →
           fillMissingData data params
           = (data, [FillMsg "Data format not suitable for filling"]))
  ∧ ∃ filled,
      fst (fillMissingData (PArray rows) params) = PArray filled
      ∧ length filled = length rows
      ∧ ∀ idx r, rows !! idx = Some r →
          ∃ r', filled !! idx = Some r'
            ∧ (∀ key, isMissing (get r key) = false → r' !! key = r !! key)
            ∧ (∀ key, key ∉ cols → r' !! key = r !! key)
            ∧ (∀ key, r' !! key ≠ r !! key →
                 ∃ v, r' !! key = Some (VNumber v)
                      ∧ fillValue (method_of params) (params ≫= max_gap)
                          rows key idx = Some v).
Proof.
  intros cols. split.
  { intros data Hdata. destruct data as [[|r0 rest]| | | |]; try done.
    by destruct (Hdata r0 rest). }
  destruct rows as [|r0 rest].
  { exists []. split; [done|]. split; [done|]. intros idx r Hr. done. }
  set (rows := r0 :: rest) in *.
  exists (fst (fillFrom (method_of params) (params ≫= max_gap) rows cols 0
                 rows 0)).
  split; [apply fillMissingData_rows|].
  split; [apply fillFrom_length|].
  intros idx r Hidx.
  destruct (fillFrom_lookup (method_of params) (params ≫= max_gap) rows cols
              0 rows 0 idx r Hidx) as (r' & Hr' & Hkeys).
  exists r'. split; [done|]. cbn [Nat.add] in Hkeys. split; [|split].
  - intros key Hpresent. rewrite Hkeys.
    apply decide_False. intros [_ ?]. congruence.
  - intros key Hkey. rewrite Hkeys. apply decide_False. by intros [? _].
  - intros key Hchanged. rewrite Hkeys in Hchanged |- *.
    destruct (decide (key ∈ cols ∧ isMissing (get r key) = true)); [|done].
    destruct (fillValue (method_of params) (params ≫= max_gap) rows key idx)
      as [v|]; [by exists v|done].
Qed.

(** [fillMissingData] returns anything but a non-empty array as it is, with
    a warning.  Of a non-empty array it returns as many rows; it changes no
    cell that is not missing and no cell outside the numeric columns, and
    a cell it changes holds the number the method selects. *)
Theorem fillMissingData_frame (rows : OceanData)
    (params : option FillParams) :
  let cols := findNumericColumns rows in
  (∀ data, (∀ r0 rest, data ≠ PArray (r0 :: rest)) →
           fillMissingData data params
           = (data, [FillMsg "Data format not suitable for filling"]))
  ∧ ∃ filled,
      fst (fillMissingData (PArray rows) params) = PArray filled
      ∧ length filled = length rows
      ∧ ∀ idx r, rows !! idx = Some r →
          ∃ r', filled !! idx = Some r'
            ∧ (∀ key, isMissing (get r key) = false → r' !! key = r !! key)
            ∧ (∀ key, key ∉ cols → r' !! key = r !! key)
            ∧ (∀ key, r' !! key ≠ r !! key →
                 ∃ v, r' !! key = Some (VNumber v)
                      ∧ fillValue (method_of params) (params ≫= max_gap)
                          rows key idx = Some v).
Proof. exact (fillMissingData_cells rows params). Qed.

Lemma reverse_take_lookup (rows : OceanData) idx k :
  idx ≤ length rows → k < idx →
  reverse (take idx rows) !! k = rows !! (idx - S k).
Proof.
  intros Hidx Hk.
  rewrite reverse_lookup by (rewrite length_take; lia).
  rewrite length_take, Nat.min_l by done.
  apply lookup_take_lt. lia.
Qed.

(** With the method [forward_fill], a cell that is changed holds the valid
    number of the nearest earlier row that has one in the column. *)
Theorem forward_fill_source (rows filled : OceanData)
    (params : option FillParams) (idx : nat) (r r' : row) (key : string) :
  method_of params = "forward_fill" →
  fst (fillMissingData (PArray rows) params) = PArray filled →
  rows !! idx = Some r → filled !! idx = Some r' →
  r' !! key ≠ r !! key →
  ∃ j source v,
    j < idx ∧ rows !! j = Some source
    ∧ get source key = VNumber v ∧ is_nan v = false
    ∧ r' !! key = Some (VNumber v)
    ∧ ∀ i between, j < i < idx → rows !! i = Some between →
                   validNumber (get between key) = None.
Proof.
  intros Hmethod Hfilled Hidx Hidx' Hchanged.
  destruct (fillMissingData_cells rows params)
    as (_ & filled0 & Hfilled0 & _ & Hrows).
  rewrite Hfilled in Hfilled0. injection Hfilled0 as <-.
  destruct (Hrows idx r Hidx) as (r'' & Hr'' & _ & _ & Hvalue).
  rewrite Hidx' in Hr''. injection Hr'' as <-.
  destruct (Hvalue key Hchanged) as (v & Hv & Hfill).
  unfold fillValue in Hfill. rewrite Hmethod in Hfill.
  cbn [bool_decide decide_rel orb] in Hfill.
  rewrite !bool_decide_eq_false_2 in Hfill by done.
  rewrite bool_decide_eq_true_2 in Hfill by done. cbn [orb] in Hfill.
  destruct (firstValid key (reverse (take idx rows)) 0) as [[x k]|] eqn:Hfirst;
    [|done].
  injection Hfill as ->.
  apply firstValid_spec in Hfirst as (j & source & -> & Hj & Hx & Hbefore).
  cbn [Nat.add] in *.
  assert (idx ≤ length rows) as Hle
    by (apply lookup_lt_Some in Hidx; lia).
  assert (j < idx) as Hlt.
  { apply lookup_lt_Some in Hj. rewrite length_reverse, length_take in Hj.
    lia. }
  rewrite reverse_take_lookup in Hj by done.
  exists (idx - S j), source, v. split; [lia|]. split; [done|].
  unfold validNumber in Hx. destruct (get source key) as [| |y|] eqn:Hy;
    try done.
  destruct (is_nan y) eqn:Hnan; [done|]. injection Hx as ->.
  split; [done|]. split; [done|]. split; [done|].
  intros i between [Hlo Hhi] Hi.
  apply (Hbefore (idx - S i) between); [lia|].
  rewrite reverse_take_lookup by lia. rewrite <- Hi. f_equal. lia.
Qed.

Lemma forward_fill_source_witness :
  let rows : OceanData :=
    Spec.temperatures [1]%float ++ [ {[ "temperature" := VNull ]} ]
    ++ Spec.temperatures [3; 4; 5; 6]%float in
  let params := Some {| method := Some "forward_fill"; max_gap := None |} in
  fst (fillMissingData (PArray rows) params)
  = PArray (Spec.temperatures [1; 1; 3; 4; 5; 6]%float)
  ∧ ∃ j source v,
      j < 1 ∧ rows !! j = Some source
      ∧ get source "temperature" = VNumber v ∧ is_nan v = false
      ∧ ({[ "temperature" := VNumber 1 ]} : row) !! "temperature"
        = Some (VNumber v)
      ∧ ∀ i between, j < i < 1 → rows !! i = Some between →
                     validNumber (get between "temperature") = None.
Proof.
  intros rows params.
  assert (fst (fillMissingData (PArray rows) params)
          = PArray (Spec.temperatures [1; 1; 3; 4; 5; 6]%float)) as Hfilled
    by (by vm_compute).
  split; [exact Hfilled|].
  apply (forward_fill_source rows _ params 1 {[ "temperature" := VNull ]}
           {[ "temperature" := VNumber 1 ]} "temperature"
           eq_refl Hfilled eq_refl eq_refl).
  by vm_compute.
Defined.

Lemma firstValid_firstNumber col (rows : OceanData) passed :
  (∀ r x, r ∈ rows → get r col = VNumber x → is_nan x = false) →
  fst <$> firstValid col rows passed = firstNumber col rows.
Proof.
  revert passed. induction rows as [|r rows IH]; intros passed Hrows; [done|].
  cbn [firstValid firstNumber]. unfold validNumber.
  destruct (get r col) as [| |x|s] eqn:Hx;
    try (apply IH; intros r' x' Hr'; apply Hrows; by right).
  by rewrite (Hrows r x ltac:(left) Hx).
Qed.

Lemma interpolateMissingValues_rows (rows : OceanData) :
  fst (interpolateMissingValues rows)
  = fst (interpolateFrom rows (findNumericColumns rows) 0 rows 0).
Proof.
  unfold interpolateMissingValues.
  by destruct (interpolateFrom rows (findNumericColumns rows) 0 rows 0).
Qed.

(** On a table without [NaN], filling with the method [linear] (the
    default) or [cubic] and no [max_gap] gives the rows that
    [interpolateMissingValues] gives. *)
Theorem fill_is_interpolate (rows : OceanData)
    (params : option FillParams) :
  (∀ r key x, r ∈ rows → r !! key = Some (VNumber x) → is_nan x = false) →
  method_of params = "linear" ∨ method_of params = "cubic" →
  params ≫= max_gap = None →
  rows ≠ [] →
  fst (fillMissingData (PArray rows) params)
  = PArray (fst (interpolateMissingValues rows)).
Proof.
  intros Hnan Hmethod Hgap Hrows. destruct rows as [|r0 rest]; [done|].
  rewrite fillMissingData_rows, interpolateMissingValues_rows. f_equal.
  set (rows := r0 :: rest) in *. set (cols := findNumericColumns rows).
  assert (∀ r col x, r ∈ rows → get r col = VNumber x → is_nan x = false)
    as Hcell.
  { intros r col x Hr Hx. unfold get in Hx.
    destruct (r !! col) as [v|] eqn:Hv; [|done]. simpl in Hx. subst v.
    by eapply Hnan. }
  assert (∀ idx key,
            fillValue (method_of params) (params ≫= max_gap) rows key idx
            = interpolated (prevValue rows key idx) (nextValue rows key idx))
    as Hvalue.
  { intros idx key. unfold fillValue, fillBetween, prevValue, nextValue.
    rewrite Hgap.
    rewrite <- (firstValid_firstNumber key (reverse (take idx rows)) 0).
    2: { intros r x Hr. apply Hcell. rewrite elem_of_reverse in Hr.
         apply elem_of_take in Hr as (i & Hi & _).
         by eapply list_elem_of_lookup_2. }
    rewrite <- (firstValid_firstNumber key (drop (S idx) rows) 0).
    2: { intros r x Hr. apply Hcell.
         apply list_elem_of_lookup in Hr as [i Hi]. rewrite lookup_drop in Hi.
         by eapply list_elem_of_lookup_2. }
    destruct Hmethod as [-> | ->]; cbn [bool_decide decide_rel orb];
      rewrite ?bool_decide_eq_true_2, ?bool_decide_eq_false_2 by done;
      cbn [orb];
      by destruct (firstValid key (reverse (take idx rows)) 0) as [[? ?]|],
                  (firstValid key (drop (S idx) rows) 0) as [[? ?]|]. }
  apply list_eq. intros n.
  destruct (rows !! n) as [r|] eqn:Hn.
  - destruct (fillFrom_lookup (method_of params) (params ≫= max_gap) rows
                cols 0 rows 0 n r Hn) as (r1 & -> & H1).
    destruct (Interpolation.interpolateFrom_lookup rows cols 0 rows 0 n r Hn)
      as (r2 & -> & H2).
    f_equal. apply map_eq. intros key. rewrite H1, H2, Hvalue.
    assert (isMissing (get r key) = isBlank (get r key)) as ->; [|done].
    destruct (get r key) as [| |x|s] eqn:Hx; try done. simpl.
    apply (Hcell r key x); [by eapply list_elem_of_lookup_2|done].
  - apply lookup_ge_None in Hn.
    rewrite !lookup_ge_None_2; [done|..].
    + by rewrite Interpolation.interpolateFrom_length.
    + by rewrite fillFrom_length.
Qed.

Lemma fill_is_interpolate_witness :
  let rows : OceanData :=
    Spec.temperatures [1]%float ++ [ {[ "temperature" := VNull ]} ]
    ++ Spec.temperatures [3; 4; 5; 6]%float in
  (∀ r key x, r ∈ rows → r !! key = Some (VNumber x) → is_nan x = false)
  ∧ fst (interpolateMissingValues rows)
    = Spec.temperatures [1; 2; 3; 4; 5; 6]%float
  ∧ fst (fillMissingData (PArray rows) None)
    = PArray (Spec.temperatures [1; 2; 3; 4; 5; 6]%float).
Proof.
  intros rows.
  assert (∀ r key x, r ∈ rows → r !! key = Some (VNumber x) →
                     is_nan x = false) as Hnan.
  { intros r key x Hr Hx. unfold rows in Hr. cbn in Hr.
    repeat (apply elem_of_cons in Hr as [->|Hr]);
      try (by apply elem_of_nil in Hr);
      (destruct (decide (key = "temperature")) as [->|Hne];
       [ rewrite lookup_singleton_eq in Hx; by simplify_eq
       | by rewrite lookup_singleton_ne in Hx ]). }
  assert (fst (interpolateMissingValues rows)
          = Spec.temperatures [1; 2; 3; 4; 5; 6]%float) as Hinterpolated
    by (by vm_compute).
  split; [exact Hnan|]. split; [exact Hinterpolated|].
  rewrite (fill_is_interpolate rows None Hnan (or_introl eq_refl) eq_refl
             ltac:(done)).
  by rewrite Hinterpolated.
Defined.

End Filling.

Module Analysis.
Import OceanData OceanDataFacts GeneratedMasks.
Import MaskAnalysis QualityChecks.

Lemma filter_fmap_length {A B} (f : A → B) (P : B → Prop)
    `{!∀ y, Decision (P y)} (l : list A) :
  length (filter P (f <$> l)) = length (filter (λ x, P (f x)) l).
Proof.
  induction l as [|x l IH]; [done|]. rewrite fmap_cons, !filter_cons.
  destruct (decide (P (f x))); simpl; by rewrite IH.
Qed.

Lemma count_flags (m : gmap string bool) :
  landPixelCountOf m = length (filter (λ k, m !! k = Some true) (keys m)).
Proof.
  unfold landPixelCountOf, keys. rewrite !filter_fmap_length.
  f_equal. apply filter_ext_elem.
  intros [k v] Hkv%elem_of_map_to_list. simpl. rewrite Hkv.
  split; [by intros ->|by intros [=]].
Qed.

Lemma landPixelCountOf_pass (data : OceanData) (ks : list string) :
  NoDup ks →
  landPixelCountOf (landMaskPass data ks)
  = length (filter (λ key, forallb (λ r, isMissing (get r key)) data = true)
              ks).
Proof.
  intros Hnd. rewrite count_flags.
  assert (keys (landMaskPass data ks) ≡ₚ ks) as ->.
  { apply NoDup_Permutation; [apply NoDup_keys|done|]. intros k.
    rewrite elem_of_keys_dom. unfold landMaskPass.
    rewrite dom_forEach_assign. apply elem_of_list_to_set. }
  f_equal. apply filter_ext_elem. intros k Hk.
  rewrite landMaskPass_lookup, decide_True by done.
  split; [by intros [=]|by intros ->].
Qed.

(** Analysing the masks that [generateMasks] has just made: the analysis
    reports a land mask, the land-pixel count and the number of cloud masks
    of the generation report, and the land-pixel count is the number of
    fields of the first row that are missing in every row. *)
Theorem analyzeMasks_generated (firstRow : row) (rest : OceanData)
    (params : option MaskParams) :
  let data := firstRow :: rest in
  ∃ result,
    MaskProcess.generateMasks (PArray data) params = Return result
    ∧ let analysis := (analyzeMasks (MaskProcess.masks result)).1 in
      landMaskGenerated analysis = true
      ∧ landPixelCount analysis
        = length (filter (λ key,
                    forallb (λ r, isMissing (get r key)) data = true)
                    (keys firstRow))
      ∧ MaskProcess.landPixelCount (MaskProcess.report result)
        = Some (landPixelCount analysis)
      ∧ MaskProcess.cloudMasksGenerated (MaskProcess.report result)
        = Some (cloudMasksGenerated analysis).
Proof.
  intros data.
  change (MaskProcess.generateMasks (PArray data) params)
    with (Return (MaskProcess.generateFrom data (keys firstRow) params)).
  eexists. split; [reflexivity|]. unfold MaskProcess.generateFrom. cbv zeta.
  set (ks := keys firstRow). set (lm := landMaskPass data ks).
  assert (landPixelCountOf lm
          = length (filter (λ key,
                      forallb (λ r, isMissing (get r key)) data = true) ks))
    as Hcount by apply landPixelCountOf_pass, NoDup_keys.
  destruct (length (seaKeysOf lm ks) =? 0);
    unfold analyzeMasks;
    cbn [MaskProcess.masks MaskProcess.report landMask cloudMasks fst
         landMaskGenerated landPixelCount cloudMasksGenerated
         MaskProcess.landPixelCount MaskProcess.cloudMasksGenerated length];
    by rewrite Hcount.
Qed.

End Analysis.
